(** * WebServer: a shallow embedding of the I/O and concurrency core

    The development follows the C++ sources component by component:

    - [HeapTimer]    code/timer/heaptimer.{h,cpp}   indexed min-heap of timers
    - [Buffer]       code/buffer/buffer.cpp         growable byte buffer
    - [BlockDeque]   code/log/blockqueue.h          bounded blocking deque
    - [SqlConnPool]  code/pool/sqlconnpool.cpp      database handle pool
    - [ThreadPool]   code/pool/threadpool.h         worker pool
    - [Epoller]      code/server/epoller.cpp        epoll wrapper
    - [WebServer]    code/server/webserver.cpp      accept path of the server

    Part I holds the definitions (the code, and the predicates the
    statements use); Part II holds the lemmas and theorems. *)

From Stdlib Require Import ZArith Lia Bool.
From stdpp Require Import base option list gmap strings.

Open Scope Z_scope.

(* ====================================================================== *)
(** * Part I. Definitions *)
(* ====================================================================== *)

(** ** Outcomes of a call

    A C++ call either returns, or leaves defined behaviour.  [OutOfBounds]
    is an access to a [std::vector] element outside [0, size()), which
    [operator[]] does not check; [AssertFailed] is a failing [assert] (the
    Makefile compiles without [-DNDEBUG]); [OutOfFuel] only says that the
    iteration bound handed to a loop of the model was too small, and is
    shown not to occur. *)

Inductive fault : Type :=
| OutOfBounds
| AssertFailed
| OutOfFuel.

Inductive result (A : Type) : Type :=
| Ok (a : A)
| Err (e : fault).

Arguments Ok {A} a.
Arguments Err {A} e.

(** The error monad; [x ← e; k] is stdpp's notation for [mbind]. *)
#[global] Instance result_bind : MBind result := fun A B k r =>
  match r with
  | Ok a => k a
  | Err e => Err e
  end.

#[global] Instance result_ret : MRet result := fun A a => Ok a.

Definition cassert (b : bool) : result unit :=
  if b then Ok tt else Err AssertFailed.

(** [size_t] is a 64-bit unsigned integer: arithmetic wraps modulo 2^64. *)
Definition size_t (z : Z) : Z := z mod 2 ^ 64.

(** Conversion of a 64-bit pattern to [int] (32 bits, two's complement). *)
Definition to_int (z : Z) : Z := (z + 2 ^ 31) mod 2 ^ 32 - 2 ^ 31.

(** [std::vector::max_size()] never exceeds [PTRDIFF_MAX]. *)
Definition PTRDIFF_MAX : Z := 2 ^ 63 - 1.

(* ---------------------------------------------------------------------- *)
(** ** HeapTimer (heaptimer.h, heaptimer.cpp) *)
(* ---------------------------------------------------------------------- *)

Module HeapTimer.

Section WithCallBack.

(** [std::function<void()>]: the timer only stores and invokes callbacks,
    so they are kept abstract; an invocation is recorded in the list of
    fired callbacks an operation returns. *)
Context {TimeoutCallBack : Type}.

(** [Clock::time_point] counts nanoseconds ([high_resolution_clock] of
    libstdc++); [MS] is [std::chrono::milliseconds]. *)
Definition TimeStamp : Type := Z.

Definition MS (timeout : Z) : Z := timeout * 1000000.

(** [std::chrono::duration_cast<MS>(d).count()]: truncation toward zero. *)
Definition duration_cast_MS (d : Z) : Z := Z.quot d 1000000.

Record TimerNode : Type := mkNode {
  id : Z;
  expires : TimeStamp;
  cb : TimeoutCallBack
}.

(** [bool operator<(const TimerNode &t) { return expires < t.expires; }] *)
Definition node_lt (a b : TimerNode) : bool := expires a <? expires b.

Record t : Type := mkTimer {
  heap_ : list TimerNode;
  ref_ : gmap Z Z
}.

Definition heap_size (tm : t) : Z := Z.of_nat (length (heap_ tm)).

(** [heap_[i]]: unchecked element access. *)
Definition at_ (h : list TimerNode) (i : Z) : result TimerNode :=
  if (0 <=? i) && (i <? Z.of_nat (length h)) then
    match h !! Z.to_nat i with
    | Some x => Ok x
    | None => Err OutOfBounds
    end
  else Err OutOfBounds.

Definition in_range (tm : t) (i : Z) : bool :=
  (0 <=? i) && (i <? heap_size tm).

(** [SwapNode_(i, j)] *)
Definition SwapNode_ (tm : t) (i j : Z) : result t :=
  _ ← cassert (in_range tm i);
  _ ← cassert (in_range tm j);
  ni ← at_ (heap_ tm) i;
  nj ← at_ (heap_ tm) j;
  (* std::swap(heap_[i], heap_[j]) *)
  let h' := <[Z.to_nat j := ni]> (<[Z.to_nat i := nj]> (heap_ tm)) in
  (* ref_[heap_[i].id] = i; ref_[heap_[j].id] = j; *)
  Ok (mkTimer h' (<[id ni := j]> (<[id nj := i]> (ref_ tm)))).

(** The loop of [siftup_]: [i] is the current node, [j] its parent index
    as computed in [size_t].  The test [j >= 0] is kept as written. *)
Fixpoint siftup_loop (fuel : nat) (tm : t) (i j : Z) : result t :=
  match fuel with
  | O => Err OutOfFuel
  | S fuel' =>
    if 0 <=? j then
      hj ← at_ (heap_ tm) j;
      hi ← at_ (heap_ tm) i;
      if node_lt hj hi then Ok tm
      else
        tm' ← SwapNode_ tm i j;
        siftup_loop fuel' tm' j (size_t (j - 1) / 2)
    else Ok tm
  end.

(** [siftup_(i)] *)
Definition siftup_ (tm : t) (i : Z) : result t :=
  _ ← cassert (in_range tm i);
  siftup_loop (S (length (heap_ tm))) tm i (size_t (i - 1) / 2).

(** The loop of [siftdown_]; returns the final [i]. *)
Fixpoint siftdown_loop (fuel : nat) (n : Z) (tm : t) (i j : Z)
  : result (Z * t) :=
  match fuel with
  | O => Err OutOfFuel
  | S fuel' =>
    if j <? n then
      (* if (j + 1 < n && heap_[j + 1] < heap_[j]) j++; *)
      j' ← (if size_t (j + 1) <? n then
               a ← at_ (heap_ tm) (size_t (j + 1));
               b ← at_ (heap_ tm) j;
               Ok (if node_lt a b then size_t (j + 1) else j)
             else Ok j);
      hi ← at_ (heap_ tm) i;
      hj ← at_ (heap_ tm) j';
      if node_lt hi hj then Ok (i, tm)
      else
        tm' ← SwapNode_ tm i j';
        siftdown_loop fuel' n tm' j' (size_t (j' * 2 + 1))
    else Ok (i, tm)
  end.

(** [siftdown_(index, n)]: the result is [i > index]. *)
Definition siftdown_ (tm : t) (index n : Z) : result (bool * t) :=
  _ ← cassert (in_range tm index);
  _ ← cassert ((0 <=? n) && (n <=? heap_size tm));
  '(i, tm') ← siftdown_loop (S (length (heap_ tm))) n tm index
                 (size_t (index * 2 + 1));
  Ok (index <? i, tm').

(** [add(id, timeout, cb)], with [now] the reading of [Clock::now()]. *)
Definition add (now : TimeStamp) (tm : t) (tid timeout : Z)
    (f : TimeoutCallBack) : result t :=
  _ ← cassert (0 <=? tid);
  match ref_ tm !! tid with
  | None =>
    let i := heap_size tm in
    let tm1 := mkTimer (heap_ tm ++ [mkNode tid (now + MS timeout) f])
                       (<[tid := i]> (ref_ tm)) in
    siftup_ tm1 i
  | Some i =>
    old ← at_ (heap_ tm) i;
    let tm1 := mkTimer (<[Z.to_nat i := mkNode (id old) (now + MS timeout) f]>
                          (heap_ tm)) (ref_ tm) in
    '(moved, tm2) ← siftdown_ tm1 i (heap_size tm1);
    if moved : bool then Ok tm2 else siftup_ tm2 i
  end.

(** [del_(index)] *)
Definition del_ (tm : t) (index : Z) : result t :=
  _ ← cassert (negb (heap_size tm =? 0) && in_range tm index);
  let i := index in
  let n := size_t (heap_size tm - 1) in
  _ ← cassert (i <=? n);
  tm1 ← (if i <? n then
            tm' ← SwapNode_ tm i n;
            '(moved, tm'') ← siftdown_ tm' i n;
            if moved : bool then Ok tm'' else siftup_ tm'' i
          else Ok tm);
  (* ref_.erase(heap_.back().id); heap_.pop_back(); *)
  match last (heap_ tm1) with
  | Some b => Ok (mkTimer (removelast (heap_ tm1)) (delete (id b) (ref_ tm1)))
  | None => Err OutOfBounds
  end.

(** [doWork(id)]: returns the callbacks that were run. *)
Definition doWork (tm : t) (tid : Z) : result (t * list TimeoutCallBack) :=
  match heap_ tm, ref_ tm !! tid with
  | [], _ | _, None => Ok (tm, [])
  | _ :: _, Some i =>
    node ← at_ (heap_ tm) i;
    tm' ← del_ tm i;
    Ok (tm', [cb node])
  end.

(** [pop()] *)
Definition pop (tm : t) : result t :=
  _ ← cassert (negb (heap_size tm =? 0));
  del_ tm 0.

(** The loop of [tick]: [clk k] is the [k]-th reading of [Clock::now()]
    made by the running call. *)
Fixpoint tick_loop (fuel : nat) (clk : nat -> TimeStamp) (k : nat) (tm : t)
    (fired : list TimeoutCallBack)
  : result (t * list TimeoutCallBack * nat) :=
  match fuel with
  | O => Err OutOfFuel
  | S fuel' =>
    match heap_ tm with
    | [] => Ok (tm, fired, k)
    | node :: _ =>
      if 0 <? duration_cast_MS (expires node - clk k)
      then Ok (tm, fired, S k)
      else
        tm' ← pop tm;
        tick_loop fuel' clk (S k) tm' (fired ++ [cb node])
    end
  end.

(** [tick()] *)
Definition tick (clk : nat -> TimeStamp) (tm : t)
  : result (t * list TimeoutCallBack * nat) :=
  tick_loop (S (length (heap_ tm))) clk 0%nat tm [].

(** [clear()] *)
Definition clear (tm : t) : t := mkTimer [] ∅.

(** [GetNextTick()]: [res] is a [size_t], the returned value an [int]. *)
Definition GetNextTick (clk : nat -> TimeStamp) (tm : t)
  : result (Z * t * list TimeoutCallBack) :=
  '(tm', fired, k) ← tick clk tm;
  let res := size_t (-1) in
  let res :=
    match heap_ tm' with
    | [] => res
    | front :: _ =>
      let res := size_t (duration_cast_MS (expires front - clk k)) in
      if res <? 0 then 0 else res
    end in
  Ok (to_int res, tm', fired).

(** [adjust(id, timeout)] *)
Definition adjust (now : TimeStamp) (tm : t) (tid timeout : Z) : result t :=
  _ ← cassert (negb (heap_size tm =? 0) && bool_decide (is_Some (ref_ tm !! tid)));
  match ref_ tm !! tid with
  | None => Err AssertFailed
  | Some i =>
    old ← at_ (heap_ tm) i;
    let tm1 := mkTimer (<[Z.to_nat i := mkNode (id old) (now + MS timeout) (cb old)]>
                          (heap_ tm)) (ref_ tm) in
    '(_, tm2) ← siftdown_ tm1 i (heap_size tm1);
    Ok tm2
  end.

(** *** The structural invariant *)

(** [expires] of the node at index [k] (0 outside the vector). *)
Definition exp_at (h : list TimerNode) (k : Z) : Z :=
  match h !! Z.to_nat k with
  | Some x => expires x
  | None => 0
  end.

(** Binary min-heap on [expires], children against their parent. *)
Definition min_heap (h : list TimerNode) : Prop :=
  forall i : Z, 0 <= i ->
    (2 * i + 1 < Z.of_nat (length h) -> exp_at h i <= exp_at h (2 * i + 1)) /\
    (2 * i + 2 < Z.of_nat (length h) -> exp_at h i <= exp_at h (2 * i + 2)).

(** [ref_[heap_[k].id] == k] for every valid index [k]. *)
Definition ref_ok (tm : t) : Prop :=
  forall (k : nat) (node : TimerNode),
    heap_ tm !! k = Some node -> ref_ tm !! id node = Some (Z.of_nat k).

(** No id appears twice in the heap. *)
Definition no_dup_ids (tm : t) : Prop := NoDup (id <$> heap_ tm).

Definition timer_inv (tm : t) : Prop :=
  min_heap (heap_ tm) /\ ref_ok tm /\ no_dup_ids tm.

(** A vector that fits its maximal size, with room for one [push_back]. *)
Definition fits (tm : t) : Prop := heap_size tm < PTRDIFF_MAX.

(** The first [n] nodes are heap-ordered: every non-root node below [n]
    is at least its parent. *)
Definition ordered_upto (n : Z) (h : list TimerNode) : Prop :=
  forall k : Z, 0 < k < n -> exp_at h ((k - 1) / 2) <= exp_at h k.

(** Heap order among the first [n] nodes once node [i] is taken out:
    every other edge is in order, and the children of [i] are at least
    the parent of [i]. *)
Definition hole_ok (n : Z) (h : list TimerNode) (i : Z) : Prop :=
  (forall k : Z, 0 < k < n -> k <> i -> (k - 1) / 2 <> i ->
     exp_at h ((k - 1) / 2) <= exp_at h k) /\
  (forall k : Z, 0 < k < n -> (k - 1) / 2 = i -> 0 < i ->
     exp_at h ((i - 1) / 2) <= exp_at h k).

(** Node [i] is at least its parent. *)
Definition parent_ok (h : list TimerNode) (i : Z) : Prop :=
  0 < i -> exp_at h ((i - 1) / 2) <= exp_at h i.

(** Node [i] is at most its children below [n]. *)
Definition children_ok (n : Z) (h : list TimerNode) (i : Z) : Prop :=
  forall k : Z, 0 < k < n -> (k - 1) / 2 = i -> exp_at h i <= exp_at h k.

(** Node [i] is strictly below its children under [n]. *)
Definition children_lt (n : Z) (h : list TimerNode) (i : Z) : Prop :=
  forall k : Z, 0 < k < n -> (k - 1) / 2 = i -> exp_at h i < exp_at h k.

(** The public operations, as one request type. *)
Inductive op : Type :=
| OpAdd (tid timeout : Z) (f : TimeoutCallBack)
| OpAdjust (tid timeout : Z)
| OpDoWork (tid : Z)
| OpPop
| OpTick.

(** Running a request; [clk 0] is the clock reading of [add] and
    [adjust], [clk] the readings of [tick]. *)
Definition run_op (clk : nat -> TimeStamp) (o : op) (tm : t) : result t :=
  match o with
  | OpAdd tid timeout f => add (clk 0%nat) tm tid timeout f
  | OpAdjust tid timeout => adjust (clk 0%nat) tm tid timeout
  | OpDoWork tid => '(tm', _) ← doWork tm tid; Ok tm'
  | OpPop => pop tm
  | OpTick => '(tm', _, _) ← tick clk tm; Ok tm'
  end.

(** What a request needs: the [assert]s of the operation and, for
    [adjust], a deadline that does not go below the deadline of the
    parent of the node (as when a deadline is only ever moved later). *)
Definition op_pre (clk : nat -> TimeStamp) (o : op) (tm : t) : Prop :=
  match o with
  | OpAdd tid _ _ => 0 <= tid
  | OpAdjust tid timeout =>
    heap_ tm <> [] /\ is_Some (ref_ tm !! tid) /\
    forall i : Z, ref_ tm !! tid = Some i -> 0 < i ->
      exp_at (heap_ tm) ((i - 1) / 2) <= clk 0%nat + MS timeout
  | OpDoWork _ => True
  | OpPop => heap_ tm <> []
  | OpTick => True
  end.

(** Every key of [ref_] is the id of the node at the index it maps to:
    [ref_] holds no entry for an id that is not in the heap. *)
Definition ref_exact (tm : t) : Prop :=
  forall (tid i : Z), ref_ tm !! tid = Some i ->
    0 <= i /\ exists node, heap_ tm !! Z.to_nat i = Some node /\ id node = tid.

End WithCallBack.

Arguments TimerNode : clear implicits.
Arguments t : clear implicits.
Arguments op : clear implicits.

(** Three pending timers, due at 60 s, 61 s and 62 s. *)
Definition three_timers : t unit :=
  mkTimer [mkNode 1 60000000000 tt; mkNode 2 61000000000 tt;
           mkNode 3 62000000000 tt]
          (<[3 := 2]> (<[2 := 1]> {[1 := 0]})).

End HeapTimer.

(* ---------------------------------------------------------------------- *)
(** ** Buffer (buffer.cpp) *)
(* ---------------------------------------------------------------------- *)

Module Buffer.

Record t : Type := mkBuffer {
  buffer_ : list Byte.byte;
  readPos_ : Z;
  writePos_ : Z
}.

Definition buffer_size (b : t) : Z := Z.of_nat (length (buffer_ b)).

Definition ReadableBytes (b : t) : Z := size_t (writePos_ b - readPos_ b).

Definition WritableBytes (b : t) : Z := size_t (buffer_size b - writePos_ b).

Definition PrependableBytes (b : t) : Z := readPos_ b.

(** The bytes of [[Peek(), Peek() + ReadableBytes())]. *)
Definition readable (b : t) : list Byte.byte :=
  take (Z.to_nat (ReadableBytes b)) (drop (Z.to_nat (readPos_ b)) (buffer_ b)).

(** [std::copy(src, src + len, dst)] into the vector's storage at
    offset [pos]. *)
Definition copy_at (buf : list Byte.byte) (pos : Z) (src : list Byte.byte)
  : list Byte.byte :=
  take (Z.to_nat pos) buf ++ src ++ drop (Z.to_nat pos + length src) buf.

(** [buffer_.resize(n)]: truncates, or pads with zero bytes. *)
Definition resize (buf : list Byte.byte) (n : Z) : list Byte.byte :=
  take (Z.to_nat n) buf ++ replicate (Z.to_nat n - length buf) Byte.x00.

Definition HasWritten (b : t) (len : Z) : t :=
  mkBuffer (buffer_ b) (readPos_ b) (size_t (writePos_ b + len)).

(** [MakeSpace_(len)] *)
Definition MakeSpace_ (b : t) (len : Z) : result t :=
  if size_t (WritableBytes b + PrependableBytes b) <? len then
    Ok (mkBuffer (resize (buffer_ b) (size_t (writePos_ b + len + 1)))
                 (readPos_ b) (writePos_ b))
  else
    let readable_ := ReadableBytes b in
    let moved := take (Z.to_nat (writePos_ b - readPos_ b))
                      (drop (Z.to_nat (readPos_ b)) (buffer_ b)) in
    let b' := mkBuffer (copy_at (buffer_ b) 0 moved) 0 (size_t (0 + readable_)) in
    _ ← cassert (readable_ =? ReadableBytes b');
    Ok b'.

(** [EnsureWriteable(len)] *)
Definition EnsureWriteable (b : t) (len : Z) : result t :=
  b' ← (if WritableBytes b <? len then MakeSpace_ b len else Ok b);
  _ ← cassert (len <=? WritableBytes b');
  Ok b'.

(** [Append(const char *str, size_t len)]: [str] holds at least [len]
    bytes. *)
Definition Append (b : t) (str : list Byte.byte) (len : Z) : result t :=
  b' ← EnsureWriteable b len;
  let src := take (Z.to_nat len) str in
  Ok (HasWritten (mkBuffer (copy_at (buffer_ b') (writePos_ b') src)
                           (readPos_ b') (writePos_ b')) len).

(** What [readv(fd, iov, 2)] did: it failed with an error code, or it
    delivered [data], filling [iov[0]] first and then [iov[1]]. *)
Inductive readv_result : Type :=
| ReadvError (errno : Z)
| ReadvData (data : list Byte.byte).

(** The part of [data] stored through [iov[0]] and the part stored
    through [iov[1]], for segments of [len0] and [len1] bytes. *)
Definition scatter (len0 len1 : Z) (data : list Byte.byte)
  : list Byte.byte * list Byte.byte :=
  (take (Z.to_nat len0) data,
   take (Z.to_nat len1) (drop (Z.to_nat len0) data)).

(** [sizeof(buff)] in [ReadFd]. *)
Definition STAGE_SIZE : Z := 65535.

(** [ReadFd(fd, saveErrno)]: returns [(len, *saveErrno, buffer)]. *)
Definition ReadFd (b : t) (saveErrno : Z) (r : readv_result)
  : result (Z * Z * t) :=
  let writable := WritableBytes b in
  match r with
  | ReadvError errno => Ok (-1, errno, b)
  | ReadvData data =>
    let '(seg0, buff) := scatter writable STAGE_SIZE data in
    let len := Z.of_nat (length seg0 + length buff) in
    (* the kernel has stored [seg0] at [BeginPtr_() + writePos_] *)
    let b0 := mkBuffer (copy_at (buffer_ b) (writePos_ b) seg0)
                       (readPos_ b) (writePos_ b) in
    if size_t len <=? writable then
      Ok (len, saveErrno, mkBuffer (buffer_ b0) (readPos_ b0)
                                   (size_t (writePos_ b0 + len)))
    else
      let b1 := mkBuffer (buffer_ b0) (readPos_ b0) (buffer_size b0) in
      b2 ← Append b1 buff (size_t (len - writable));
      Ok (len, saveErrno, b2)
  end.

(** [0 <= readPos_ <= writePos_ <= buffer_.size()], for a vector within
    its maximal size. *)
Definition wf (b : t) : Prop :=
  0 <= readPos_ b <= writePos_ b /\
  writePos_ b <= buffer_size b /\
  buffer_size b <= PTRDIFF_MAX.

(** Room for [len] more bytes, positions in order. *)
Definition roomy (b : t) (len : Z) : Prop :=
  0 <= readPos_ b <= writePos_ b /\
  writePos_ b + len <= buffer_size b /\
  buffer_size b < 2 ^ 64.

(** [Retrieve(len)] *)
Definition Retrieve (b : t) (len : Z) : result t :=
  _ ← cassert (len <=? ReadableBytes b);
  Ok (mkBuffer (buffer_ b) (size_t (readPos_ b + len)) (writePos_ b)).

(** [RetrieveUntil(end)]; the pointer [end] is given as its offset from
    [BeginPtr_()], so that [Peek()] is the offset [readPos_]. *)
Definition RetrieveUntil (b : t) (end_ : Z) : result t :=
  _ ← cassert (readPos_ b <=? end_);
  Retrieve b (size_t (end_ - readPos_ b)).

(** [RetrieveAll()]: [bzero] over the whole vector, both cursors to 0. *)
Definition RetrieveAll (b : t) : t :=
  mkBuffer (replicate (length (buffer_ b)) Byte.x00) 0 0.

(** [RetrieveAllToStr()] *)
Definition RetrieveAllToStr (b : t) : list Byte.byte * t :=
  (readable b, RetrieveAll b).



(** What [write(fd, Peek(), readSize)] did: it failed with an error
    code, or it took the first [n] readable bytes. *)
Inductive write_result : Type :=
| WriteError (errno : Z)
| Written (n : Z).

(** [WriteFd(fd, saveErrno)]: returns [(len, *saveErrno, buffer)]. *)
Definition WriteFd (b : t) (saveErrno : Z) (r : write_result) : Z * Z * t :=
  match r with
  | WriteError errno => (-1, errno, b)
  | Written n =>
    (n, saveErrno, mkBuffer (buffer_ b) (size_t (readPos_ b + n)) (writePos_ b))
  end.

(** A buffer in the middle of its life: 3 readable bytes, 2 bytes
    consumed in front of them, 1 byte of tail. *)
Definition sample : t :=
  mkBuffer [Byte.x61; Byte.x62; Byte.x63; Byte.x64; Byte.x65; Byte.x00] 2 5.

End Buffer.

(* ---------------------------------------------------------------------- *)
(** ** Log (log.cpp): the level prefix *)
(* ---------------------------------------------------------------------- *)

Module Log.

(** The prefix that [AppendLogLevelTitle_] chooses for a level. *)
Definition level_title (level : Z) : string :=
  if level =? 0 then "[debug]: "
  else if level =? 1 then "[info] : "
  else if level =? 2 then "[warn] : "
  else if level =? 3 then "[error]: "
  else "[info] : ".

(** [AppendLogLevelTitle_(level)] on the logger's [buff_]: every branch
    is [buff_.Append(title, 9)]. *)
Definition AppendLogLevelTitle_ (buff_ : Buffer.t) (level : Z)
  : result Buffer.t :=
  Buffer.Append buff_ (String.list_byte_of_string (level_title level)) 9.

End Log.

(* ---------------------------------------------------------------------- *)
(** ** BlockDeque (blockqueue.h) *)
(* ---------------------------------------------------------------------- *)

Module BlockDeque.

Section WithItem.

Context {T : Type}.

Record t : Type := mkDeque {
  deq_ : list T;
  capacity_ : Z;
  isClose_ : bool
}.

(** [Close()]: the deque is cleared and closed under the mutex; both
    condition variables are then notified. *)
Definition Close (q : t) : t := mkDeque [] (capacity_ q) true.

(** Where a thread executing [pop(item)] stands: about to evaluate the
    loop test [deq_.empty()] with the mutex held, blocked inside
    [condConsumer_.wait(locker)], or returned. *)
Inductive pop_pc : Type :=
| AtLoopTest
| InWait
| Returned (ret : bool) (item : option T).

(** One step of [pop(item)].  [woken] tells whether the condition
    variable has been notified (or the wait ended spuriously) since the
    thread started to wait; a waiting thread does not move otherwise. *)
Definition pop_step (woken : bool) (q : t) (pc : pop_pc) : t * pop_pc :=
  match pc with
  | AtLoopTest =>
    match deq_ q with
    | [] => (q, InWait)
    | front :: rest =>
      (mkDeque rest (capacity_ q) (isClose_ q), Returned true (Some front))
    end
  | InWait =>
    if woken then
      if isClose_ q then (q, Returned false None) else (q, AtLoopTest)
    else (q, InWait)
  | Returned ret item => (q, pc)
  end.

(** [n] steps during which nobody touches the deque; [wakes k] is the
    [woken] input of step [k]. *)
Fixpoint pop_run (n : nat) (wakes : nat -> bool) (q : t) (pc : pop_pc)
  : t * pop_pc :=
  match n with
  | O => (q, pc)
  | S n' =>
    let '(q', pc') := pop_step (wakes 0%nat) q pc in
    pop_run n' (fun k => wakes (S k)) q' pc'
  end.

Definition never_woken : nat -> bool := fun _ => false.

(** [clear()] *)
Definition clear (q : t) : t := mkDeque [] (capacity_ q) (isClose_ q).

(** [size()], [empty()], [full()] *)
Definition size (q : t) : Z := Z.of_nat (length (deq_ q)).

Definition empty (q : t) : bool := size q =? 0.

Definition full (q : t) : bool := capacity_ q <=? size q.

(** Where a thread executing [push_back(item)] or [push_front(item)]
    stands: about to evaluate [deq_.size() >= capacity_] with the mutex
    held, blocked inside [condProducer_.wait(locker)], or returned. *)
Inductive push_pc : Type :=
| PushAtLoopTest
| PushInWait
| Pushed.

(** One step of [push_back(item)] ([at_front = false]) or
    [push_front(item)] ([at_front = true]). *)
Definition push_step (at_front : bool) (item : T) (woken : bool) (q : t)
    (pc : push_pc) : t * push_pc :=
  match pc with
  | PushAtLoopTest =>
    if capacity_ q <=? size q then (q, PushInWait)
    else
      (mkDeque (if at_front then item :: deq_ q else deq_ q ++ [item])
               (capacity_ q) (isClose_ q),
       Pushed)
  | PushInWait => if woken then (q, PushAtLoopTest) else (q, PushInWait)
  | Pushed => (q, Pushed)
  end.

(** What a waiting [pop(item, timeout)] is told when it leaves
    [condConsumer_.wait_for]. *)
Inductive wait_event : Type :=
| StillWaiting
| Notified
| TimedOut.

(** One step of [pop(item, timeout)]. *)
Definition pop_timed_step (ev : wait_event) (q : t) (pc : pop_pc)
  : t * pop_pc :=
  match pc with
  | AtLoopTest =>
    match deq_ q with
    | [] => (q, InWait)
    | front :: rest =>
      (mkDeque rest (capacity_ q) (isClose_ q), Returned true (Some front))
    end
  | InWait =>
    match ev with
    | StillWaiting => (q, InWait)
    | TimedOut => (q, Returned false None)
    | Notified =>
      if isClose_ q then (q, Returned false None) else (q, AtLoopTest)
    end
  | Returned ret item => (q, pc)
  end.

(** A call of [push_back] that finds room: it returns without
    waiting.  [None] stands for a call that has to wait. *)
Definition push_back_now (q : t) (item : T) : option t :=
  match push_step false item false q PushAtLoopTest with
  | (q', Pushed) => Some q'
  | _ => None
  end.

(** A call of [pop] that finds an item: it returns it without waiting. *)
Definition pop_now (q : t) : option (T * t) :=
  match pop_step false q AtLoopTest with
  | (q', Returned true (Some item)) => Some (item, q')
  | _ => None
  end.

(** [push_back] of each item of a list, one call after the other. *)
Fixpoint push_all (q : t) (items : list T) : option t :=
  match items with
  | [] => Some q
  | item :: rest =>
    match push_back_now q item with
    | Some q' => push_all q' rest
    | None => None
    end
  end.

(** [n] calls of [pop], one after the other; the items in the order
    they were returned. *)
Fixpoint pop_n (n : nat) (q : t) : option (list T * t) :=
  match n with
  | O => Some ([], q)
  | S n' =>
    match pop_now q with
    | Some (item, q') =>
      match pop_n n' q' with
      | Some (items, q'') => Some (item :: items, q'')
      | None => None
      end
    | None => None
    end
  end.

End WithItem.

Arguments t : clear implicits.
Arguments pop_pc : clear implicits.

End BlockDeque.

(* ---------------------------------------------------------------------- *)
(** ** SqlConnPool (sqlconnpool.cpp) *)
(* ---------------------------------------------------------------------- *)

Module SqlConnPool.

(** [MYSQL *]: an address, [nullptr] being 0. *)
Definition MYSQL_ptr : Type := Z.

Definition nullptr : MYSQL_ptr := 0.

Record t : Type := mkPool {
  MAX_CONN_ : Z;
  connQue_ : list MYSQL_ptr;
  semId_ : Z
}.

(** What a call of [GetConn()] does when no other thread runs meanwhile:
    it returns a pointer, or it is suspended in [sem_wait]. *)
Inductive GetConn_outcome : Type :=
| Returns (sql : MYSQL_ptr) (p' : t)
| BlocksInSemWait.

(** [GetConn()] *)
Definition GetConn (p : t) : GetConn_outcome :=
  match connQue_ p with
  | [] => Returns nullptr p
  | front :: rest =>
    if 0 <? semId_ p
    then Returns front (mkPool (MAX_CONN_ p) rest (semId_ p - 1))
    else BlocksInSemWait
  end.

(** [FreeConn(sql)] *)
Definition FreeConn (p : t) (sql : MYSQL_ptr) : result t :=
  _ ← cassert (negb (sql =? nullptr));
  Ok (mkPool (MAX_CONN_ p) (connQue_ p ++ [sql]) (semId_ p + 1)).

(** All [MAX_CONN_] handles are borrowed: none is queued and no permit
    is left. *)
Definition all_in_use (p : t) : Prop :=
  0 < MAX_CONN_ p /\ connQue_ p = [] /\ semId_ p = 0.

(** A pool of two handles, both borrowed. *)
Definition exhausted_pool : t := mkPool 2 [] 0.

(** One iteration of the loop of [Init]: [mysql_init] fails (the
    [assert(sql)] then stops the program), or [mysql_real_connect]
    returns a handle, [nullptr] when the connection failed. *)
Inductive connect_outcome : Type :=
| InitFails
| Connects (sql : MYSQL_ptr).

Fixpoint Init_loop (outcomes : list connect_outcome) (que : list MYSQL_ptr)
  : result (list MYSQL_ptr) :=
  match outcomes with
  | [] => Ok que
  | InitFails :: _ => Err AssertFailed
  | Connects sql :: rest => Init_loop rest (que ++ [sql])
  end.

(** [Init(host, port, user, pwd, dbName, connSize)]; [outcomes] gives
    what the library calls of iterations [0 .. connSize - 1] do. *)
Definition Init (p : t) (connSize : Z) (outcomes : list connect_outcome)
  : result t :=
  _ ← cassert (0 <? connSize);
  que ← Init_loop (take (Z.to_nat connSize) outcomes) (connQue_ p);
  Ok (mkPool connSize que connSize).

(** [ClosePool()]: returns the handles passed to [mysql_close], in
    order. *)
Definition ClosePool (p : t) : t * list MYSQL_ptr :=
  (mkPool (MAX_CONN_ p) [] (semId_ p), connQue_ p).

(** [GetFreeConnCount()] *)
Definition GetFreeConnCount (p : t) : Z := Z.of_nat (length (connQue_ p)).

(** The pool right after the constructor. *)
Definition fresh : t := mkPool 0 [] 0.

(** The semaphore holds one permit per queued handle. *)
Definition balanced (p : t) : Prop := semId_ p = GetFreeConnCount p.

End SqlConnPool.

(* ---------------------------------------------------------------------- *)
(** ** ThreadPool (threadpool.h) *)
(* ---------------------------------------------------------------------- *)

Module ThreadPool.

Section WithTask.

(** [std::function<void()>] *)
Context {Task : Type}.

(** [struct Pool]; the mutex and the condition variable are represented
    by the atomicity of the steps below. *)
Record Pool : Type := mkPool {
  isClosed : bool;
  tasks : list Task
}.

(** Where a worker thread stands in its lambda. *)
Inductive worker : Type :=
| AtLoopHead            (* holds [pool->mtx], about to test the queue *)
| RunningTask (task : Task)   (* mutex released, inside [task()] *)
| InCondWait            (* inside [pool->cond.wait(locker)] *)
| Exited.               (* left the loop through [break] *)

(** One step of a worker. *)
Definition worker_step (p : Pool) (w : worker) : Pool * worker :=
  match w with
  | AtLoopHead =>
    match tasks p with
    | task :: rest => (mkPool (isClosed p) rest, RunningTask task)
    | [] => if isClosed p then (p, Exited) else (p, InCondWait)
    end
  | RunningTask _ => (p, AtLoopHead)
  | InCondWait => (p, AtLoopHead)
  | Exited => (p, Exited)
  end.

(** [AddTask(task)] *)
Definition AddTask (p : Pool) (task : Task) : Pool :=
  mkPool (isClosed p) (tasks p ++ [task]).

(** [~ThreadPool()] *)
Definition destroy (p : Pool) : Pool := mkPool true (tasks p).

(** The pool and its worker threads. *)
Record system : Type := mkSystem {
  pool_ : Pool;
  workers : list worker
}.

(** Interleavings: a worker moves, a task is submitted, or the pool is
    destroyed. *)
Inductive step : system -> system -> Prop :=
| step_worker (s : system) (i : nat) (w w' : worker) (p' : Pool) :
    workers s !! i = Some w ->
    worker_step (pool_ s) w = (p', w') ->
    step s (mkSystem p' (<[i := w']> (workers s)))
| step_add (s : system) (task : Task) :
    step s (mkSystem (AddTask (pool_ s) task) (workers s))
| step_destroy (s : system) :
    step s (mkSystem (destroy (pool_ s)) (workers s)).

Inductive steps : system -> system -> Prop :=
| steps_refl (s : system) : steps s s
| steps_more (s1 s2 s3 : system) : steps s1 s2 -> step s2 s3 -> steps s1 s3.

(** The state right after the constructor: [threadCount] workers at the
    loop head, an open pool. *)
Definition initial (threadCount : nat) (queued : list Task) : system :=
  mkSystem (mkPool false queued) (replicate threadCount AtLoopHead).

(** A worker running alone for [n] steps; [ran] collects the tasks
    whose call [task()] has returned, in order. *)
Fixpoint worker_run (n : nat) (p : Pool) (w : worker) (ran : list Task)
  : Pool * worker * list Task :=
  match n with
  | O => (p, w, ran)
  | S n' =>
    let '(p', w') := worker_step p w in
    let ran' := match w with
                | RunningTask task => ran ++ [task]
                | _ => ran
                end in
    worker_run n' p' w' ran'
  end.

End WithTask.

Arguments Pool : clear implicits.
Arguments worker : clear implicits.
Arguments system : clear implicits.

End ThreadPool.

(* ---------------------------------------------------------------------- *)
(** ** Epoller (epoller.cpp) *)
(* ---------------------------------------------------------------------- *)

Module Epoller.

(** The operations of [epoll_ctl(2)]. *)
Inductive ctl_op : Type :=
| EPOLL_CTL_ADD
| EPOLL_CTL_MOD
| EPOLL_CTL_DEL.

(** A recorded system call [epoll_ctl(epfd, op, fd, &ev)], with
    [ev.events]. *)
Record ctl_call : Type := mkCall {
  call_epfd : Z;
  call_op : ctl_op;
  call_fd : Z;
  call_events : Z
}.

(** The epoll instance as the kernel keeps it: the registered
    descriptors with their event masks. *)
Definition interest_list : Type := gmap Z Z.

(** The kernel side of [epoll_ctl]: 0 on success, -1 on failure
    ([EEXIST] for a second ADD, [ENOENT] for MOD or DEL of a descriptor
    that is not registered). *)
Definition epoll_ctl (regs : interest_list) (o : ctl_op) (fd events : Z)
  : Z * interest_list :=
  match o, regs !! fd with
  | EPOLL_CTL_ADD, None => (0, <[fd := events]> regs)
  | EPOLL_CTL_ADD, Some _ => (-1, regs)
  | EPOLL_CTL_MOD, Some _ => (0, <[fd := events]> regs)
  | EPOLL_CTL_MOD, None => (-1, regs)
  | EPOLL_CTL_DEL, Some _ => (0, delete fd regs)
  | EPOLL_CTL_DEL, None => (-1, regs)
  end.

(** The wrapper object together with the kernel state behind [epollFd_]
    and the log of the control calls issued so far. *)
Record t : Type := mkEpoller {
  epollFd_ : Z;
  registered : interest_list;
  ctl_calls : list ctl_call
}.

Definition do_ctl (e : t) (o : ctl_op) (fd events : Z) : bool * t :=
  let '(ret, regs') := epoll_ctl (registered e) o fd events in
  (0 =? ret,
   mkEpoller (epollFd_ e) regs'
             (ctl_calls e ++ [mkCall (epollFd_ e) o fd events])).

(** [AddFd(fd, events)] *)
Definition AddFd (e : t) (fd events : Z) : bool * t :=
  if fd <? 0 then (false, e)
  else do_ctl e EPOLL_CTL_ADD fd events.

(** [ModFd(fd, events)] *)
Definition ModFd (e : t) (fd events : Z) : bool * t :=
  if fd <? 0 then (false, e)
  else do_ctl e EPOLL_CTL_MOD fd events.

(** [DelFd(fd)]: the event passed to the kernel is zeroed. *)
Definition DelFd (e : t) (fd : Z) : bool * t :=
  if fd <? 0 then (false, e)
  else do_ctl e EPOLL_CTL_DEL fd 0.

End Epoller.

(* ---------------------------------------------------------------------- *)
(** ** WebServer (webserver.cpp): the accept path *)
(* ---------------------------------------------------------------------- *)

Module WebServer.

(** Event bits of [<sys/epoll.h>]. *)
Definition EPOLLIN : Z := 1.
Definition EPOLLOUT : Z := 4.
Definition EPOLLRDHUP : Z := 8192.
Definition EPOLLONESHOT : Z := 2 ^ 30.
Definition EPOLLET : Z := 2 ^ 31.

(** [struct sockaddr_in], kept as the peer's address and port. *)
Record sockaddr_in : Type := mkAddr {
  sin_addr : Z;
  sin_port : Z
}.

(** The fields of [HttpConn] that the accept path sets. *)
Record HttpConn : Type := mkConn {
  fd_ : Z;
  addr_ : sockaddr_in;
  isClose_ : bool
}.

(** Calls that leave the [WebServer] object, in program order: system
    calls on a descriptor, calls on the timer and on the epoller, and
    log lines. *)
Inductive effect : Type :=
| Send (fd : Z) (body : string)
| CloseFd (fd : Z)
| TimerAdd (fd timeout : Z)
| EpollAddFd (fd events : Z)
| SetNonblock (fd : Z)
| LogInfo (msg : string)
| LogWarn (msg : string).

Record t : Type := mkServer {
  timeoutMS_ : Z;
  listenEvent_ : Z;
  connEvent_ : Z;
  users_ : gmap Z HttpConn;
  userCount : Z;          (* [HttpConn::userCount], a process-wide counter *)
  effects : list effect
}.

Definition emit (s : t) (es : list effect) : t :=
  mkServer (timeoutMS_ s) (listenEvent_ s) (connEvent_ s) (users_ s)
           (userCount s) (effects s ++ es).

Section WithMaxFd.

(** [static const int MAX_FD] of webserver.h. *)
Variable MAX_FD : Z.

(** [InitEventMode_(trigMode)] *)
Definition InitEventMode_ (s : t) (trigMode : Z) : t :=
  let listenEvent := EPOLLRDHUP in
  let connEvent := Z.lor EPOLLONESHOT EPOLLRDHUP in
  let '(listenEvent, connEvent) :=
    if trigMode =? 0 then (listenEvent, connEvent)
    else if trigMode =? 1 then (listenEvent, Z.lor connEvent EPOLLET)
    else if trigMode =? 2 then (Z.lor listenEvent EPOLLET, connEvent)
    else (Z.lor listenEvent EPOLLET, Z.lor connEvent EPOLLET) in
  mkServer (timeoutMS_ s) listenEvent connEvent (users_ s) (userCount s)
           (effects s).

(** Modelled from the spec: [HttpConn::init] (code/http/httpconn.cpp is
    not among the sources).  Constructing a connection records the
    descriptor and the peer address, marks the connection open and
    increments [userCount]. *)
Definition HttpConn_init (s : t) (fd : Z) (addr : sockaddr_in) : t :=
  mkServer (timeoutMS_ s) (listenEvent_ s) (connEvent_ s)
           (<[fd := mkConn fd addr false]> (users_ s))
           (userCount s + 1) (effects s).

(** [SendError_(fd, info)]; [ret] is what [send] returned. *)
Definition SendError_ (s : t) (fd : Z) (info : string) (ret : Z) : result t :=
  _ ← cassert (0 <? fd);
  let s1 := emit s [Send fd info] in
  let s2 := if ret <? 0 then emit s1 [LogWarn "send error to client[%d] error!"]
            else s1 in
  Ok (emit s2 [CloseFd fd]).

(** [AddClient_(fd, addr)] *)
Definition AddClient_ (s : t) (fd : Z) (addr : sockaddr_in) : result t :=
  _ ← cassert (0 <? fd);
  let s1 := HttpConn_init s fd addr in
  let s2 := if 0 <? timeoutMS_ s1 then emit s1 [TimerAdd fd (timeoutMS_ s1)]
            else s1 in
  Ok (emit s2 [EpollAddFd fd (Z.lor EPOLLIN (connEvent_ s2));
               SetNonblock fd; LogInfo "Client[%d] in!"]).

(** [DealListen_()].  [accepts] lists what the successive calls of
    [accept] return (descriptor and peer address); once the list is
    used up [accept] returns -1.  [send_ret] is the result of the
    [send] in [SendError_]. *)
Fixpoint DealListen_ (accepts : list (Z * sockaddr_in)) (send_ret : Z)
    (s : t) : result t :=
  match accepts with
  | [] => Ok s
  | (fd, addr) :: rest =>
    if fd <=? 0 then Ok s
    else if MAX_FD <=? userCount s then
      s' ← SendError_ s fd "Server busy!" send_ret;
      Ok (emit s' [LogWarn "Clients is full!"])
    else
      s' ← AddClient_ s fd addr;
      if negb (Z.land (listenEvent_ s') EPOLLET =? 0)
      then DealListen_ rest send_ret s'
      else Ok s'
  end.

(** The connection for [fd] is installed in [users_]. *)
Definition installed (s : t) (fd : Z) (addr : sockaddr_in) : Prop :=
  users_ s !! fd = Some (mkConn fd addr false).

End WithMaxFd.

End WebServer.

(* ---------------------------------------------------------------------- *)
(** ** WebServer (webserver.cpp): the events of a connection, the socket *)
(* ---------------------------------------------------------------------- *)

Module WebServerEvents.

(** [EAGAIN] of [<errno.h>] on Linux. *)
Definition EAGAIN : Z := 11.

(** What the methods of a client's [HttpConn] answer while one handler
    runs.  code/http/httpconn.cpp is not among the sources: the answers
    are inputs, nothing is assumed about them. *)
Record client : Type := mkClient {
  GetFd : Z;
  read_ret : Z;
  readErrno : Z;
  process_ret : bool;
  write_ret : Z;
  writeErrno : Z;
  ToWriteBytes : Z;
  IsKeepAlive : bool
}.

(** What the handlers of a connection act on: the epoller, and the
    descriptors of the clients on which [Close()] was called, in
    order.  Log lines are left out. *)
Record conn_state : Type := mkConnState {
  epoller_ : Epoller.t;
  closed_ : list Z
}.

(** The task handed to the thread pool: [std::bind] of a handler and
    the client. *)
Inductive task : Type :=
| RunOnRead (c : client)
| RunOnWrite (c : client).

Section WithEvents.

(** [connEvent_] and [timeoutMS_] of the server. *)
Variable connEvent_ : Z.
Variable timeoutMS_ : Z.

(** [TimeoutCallBack] of heaptimer.h. *)
Context {TimeoutCallBack : Type}.

(** [CloseConn_(client)] *)
Definition CloseConn_ (st : conn_state) (c : client) : conn_state :=
  let '(_, e') := Epoller.DelFd (epoller_ st) (GetFd c) in
  mkConnState e' (closed_ st ++ [GetFd c]).

(** [OnProcess(client)] *)
Definition OnProcess (st : conn_state) (c : client) : conn_state :=
  let '(_, e') :=
    if process_ret c
    then Epoller.ModFd (epoller_ st) (GetFd c) (Z.lor connEvent_ WebServer.EPOLLOUT)
    else Epoller.ModFd (epoller_ st) (GetFd c) (Z.lor connEvent_ WebServer.EPOLLIN) in
  mkConnState e' (closed_ st).

(** [OnRead_(client)] *)
Definition OnRead_ (st : conn_state) (c : client) : conn_state :=
  if (read_ret c <=? 0) && negb (readErrno c =? EAGAIN)
  then CloseConn_ st c
  else OnProcess st c.

(** [OnWrite_(client)] *)
Definition OnWrite_ (st : conn_state) (c : client) : conn_state :=
  if ToWriteBytes c =? 0 then
    if IsKeepAlive c then OnProcess st c else CloseConn_ st c
  else if (write_ret c <? 0) && (writeErrno c =? EAGAIN) then
    let '(_, e') := Epoller.ModFd (epoller_ st) (GetFd c)
                                  (Z.lor connEvent_ WebServer.EPOLLOUT) in
    mkConnState e' (closed_ st)
  else CloseConn_ st c.

(** The timer and the thread pool, as [DealRead_] and [DealWrite_] use
    them. *)
Record loop_state : Type := mkLoop {
  timer_ : HeapTimer.t TimeoutCallBack;
  threadpool_ : ThreadPool.Pool task
}.

(** [ExtentTime_(client)]; [now] is the reading of the clock in
    [adjust]. *)
Definition ExtentTime_ (now : Z) (tm : HeapTimer.t TimeoutCallBack)
    (c : client) : result (HeapTimer.t TimeoutCallBack) :=
  if 0 <? timeoutMS_ then HeapTimer.adjust now tm (GetFd c) timeoutMS_
  else Ok tm.

(** [DealRead_(client)] *)
Definition DealRead_ (now : Z) (st : loop_state) (c : client)
  : result loop_state :=
  tm ← ExtentTime_ now (timer_ st) c;
  Ok (mkLoop tm (ThreadPool.AddTask (threadpool_ st) (RunOnRead c))).

(** [DealWrite_(client)] *)
Definition DealWrite_ (now : Z) (st : loop_state) (c : client)
  : result loop_state :=
  tm ← ExtentTime_ now (timer_ st) c;
  Ok (mkLoop tm (ThreadPool.AddTask (threadpool_ st) (RunOnWrite c))).

End WithEvents.

Arguments loop_state : clear implicits.
Arguments mkLoop {TimeoutCallBack}.

(** System calls of [InitSocket_], in program order; log lines are left
    out, and the two [fcntl] calls of [SetFdNonblock] are one entry. *)
Inductive syscall : Type :=
| sys_socket
| sys_setsockopt_LINGER (fd l_onoff l_linger : Z)
| sys_setsockopt_REUSEADDR (fd : Z)
| sys_bind (fd port : Z)
| sys_listen (fd backlog : Z)
| sys_close (fd : Z)
| sys_fcntl_NONBLOCK (fd : Z).

(** What the system calls of [InitSocket_] return. *)
Record socket_rets : Type := mkRets {
  socket_ret : Z;
  linger_ret : Z;
  reuseaddr_ret : Z;
  bind_ret : Z;
  listen_ret : Z
}.

(** [SetFdNonblock(fd)] *)
Definition SetFdNonblock (fd : Z) : result (list syscall) :=
  _ ← cassert (0 <? fd);
  Ok [sys_fcntl_NONBLOCK fd].

(** [InitSocket_()]: the returned flag, the epoller and the system
    calls made; [listenFd_] is [socket_ret r] once [socket] was
    called. *)
Definition InitSocket_ (port_ : Z) (openLinger_ : bool) (listenEvent_ : Z)
    (e : Epoller.t) (r : socket_rets)
  : result (bool * Epoller.t * list syscall) :=
  if (65535 <? port_) || (port_ <? 1024) then Ok (false, e, [])
  else
    let '(l_onoff, l_linger) := if openLinger_ then (1, 1) else (0, 0) in
    let listenFd_ := socket_ret r in
    let calls := [sys_socket] in
    if listenFd_ <? 0 then Ok (false, e, calls)
    else
      let calls := calls ++ [sys_setsockopt_LINGER listenFd_ l_onoff l_linger] in
      if linger_ret r <? 0 then Ok (false, e, calls ++ [sys_close listenFd_])
      else
        let calls := calls ++ [sys_setsockopt_REUSEADDR listenFd_] in
        if reuseaddr_ret r =? -1 then Ok (false, e, calls ++ [sys_close listenFd_])
        else
          let calls := calls ++ [sys_bind listenFd_ port_] in
          if bind_ret r <? 0 then Ok (false, e, calls ++ [sys_close listenFd_])
          else
            let calls := calls ++ [sys_listen listenFd_ 6] in
            if listen_ret r <? 0 then Ok (false, e, calls ++ [sys_close listenFd_])
            else
              let '(added, e') :=
                Epoller.AddFd e listenFd_ (Z.lor listenEvent_ WebServer.EPOLLIN) in
              if negb added then Ok (false, e', calls ++ [sys_close listenFd_])
              else
                nb ← SetFdNonblock listenFd_;
                Ok (true, e', calls ++ nb).

(** [s] is [close(fd)]. *)
Definition closes (fd : Z) (s : syscall) : bool :=
  match s with
  | sys_close fd' => fd' =? fd
  | _ => false
  end.

End WebServerEvents.

(* ====================================================================== *)
(** * Part II. Lemmas and theorems *)
(* ====================================================================== *)

(** ** Machine integers *)

Lemma size_t_small (z : Z) : 0 <= z < 2 ^ 64 -> size_t z = z.
Proof. intros Hz. unfold size_t. apply Z.mod_small. exact Hz. Qed.

Lemma PTRDIFF_MAX_lt : 2 * PTRDIFF_MAX + 2 = 2 ^ 64.
Proof. reflexivity. Qed.

(** ** The error monad *)

Lemma bind_Ok_inv {A B : Type} (e : result A) (k : A -> result B) (r : B) :
  e ≫= k = Ok r -> exists a, e = Ok a /\ k a = Ok r.
Proof. destruct e as [a | err]; [eauto | discriminate]. Qed.

Lemma cassert_Ok_inv (b : bool) (u : unit) : cassert b = Ok u -> b = true.
Proof. destruct b; [reflexivity | discriminate]. Qed.

(* ---------------------------------------------------------------------- *)
(** ** HeapTimer *)
(* ---------------------------------------------------------------------- *)

Module HeapTimerFacts.

Import HeapTimer.

(** Linear arithmetic with the parent index [(k - 1) / 2]. *)
Ltac zlia := Z.to_euclidean_division_equations; lia.

(** One step of the error monad, without unfolding the loops. *)
Ltac mstep := cbn [mbind result_bind cassert andb negb].

Section WithCallBack.

Context {TimeoutCallBack : Type}.

Implicit Types (tm : t TimeoutCallBack) (h : list (TimerNode TimeoutCallBack)).
Implicit Types (x y node : TimerNode TimeoutCallBack).

(** *** Element access *)

Lemma at_in_range h (i : Z) :
  0 <= i < Z.of_nat (length h) ->
  exists x, at_ h i = Ok x /\ h !! Z.to_nat i = Some x.
Proof.
  intros Hi. unfold at_.
  destruct (Z.leb_spec 0 i) as [_ | ?]; [| lia].
  destruct (Z.ltb_spec i (Z.of_nat (length h))) as [_ | ?]; [| lia]. simpl.
  destruct (lookup_lt_is_Some_2 h (Z.to_nat i)) as [x Hx]; [lia |].
  rewrite Hx. exists x. auto.
Qed.

Lemma at_out_of_range h (i : Z) :
  Z.of_nat (length h) <= i -> at_ h i = Err OutOfBounds.
Proof.
  intros Hi. unfold at_.
  destruct (Z.ltb_spec i (Z.of_nat (length h))) as [? | _]; [lia |].
  rewrite andb_false_r. reflexivity.
Qed.

Lemma at_inv h (i : Z) x :
  at_ h i = Ok x -> 0 <= i < Z.of_nat (length h) /\ h !! Z.to_nat i = Some x.
Proof.
  unfold at_. destruct (Z.leb_spec 0 i); [| discriminate].
  destruct (Z.ltb_spec i (Z.of_nat (length h))); [| discriminate]. simpl.
  destruct (h !! Z.to_nat i) eqn:Hx; [| discriminate].
  intros [= <-]. split; [lia | reflexivity].
Qed.

Lemma at_fault h (i : Z) e : at_ h i = Err e -> e = OutOfBounds.
Proof.
  unfold at_. destruct (_ && _); [destruct (h !! Z.to_nat i) |]; congruence.
Qed.

Lemma exp_at_lookup h (k : Z) x :
  h !! Z.to_nat k = Some x -> exp_at h k = expires x.
Proof. intros Hx. unfold exp_at. rewrite Hx. reflexivity. Qed.

(** *** The invariant in its two forms *)

Lemma min_heap_ordered h : min_heap h <-> ordered_upto (Z.of_nat (length h)) h.
Proof.
  split.
  - intros Hheap k Hk.
    destruct (Hheap ((k - 1) / 2) ltac:(zlia)) as [Hl Hr].
    assert (Hcase : k = 2 * ((k - 1) / 2) + 1 \/ k = 2 * ((k - 1) / 2) + 2)
      by zlia.
    destruct Hcase as [Hc | Hc].
    + rewrite Hc at 2. apply Hl. lia.
    + rewrite Hc at 2. apply Hr. lia.
  - intros Hord i Hi. split; intros Hlt.
    + specialize (Hord (2 * i + 1) ltac:(lia)).
      replace ((2 * i + 1 - 1) / 2) with i in Hord by zlia. exact Hord.
    + specialize (Hord (2 * i + 2) ltac:(lia)).
      replace ((2 * i + 2 - 1) / 2) with i in Hord by zlia. exact Hord.
Qed.

(** [ref_] maps the ids of the heap one-to-one to their indices. *)
Lemma ref_ok_inj tm (a b : nat) x y :
  ref_ok tm ->
  heap_ tm !! a = Some x -> heap_ tm !! b = Some y -> id x = id y -> a = b.
Proof.
  intros Href Ha Hb Hid. apply Href in Ha. apply Href in Hb.
  rewrite Hid in Ha. rewrite Ha in Hb. injection Hb. lia.
Qed.

Lemma ref_ok_no_dup tm : ref_ok tm -> no_dup_ids tm.
Proof.
  intros Href. unfold no_dup_ids. apply NoDup_alt. intros a b v Ha Hb.
  rewrite list_lookup_fmap in Ha, Hb.
  destruct (heap_ tm !! a) as [x |] eqn:Hx; [| discriminate].
  destruct (heap_ tm !! b) as [y |] eqn:Hy; [| discriminate].
  simpl in Ha, Hb. eapply ref_ok_inj; eauto. congruence.
Qed.

Lemma timer_inv_intro tm :
  ordered_upto (heap_size tm) (heap_ tm) -> ref_ok tm -> timer_inv tm.
Proof.
  intros Hord Href. split; [| split].
  - apply min_heap_ordered. exact Hord.
  - exact Href.
  - apply ref_ok_no_dup. exact Href.
Qed.

Lemma timer_inv_ordered tm :
  timer_inv tm -> ordered_upto (heap_size tm) (heap_ tm).
Proof. intros (Hheap & _). apply min_heap_ordered. exact Hheap. Qed.

(** An ordered prefix can be seen as a prefix with a hole anywhere. *)
Lemma ordered_hole (n : Z) h (i : Z) :
  ordered_upto n h -> 0 <= i -> hole_ok n h i.
Proof.
  intros Hord Hi. split.
  - intros k Hk _ _. apply Hord. exact Hk.
  - intros k Hk Hpar Hpos. transitivity (exp_at h i).
    + apply Hord. zlia.
    + rewrite <- Hpar. apply Hord. exact Hk.
Qed.

Lemma ordered_children (n : Z) h (i : Z) :
  ordered_upto n h -> children_ok n h i.
Proof. intros Hord k Hk Hpar. rewrite <- Hpar. apply Hord. exact Hk. Qed.

Lemma hole_filled (n : Z) h (i : Z) :
  hole_ok n h i -> parent_ok h i -> children_ok n h i -> ordered_upto n h.
Proof.
  intros [Hrest _] Hpar Hch k Hk.
  destruct (decide (k = i)) as [-> | Hki]; [apply Hpar; lia |].
  destruct (decide ((k - 1) / 2 = i)) as [Hp | Hp].
  - rewrite Hp. apply Hch; assumption.
  - apply Hrest; assumption.
Qed.

(** *** SwapNode_ *)

Lemma SwapNode_spec tm (i j : Z) :
  ref_ok tm ->
  0 <= i < heap_size tm -> 0 <= j < heap_size tm ->
  exists tm', SwapNode_ tm i j = Ok tm' /\
    heap_size tm' = heap_size tm /\
    ref_ok tm' /\
    exp_at (heap_ tm') i = exp_at (heap_ tm) j /\
    exp_at (heap_ tm') j = exp_at (heap_ tm) i /\
    (forall k : Z, 0 <= k -> k <> i -> k <> j ->
       exp_at (heap_ tm') k = exp_at (heap_ tm) k).
Proof.
  intros Href Hi Hj. unfold SwapNode_, in_range, heap_size in *.
  destruct (Z.leb_spec 0 i) as [_ | ?]; [| lia].
  destruct (Z.ltb_spec i (Z.of_nat (length (heap_ tm)))) as [_ | ?]; [| lia].
  destruct (Z.leb_spec 0 j) as [_ | ?]; [| lia].
  destruct (Z.ltb_spec j (Z.of_nat (length (heap_ tm)))) as [_ | ?]; [| lia].
  simpl.
  destruct (at_in_range (heap_ tm) i Hi) as (ni & -> & Hni).
  destruct (at_in_range (heap_ tm) j Hj) as (nj & -> & Hnj).
  simpl. eexists. split; [reflexivity |]. simpl.
  assert (Hli : (Z.to_nat i < length (heap_ tm))%nat) by lia.
  assert (Hlj : (Z.to_nat j < length (heap_ tm))%nat) by lia.
  split; [rewrite !length_insert; reflexivity |].
  split; [| split; [| split]].
  - intros k node Hk. simpl in Hk |- *.
    destruct (decide (k = Z.to_nat j)) as [-> | Hkj].
    + rewrite list_lookup_insert_eq in Hk by (rewrite length_insert; exact Hlj).
      injection Hk as <-. rewrite lookup_insert_eq. f_equal. lia.
    + rewrite list_lookup_insert_ne in Hk by congruence.
      destruct (decide (k = Z.to_nat i)) as [-> | Hki].
      * rewrite list_lookup_insert_eq in Hk by exact Hli.
        injection Hk as <-.
        rewrite lookup_insert_ne.
        -- rewrite lookup_insert_eq. f_equal. lia.
        -- intros Hid. apply Hkj. symmetry.
           eapply (ref_ok_inj tm); eauto.
      * rewrite list_lookup_insert_ne in Hk by congruence.
        rewrite !lookup_insert_ne.
        -- apply Href. exact Hk.
        -- intros Hid. apply Hkj. eapply (ref_ok_inj tm); eauto.
        -- intros Hid. apply Hki. eapply (ref_ok_inj tm); eauto.
  - unfold exp_at. simpl. rewrite Hnj.
    destruct (decide (i = j)) as [-> | Hne].
    + rewrite list_lookup_insert_eq by (rewrite length_insert; exact Hlj).
      congruence.
    + rewrite list_lookup_insert_ne by lia.
      rewrite list_lookup_insert_eq by exact Hli. reflexivity.
  - unfold exp_at. simpl. rewrite Hni.
    rewrite list_lookup_insert_eq by (rewrite length_insert; exact Hlj).
    reflexivity.
  - intros k Hk Hki Hkj. unfold exp_at. simpl.
    rewrite !list_lookup_insert_ne by lia. reflexivity.
Qed.

(** *** siftdown_ *)

(** The child that the loop of [siftdown_] picks: the smaller of the
    children of [i] below [n]. *)
Lemma siftdown_pick (n : Z) h (i : Z) :
  0 <= i -> i * 2 + 1 < n -> n <= Z.of_nat (length h) ->
  Z.of_nat (length h) <= PTRDIFF_MAX ->
  exists c,
    (if size_t (i * 2 + 1 + 1) <? n then
       a ← at_ h (size_t (i * 2 + 1 + 1));
       b ← at_ h (i * 2 + 1);
       Ok (if node_lt a b then size_t (i * 2 + 1 + 1) else i * 2 + 1)
     else Ok (i * 2 + 1)) = Ok c /\
    i < c < n /\ (c - 1) / 2 = i /\
    (forall k : Z, 0 < k < n -> (k - 1) / 2 = i -> exp_at h c <= exp_at h k).
Proof.
  intros Hi Hj Hn Hmax. pose proof PTRDIFF_MAX_lt as H64.
  rewrite (size_t_small (i * 2 + 1 + 1)) by lia.
  destruct (Z.ltb_spec (i * 2 + 1 + 1) n) as [Hr | Hr].
  - destruct (at_in_range h (i * 2 + 1 + 1) ltac:(lia)) as (a & -> & Ha).
    destruct (at_in_range h (i * 2 + 1) ltac:(lia)) as (b & -> & Hb).
    simpl. unfold node_lt.
    rewrite <- (exp_at_lookup _ _ _ Ha), <- (exp_at_lookup _ _ _ Hb).
    destruct (Z.ltb_spec (exp_at h (i * 2 + 1 + 1)) (exp_at h (i * 2 + 1)))
      as [Hlt | Hge].
    + eexists. split; [reflexivity |]. split; [lia |]. split; [zlia |].
      intros k Hk Hpar.
      assert (Hcase : k = i * 2 + 1 \/ k = i * 2 + 1 + 1) by zlia.
      destruct Hcase as [-> | ->]; lia.
    + eexists. split; [reflexivity |]. split; [lia |]. split; [zlia |].
      intros k Hk Hpar.
      assert (Hcase : k = i * 2 + 1 \/ k = i * 2 + 1 + 1) by zlia.
      destruct Hcase as [-> | ->]; lia.
  - eexists. split; [reflexivity |]. split; [lia |]. split; [zlia |].
    intros k Hk Hpar.
    assert (Hcase : k = i * 2 + 1) by zlia. subst k. lia.
Qed.

(** Swapping node [i] with its smaller child [c] moves the hole to [c]
    and leaves [c] in order with its new parent. *)
Lemma hole_down (n : Z) h h' (i c : Z) :
  0 <= i -> i < c < n -> (c - 1) / 2 = i ->
  hole_ok n h i -> parent_ok h i ->
  (forall k : Z, 0 < k < n -> (k - 1) / 2 = i -> exp_at h c <= exp_at h k) ->
  exp_at h c <= exp_at h i ->
  exp_at h' i = exp_at h c -> exp_at h' c = exp_at h i ->
  (forall k : Z, 0 <= k -> k <> i -> k <> c -> exp_at h' k = exp_at h k) ->
  hole_ok n h' c /\ parent_ok h' c.
Proof.
  intros Hi Hc Hpar [Hrest Hgrand] Hpo Hmin Hle Hi' Hc' Hother.
  split; [split |].
  - intros k Hk Hkc Hpc.
    destruct (decide (k = i)) as [-> | Hki].
    + (* the edge above [i] *)
      rewrite Hi'. rewrite Hother by zlia. apply Hgrand; lia.
    + destruct (decide ((k - 1) / 2 = i)) as [Hp | Hp].
      * (* the sibling of [c] *)
        rewrite Hp, Hi', Hother by lia. apply Hmin; assumption.
      * rewrite !Hother by zlia. apply Hrest; assumption.
  - intros k Hk Hp _. rewrite Hpar, Hi'. rewrite Hother by zlia.
    specialize (Hrest k Hk ltac:(zlia) ltac:(zlia)).
    rewrite Hp in Hrest. exact Hrest.
  - intros _. rewrite Hpar, Hi', Hc'. exact Hle.
Qed.

Lemma siftdown_loop_spec (fuel : nat) (n : Z) tm (i : Z) :
  ref_ok tm ->
  0 <= i < n -> n <= heap_size tm -> heap_size tm <= PTRDIFF_MAX ->
  (Z.to_nat (n - i) <= fuel)%nat ->
  exists i' tm',
    siftdown_loop fuel n tm i (size_t (i * 2 + 1)) = Ok (i', tm') /\
    i <= i' < n /\
    heap_size tm' = heap_size tm /\
    ref_ok tm' /\
    (hole_ok n (heap_ tm) i -> parent_ok (heap_ tm) i ->
     ordered_upto n (heap_ tm')) /\
    (children_lt n (heap_ tm) i -> i' = i /\ tm' = tm).
Proof.
  pose proof PTRDIFF_MAX_lt as H64.
  revert tm i. induction fuel as [| fuel IH]; intros tm i Href Hi Hn Hmax Hfuel;
    [lia |].
  simpl. rewrite (size_t_small (i * 2 + 1)) by lia.
  destruct (Z.ltb_spec (i * 2 + 1) n) as [Hj | Hj].
  - unfold heap_size in *.
    destruct (siftdown_pick n (heap_ tm) i) as (c & -> & Hc & Hpar & Hmin);
      try lia.
    simpl.
    destruct (at_in_range (heap_ tm) i ltac:(lia)) as (hi & -> & Hhi).
    destruct (at_in_range (heap_ tm) c ltac:(lia)) as (hc & -> & Hhc).
    simpl. unfold node_lt.
    rewrite <- (exp_at_lookup _ _ _ Hhi), <- (exp_at_lookup _ _ _ Hhc).
    destruct (Z.ltb_spec (exp_at (heap_ tm) i) (exp_at (heap_ tm) c))
      as [Hlt | Hge].
    + exists i, tm. split; [reflexivity |]. split; [lia |].
      split; [reflexivity |]. split; [exact Href |]. split; [| auto].
      intros Hhole Hpo. apply (hole_filled n _ i); try assumption.
      intros k Hk Hp. specialize (Hmin k Hk Hp). lia.
    + destruct (SwapNode_spec tm i c Href) as
        (tm1 & -> & Hsz1 & Href1 & Hi1 & Hc1 & Hother); unfold heap_size; try lia.
      simpl. unfold heap_size in Hsz1.
      destruct (IH tm1 c Href1) as (i' & tm' & Hrun & Hi' & Hsz' & Href' & Hord & _);
        unfold heap_size; try lia.
      exists i', tm'. split; [exact Hrun |]. split; [lia |].
      unfold heap_size in *. split; [lia |]. split; [exact Href' |]. split.
      * intros Hhole Hpo.
        destruct (hole_down n (heap_ tm) (heap_ tm1) i c) as [Hh1 Hp1];
          try assumption; try lia.
        apply Hord; assumption.
      * intros Hstrict. specialize (Hstrict c ltac:(lia) Hpar). lia.
  - exists i, tm. split; [reflexivity |]. split; [lia |].
    split; [reflexivity |]. split; [exact Href |]. split; [| auto].
    intros Hhole Hpo. apply (hole_filled n _ i); try assumption.
    intros k Hk Hp. zlia.
Qed.

Lemma siftdown_spec tm (index n : Z) :
  ref_ok tm ->
  0 <= index < n -> n <= heap_size tm -> heap_size tm <= PTRDIFF_MAX ->
  exists moved tm',
    siftdown_ tm index n = Ok (moved, tm') /\
    heap_size tm' = heap_size tm /\
    ref_ok tm' /\
    (hole_ok n (heap_ tm) index -> parent_ok (heap_ tm) index ->
     ordered_upto n (heap_ tm')) /\
    (children_lt n (heap_ tm) index -> moved = false /\ tm' = tm).
Proof.
  intros Href Hi Hn Hmax. unfold siftdown_, in_range.
  destruct (Z.leb_spec 0 index) as [_ | ?]; [| lia].
  destruct (Z.ltb_spec index (heap_size tm)) as [_ | ?]; [| lia].
  destruct (Z.leb_spec 0 n) as [_ | ?]; [| lia].
  destruct (Z.leb_spec n (heap_size tm)) as [_ | ?]; [| lia].
  mstep.
  destruct (siftdown_loop_spec (S (length (heap_ tm))) n tm index Href Hi Hn Hmax)
    as (i' & tm' & -> & Hi' & Hsz & Href' & Hord & Hsame);
    [unfold heap_size in *; lia |].
  mstep. exists (index <? i'), tm'. split; [reflexivity |].
  split; [exact Hsz |]. split; [exact Href' |]. split; [exact Hord |].
  intros Hstrict. destruct (Hsame Hstrict) as [-> ->].
  split; [apply Z.ltb_irrefl | reflexivity].
Qed.

(** *** siftup_ *)

(** At the root the parent index computed in [size_t] is
    [(2^64 - 1) / 2]. *)
Lemma siftup_parent_of_root : size_t (0 - 1) / 2 = PTRDIFF_MAX.
Proof. reflexivity. Qed.

(** Swapping node [i] with its parent [j] moves the hole to [j] and
    leaves [j] in order with its new children. *)
Lemma hole_up (n : Z) h h' (i j : Z) :
  0 < i < n -> j = (i - 1) / 2 ->
  hole_ok n h i -> children_ok n h i ->
  exp_at h i <= exp_at h j ->
  exp_at h' i = exp_at h j -> exp_at h' j = exp_at h i ->
  (forall k : Z, 0 <= k -> k <> i -> k <> j -> exp_at h' k = exp_at h k) ->
  hole_ok n h' j /\ children_ok n h' j.
Proof.
  intros Hi Hj [Hrest Hgrand] Hch Hle Hi' Hj' Hother.
  assert (Hji : 0 <= j < i) by zlia.
  split; [split |].
  - intros k Hk Hkj Hpj.
    destruct (decide ((k - 1) / 2 = i)) as [Hp | Hp].
    + rewrite Hp, Hi'. rewrite Hother by zlia.
      rewrite Hj. apply Hgrand; [assumption | assumption | lia].
    + assert (Hki : k <> i) by (intros ->; lia).
      rewrite !Hother by zlia. apply Hrest; assumption.
  - intros k Hk Hp Hpos. rewrite (Hother ((j - 1) / 2)) by zlia.
    assert (Hjp : exp_at h ((j - 1) / 2) <= exp_at h j)
      by (apply Hrest; zlia).
    destruct (decide (k = i)) as [-> | Hki].
    + rewrite Hi'. exact Hjp.
    + rewrite Hother by zlia.
      specialize (Hrest k Hk Hki ltac:(lia)). rewrite Hp in Hrest. lia.
  - intros k Hk Hp. rewrite Hj'.
    destruct (decide (k = i)) as [-> | Hki].
    + rewrite Hi'. exact Hle.
    + rewrite Hother by zlia.
      specialize (Hrest k Hk Hki ltac:(lia)). rewrite Hp in Hrest. lia.
Qed.

Lemma siftup_loop_spec (fuel : nat) (n : Z) tm (i : Z) :
  ref_ok tm ->
  0 <= i < n -> n <= heap_size tm -> heap_size tm <= PTRDIFF_MAX ->
  (Z.to_nat i < fuel)%nat ->
  match siftup_loop fuel tm i (size_t (i - 1) / 2) with
  | Ok tm' =>
    heap_size tm' = heap_size tm /\
    ref_ok tm' /\
    (hole_ok n (heap_ tm) i -> children_ok n (heap_ tm) i ->
     ordered_upto n (heap_ tm'))
  | Err e => e = OutOfBounds
  end.
Proof.
  pose proof PTRDIFF_MAX_lt as H64.
  revert tm i. induction fuel as [| fuel IH]; intros tm i Href Hi Hn Hmax Hfuel;
    [lia |].
  destruct (decide (i = 0)) as [-> | Hroot].
  - (* at the root: the parent index is far outside the vector *)
    rewrite siftup_parent_of_root. simpl.
    rewrite (at_out_of_range (heap_ tm) PTRDIFF_MAX)
      by (unfold heap_size in *; lia).
    reflexivity.
  - rewrite (size_t_small (i - 1)) by lia.
    assert (Hj : 0 <= (i - 1) / 2 < i) by zlia.
    set (j := (i - 1) / 2) in *. simpl.
    destruct (Z.leb_spec 0 j) as [_ | ?]; [| lia].
    unfold heap_size in *.
    destruct (at_in_range (heap_ tm) j ltac:(lia)) as (hj & -> & Hhj).
    destruct (at_in_range (heap_ tm) i ltac:(lia)) as (hi & -> & Hhi).
    simpl. unfold node_lt.
    rewrite <- (exp_at_lookup _ _ _ Hhi), <- (exp_at_lookup _ _ _ Hhj).
    destruct (Z.ltb_spec (exp_at (heap_ tm) j) (exp_at (heap_ tm) i))
      as [Hlt | Hge].
    + split; [reflexivity |]. split; [exact Href |].
      intros Hhole Hch. apply (hole_filled n _ i); try assumption.
      intros _. fold j. lia.
    + destruct (SwapNode_spec tm i j Href) as
        (tm1 & -> & Hsz1 & Href1 & Hi1 & Hj1 & Hother); unfold heap_size; try lia.
      simpl. unfold heap_size in Hsz1.
      specialize (IH tm1 j Href1). unfold heap_size in IH.
      specialize (IH ltac:(lia) ltac:(lia) ltac:(lia) ltac:(lia)).
      destruct (siftup_loop fuel tm1 j (size_t (j - 1) / 2)) as [tm' | e];
        [| exact IH].
      destruct IH as (Hsz' & Href' & Hord).
      split; [lia |]. split; [exact Href' |].
      intros Hhole Hch.
      destruct (hole_up n (heap_ tm) (heap_ tm1) i j) as [Hh1 Hc1];
        try assumption; try lia; try reflexivity.
      apply Hord; assumption.
Qed.

Lemma siftup_spec (n : Z) tm (i : Z) :
  ref_ok tm ->
  0 <= i < n -> n <= heap_size tm -> heap_size tm <= PTRDIFF_MAX ->
  match siftup_ tm i with
  | Ok tm' =>
    heap_size tm' = heap_size tm /\
    ref_ok tm' /\
    (hole_ok n (heap_ tm) i -> children_ok n (heap_ tm) i ->
     ordered_upto n (heap_ tm'))
  | Err e => e = OutOfBounds
  end.
Proof.
  intros Href Hi Hn Hmax. unfold siftup_, in_range.
  destruct (Z.leb_spec 0 i) as [_ | ?]; [| lia].
  destruct (Z.ltb_spec i (heap_size tm)) as [_ | ?]; [| lia].
  mstep. apply siftup_loop_spec; try assumption.
  unfold heap_size in *. lia.
Qed.

(** [siftup_] called on the root reads [heap_[(2^64 - 1) / 2]]. *)
Lemma siftup_root_out_of_bounds tm :
  0 < heap_size tm <= PTRDIFF_MAX -> siftup_ tm 0 = Err OutOfBounds.
Proof.
  intros Hsz. unfold siftup_, in_range.
  destruct (Z.ltb_spec 0 (heap_size tm)) as [_ | ?]; [| lia].
  mstep. rewrite siftup_parent_of_root. cbn [siftup_loop].
  rewrite (at_out_of_range (heap_ tm) PTRDIFF_MAX)
    by (unfold heap_size in *; lia).
  reflexivity.
Qed.

(** *** Restoring the order around one node *)

(** [hole_ok] does not look at the node in the hole. *)
Lemma hole_ext (n : Z) h h' (i : Z) :
  hole_ok n h i -> 0 <= i ->
  (forall k : Z, 0 <= k < n -> k <> i -> exp_at h' k = exp_at h k) ->
  hole_ok n h' i.
Proof.
  intros [Hrest Hgrand] Hi Hsame. split.
  - intros k Hk Hki Hp. rewrite !Hsame by zlia. apply Hrest; assumption.
  - intros k Hk Hp Hpos. rewrite !Hsame by zlia. apply Hgrand; assumption.
Qed.

(** A node appended after an ordered prefix is a hole at the end. *)
Lemma hole_at_end (n : Z) h :
  0 <= n -> ordered_upto n h -> hole_ok (n + 1) h n /\ children_ok (n + 1) h n.
Proof.
  intros Hn Hord. split; [split |].
  - intros k Hk Hkn _. apply Hord. lia.
  - intros k Hk Hp _. zlia.
  - intros k Hk Hp. zlia.
Qed.

Lemma ordered_shrink (n m : Z) h : ordered_upto n h -> m <= n -> ordered_upto m h.
Proof. intros Hord Hm k Hk. apply Hord. lia. Qed.

(** The pattern shared by [add] and [del_]: sift down, and sift up when
    the node did not move. *)
Lemma sift_both_spec (n : Z) tm (i : Z) :
  ref_ok tm ->
  0 <= i < n -> n <= heap_size tm -> heap_size tm <= PTRDIFF_MAX ->
  hole_ok n (heap_ tm) i ->
  match ('(moved, tm2) ← siftdown_ tm i n;
         if moved : bool then Ok tm2 else siftup_ tm2 i) with
  | Ok tm' =>
    heap_size tm' = heap_size tm /\ ref_ok tm' /\ ordered_upto n (heap_ tm')
  | Err e => e = OutOfBounds
  end.
Proof.
  intros Href Hi Hn Hmax Hhole.
  destruct (siftdown_spec tm i n Href Hi Hn Hmax)
    as (moved & tm2 & -> & Hsz2 & Href2 & Hord2 & Hsame).
  mstep.
  destruct (decide (0 < i /\ exp_at (heap_ tm) i < exp_at (heap_ tm) ((i - 1) / 2)))
    as [[Hpos Hlt] | Hpar].
  - (* the node is below its parent: its children are strictly above it *)
    destruct Hsame as [-> ->].
    { intros k Hk Hp. destruct Hhole as [_ Hgrand].
      specialize (Hgrand k Hk Hp Hpos). lia. }
    pose proof (siftup_spec n tm i Href Hi Hn Hmax) as Hup.
    destruct (siftup_ tm i) as [tm' | e]; [| exact Hup].
    destruct Hup as (Hsz & Href' & Hord).
    split; [exact Hsz |]. split; [exact Href' |]. apply Hord; [exact Hhole |].
    intros k Hk Hp. destruct Hhole as [_ Hgrand].
    specialize (Hgrand k Hk Hp Hpos). lia.
  - assert (Hord : ordered_upto n (heap_ tm2)).
    { apply Hord2; [exact Hhole |]. intros Hpos. lia. }
    destruct moved.
    + auto.
    + pose proof (siftup_spec n tm2 i Href2 Hi ltac:(lia) ltac:(lia)) as Hup.
      destruct (siftup_ tm2 i) as [tm' | e]; [| exact Hup].
      destruct Hup as (Hsz & Href' & Hord').
      split; [lia |]. split; [exact Href' |].
      apply Hord'; [apply ordered_hole; [exact Hord | lia] |].
      apply ordered_children. exact Hord.
Qed.

(** Overwriting the node at [i] while keeping its id. *)
Lemma overwrite_spec tm (i : Z) old node :
  0 <= i -> heap_ tm !! Z.to_nat i = Some old -> id node = id old ->
  let tm1 := mkTimer (<[Z.to_nat i := node]> (heap_ tm)) (ref_ tm) in
  heap_size tm1 = heap_size tm /\
  (ref_ok tm -> ref_ok tm1) /\
  exp_at (heap_ tm1) i = expires node /\
  (forall k : Z, 0 <= k -> k <> i -> exp_at (heap_ tm1) k = exp_at (heap_ tm) k).
Proof.
  intros Hi Hold Hid tm1. pose proof (lookup_lt_Some _ _ _ Hold) as Hlt.
  split; [| split; [| split]].
  - unfold heap_size, tm1; simpl. rewrite length_insert. reflexivity.
  - intros Href k x Hk. unfold tm1 in *; simpl in *.
    destruct (decide (k = Z.to_nat i)) as [-> | Hne].
    + rewrite list_lookup_insert_eq in Hk by exact Hlt. injection Hk as <-.
      rewrite Hid. apply Href. exact Hold.
    + rewrite list_lookup_insert_ne in Hk by congruence. apply Href. exact Hk.
  - unfold exp_at, tm1; simpl.
    rewrite list_lookup_insert_eq by exact Hlt. reflexivity.
  - intros k Hk Hne. unfold exp_at, tm1; simpl.
    rewrite list_lookup_insert_ne by lia. reflexivity.
Qed.

(** *** add *)

Lemma add_spec (now : Z) tm (tid timeout : Z) (f : TimeoutCallBack) :
  timer_inv tm -> fits tm -> 0 <= tid ->
  match add now tm tid timeout f with
  | Ok tm' => timer_inv tm'
  | Err e => e = OutOfBounds
  end.
Proof.
  intros Hinv Hfits Htid. pose proof (timer_inv_ordered tm Hinv) as Hord.
  destruct Hinv as (_ & Href & _). unfold fits in Hfits. unfold add.
  destruct (Z.leb_spec 0 tid) as [_ | ?]; [| lia]. mstep.
  destruct (ref_ tm !! tid) as [i |] eqn:Hlook.
  - (* an id already in [ref_] *)
    destruct (at_ (heap_ tm) i) as [old | e] eqn:Hat;
      [| mstep; eapply at_fault; exact Hat].
    apply at_inv in Hat as [Hi Hold]. mstep.
    set (node := mkNode (id old) (now + MS timeout) f).
    destruct (overwrite_spec tm i old node ltac:(lia) Hold eq_refl)
      as (Hsz1 & Href1 & _ & Hother).
    set (tm1 := mkTimer _ _) in *. specialize (Href1 Href).
    assert (Hhole : hole_ok (heap_size tm1) (heap_ tm1) i).
    { rewrite Hsz1. apply (hole_ext _ (heap_ tm));
        [apply ordered_hole; [exact Hord | lia] | lia |].
      intros k Hk Hne. apply Hother; lia. }
    pose proof (sift_both_spec (heap_size tm1) tm1 i Href1
                  ltac:(unfold heap_size in *; lia) ltac:(lia) ltac:(lia) Hhole)
      as Hsift.
    destruct (_ ≫= _) as [tm' | e]; [| exact Hsift].
    destruct Hsift as (Hsz' & Href' & Hord').
    apply timer_inv_intro; [| exact Href']. rewrite Hsz'. exact Hord'.
  - (* a new id *)
    set (node := mkNode tid (now + MS timeout) f).
    set (tm1 := mkTimer _ _).
    assert (Hsz1 : heap_size tm1 = heap_size tm + 1).
    { unfold heap_size, tm1; simpl. rewrite length_app; simpl. lia. }
    assert (Href1 : ref_ok tm1).
    { intros k x Hk. unfold tm1 in *; simpl in *.
      apply lookup_app_Some in Hk as [Hk | [Hlen Hk]].
      - rewrite lookup_insert_ne; [apply Href; exact Hk |].
        intros ->. apply Href in Hk. congruence.
      - apply list_lookup_singleton_Some in Hk as [Hk <-]. simpl.
        rewrite lookup_insert_eq. unfold heap_size. f_equal. lia. }
    assert (Hsame : forall k : Z, 0 <= k < heap_size tm + 1 -> k <> heap_size tm ->
              exp_at (heap_ tm1) k = exp_at (heap_ tm) k).
    { intros k Hk Hne. unfold exp_at, tm1; simpl.
      rewrite lookup_app_l by (unfold heap_size in *; lia). reflexivity. }
    destruct (hole_at_end (heap_size tm) (heap_ tm)) as [Hhole Hch];
      [unfold heap_size; lia | exact Hord |].
    pose proof (siftup_spec (heap_size tm + 1) tm1 (heap_size tm) Href1) as Hup.
    specialize (Hup ltac:(unfold heap_size; lia) ltac:(lia) ltac:(lia)).
    destruct (siftup_ tm1 (heap_size tm)) as [tm' | e]; [| exact Hup].
    destruct Hup as (Hsz' & Href' & Hord').
    apply timer_inv_intro; [| exact Href']. rewrite Hsz', Hsz1.
    apply Hord'.
    + apply (hole_ext _ (heap_ tm)); [exact Hhole | unfold heap_size; lia |].
      exact Hsame.
    + intros k Hk Hp. zlia.
Qed.

(** The first [add] on an empty timer already calls [siftup_(0)]. *)
Lemma add_first_out_of_bounds (now : Z) (tid timeout : Z) (f : TimeoutCallBack) :
  0 <= tid -> add now (mkTimer [] ∅) tid timeout f = Err OutOfBounds.
Proof.
  intros Htid. unfold add.
  destruct (Z.leb_spec 0 tid) as [_ | ?]; [| lia]. mstep.
  cbn [ref_ heap_]. rewrite lookup_empty.
  apply siftup_root_out_of_bounds. unfold heap_size. simpl.
  unfold PTRDIFF_MAX. lia.
Qed.

(** *** del_, pop, doWork *)

(** [ref_.erase(heap_.back().id); heap_.pop_back()] on a heap whose
    first [n] of [n + 1] nodes are in order. *)
Lemma drop_back_spec tm (n : Z) :
  ref_ok tm -> 0 <= n -> heap_size tm = n + 1 ->
  ordered_upto n (heap_ tm) ->
  exists b, last (heap_ tm) = Some b /\
    let tm' := mkTimer (removelast (heap_ tm)) (delete (id b) (ref_ tm)) in
    heap_size tm' = n /\ ref_ok tm' /\ ordered_upto n (heap_ tm').
Proof.
  intros Href Hn Hsz Hord. unfold heap_size in Hsz.
  destruct (lookup_lt_is_Some_2 (heap_ tm) (Z.to_nat n)) as [b Hb]; [lia |].
  exists b. split.
  { rewrite last_lookup. rewrite <- Hb. f_equal. lia. }
  assert (Hrm : removelast (heap_ tm) = take (Z.to_nat n) (heap_ tm)).
  { rewrite removelast_firstn_len. f_equal. lia. }
  simpl. rewrite Hrm. split; [| split].
  - unfold heap_size; simpl. rewrite length_take. lia.
  - intros k x Hk. simpl in *.
    apply lookup_take_Some in Hk as [Hk Hlt].
    rewrite lookup_delete_ne; [apply Href; exact Hk |].
    intros Hid. assert (Z.to_nat n = k) by (eapply (ref_ok_inj tm); eauto). lia.
  - intros k Hk. unfold exp_at. rewrite !lookup_take_lt by zlia.
    apply Hord. exact Hk.
Qed.

Lemma del_spec tm (index : Z) :
  ref_ok tm -> ordered_upto (heap_size tm) (heap_ tm) ->
  0 <= index < heap_size tm -> heap_size tm <= PTRDIFF_MAX ->
  match del_ tm index with
  | Ok tm' =>
    heap_size tm' = heap_size tm - 1 /\ ref_ok tm' /\
    ordered_upto (heap_size tm') (heap_ tm')
  | Err e => e = OutOfBounds
  end.
Proof.
  intros Href Hord Hi Hmax. pose proof PTRDIFF_MAX_lt as H64.
  unfold del_, in_range.
  destruct (Z.eqb_spec (heap_size tm) 0) as [? | _]; [lia |].
  destruct (Z.leb_spec 0 index) as [_ | ?]; [| lia].
  destruct (Z.ltb_spec index (heap_size tm)) as [_ | ?]; [| lia]. mstep.
  rewrite (size_t_small (heap_size tm - 1)) by lia.
  destruct (Z.leb_spec index (heap_size tm - 1)) as [_ | ?]; [| lia]. mstep.
  set (n := heap_size tm - 1) in *.
  assert (Hfinish : forall tm1 : t TimeoutCallBack,
            ref_ok tm1 -> heap_size tm1 = heap_size tm ->
            ordered_upto n (heap_ tm1) ->
            match
              match last (heap_ tm1) with
              | Some b =>
                Ok (mkTimer (removelast (heap_ tm1)) (delete (id b) (ref_ tm1)))
              | None => Err OutOfBounds
              end
            with
            | Ok tm' =>
              heap_size tm' = n /\ ref_ok tm' /\
              ordered_upto (heap_size tm') (heap_ tm')
            | Err e => e = OutOfBounds
            end).
  { intros tm1 Href1 Hsz1 Hord1.
    destruct (drop_back_spec tm1 n Href1 ltac:(lia) ltac:(lia) Hord1)
      as (b & -> & Hsz' & Href' & Hord').
    split; [exact Hsz' |]. split; [exact Href' |]. rewrite Hsz'. exact Hord'. }
  destruct (Z.ltb_spec index n) as [Hlt | Hge].
  - destruct (SwapNode_spec tm index n Href ltac:(lia) ltac:(lia))
      as (tm1 & -> & Hsz1 & Href1 & _ & _ & Hother).
    mstep.
    assert (Hhole : hole_ok n (heap_ tm1) index).
    { apply (hole_ext _ (heap_ tm)); [| lia |].
      - apply ordered_hole; [| lia]. apply (ordered_shrink (heap_size tm)); [exact Hord | lia].
      - intros k Hk Hne. apply Hother; lia. }
    pose proof (sift_both_spec n tm1 index Href1 ltac:(lia) ltac:(lia)
                  ltac:(lia) Hhole) as Hsift.
    destruct (_ ≫= _) as [tm2 | e]; [| exact Hsift].
    destruct Hsift as (Hsz2 & Href2 & Hord2). mstep.
    apply Hfinish; [exact Href2 | lia | exact Hord2].
  - mstep. apply Hfinish; [exact Href | reflexivity |].
    apply (ordered_shrink (heap_size tm)); [exact Hord | lia].
Qed.

Lemma pop_spec tm :
  ref_ok tm -> ordered_upto (heap_size tm) (heap_ tm) ->
  heap_ tm <> [] -> heap_size tm <= PTRDIFF_MAX ->
  match pop tm with
  | Ok tm' =>
    heap_size tm' = heap_size tm - 1 /\ ref_ok tm' /\
    ordered_upto (heap_size tm') (heap_ tm')
  | Err e => e = OutOfBounds
  end.
Proof.
  intros Href Hord Hne Hmax.
  assert (Hpos : 0 < heap_size tm).
  { unfold heap_size. destruct (heap_ tm); [contradiction | simpl; lia]. }
  unfold pop. destruct (Z.eqb_spec (heap_size tm) 0) as [? | _]; [lia |].
  mstep. apply del_spec; try assumption. lia.
Qed.

Lemma doWork_spec tm (tid : Z) :
  ref_ok tm -> ordered_upto (heap_size tm) (heap_ tm) ->
  heap_size tm <= PTRDIFF_MAX ->
  match doWork tm tid with
  | Ok (tm', _) => ref_ok tm' /\ ordered_upto (heap_size tm') (heap_ tm')
  | Err e => e = OutOfBounds
  end.
Proof.
  intros Href Hord Hmax. unfold doWork.
  destruct (heap_ tm) as [| front rest] eqn:Hheap;
    [split; [exact Href | rewrite Hheap; exact Hord] |].
  rewrite <- Hheap in Hord |- *.
  destruct (ref_ tm !! tid) as [i |]; [| auto].
  destruct (at_ (heap_ tm) i) as [node | e] eqn:Hat;
    [| mstep; eapply at_fault; exact Hat].
  apply at_inv in Hat as [Hi _]. mstep.
  pose proof (del_spec tm i Href Hord Hi Hmax) as Hdel.
  destruct (del_ tm i) as [tm' | e]; [| exact Hdel].
  mstep. destruct Hdel as (_ & Href' & Hord'). auto.
Qed.

(** *** tick *)

Lemma tick_loop_spec (fuel : nat) (clk : nat -> Z) (k : nat) tm
    (fired : list TimeoutCallBack) :
  ref_ok tm -> ordered_upto (heap_size tm) (heap_ tm) ->
  heap_size tm <= PTRDIFF_MAX ->
  (length (heap_ tm) < fuel)%nat ->
  match tick_loop fuel clk k tm fired with
  | Ok (tm', _, _) => ref_ok tm' /\ ordered_upto (heap_size tm') (heap_ tm')
  | Err e => e = OutOfBounds
  end.
Proof.
  revert k tm fired.
  induction fuel as [| fuel IH]; intros k tm fired Href Hord Hmax Hfuel; [lia |].
  cbn [tick_loop]. destruct (heap_ tm) as [| node rest] eqn:Hheap;
    [split; [exact Href | rewrite Hheap; exact Hord] |].
  rewrite <- Hheap in Hord.
  destruct (0 <? duration_cast_MS (expires node - clk k)); [auto |].
  pose proof (pop_spec tm Href Hord ltac:(rewrite Hheap; discriminate) Hmax)
    as Hpop.
  destruct (pop tm) as [tm' | e]; [| exact Hpop]. mstep.
  destruct Hpop as (Hsz' & Href' & Hord').
  apply IH; try assumption; [lia |].
  unfold heap_size in Hsz'. rewrite Hheap in Hsz'. simpl in Hfuel, Hsz'. lia.
Qed.

(** *** adjust *)

Lemma adjust_spec (now : Z) tm (tid timeout : Z) :
  timer_inv tm -> fits tm ->
  heap_ tm <> [] -> is_Some (ref_ tm !! tid) ->
  (forall i : Z, ref_ tm !! tid = Some i -> 0 < i ->
     exp_at (heap_ tm) ((i - 1) / 2) <= now + MS timeout) ->
  match adjust now tm tid timeout with
  | Ok tm' => timer_inv tm'
  | Err e => e = OutOfBounds
  end.
Proof.
  intros Hinv Hfits Hne [i Hlook] Hlater.
  pose proof (timer_inv_ordered tm Hinv) as Hord.
  destruct Hinv as (_ & Href & _). unfold fits in Hfits. unfold adjust.
  assert (Hpos : 0 < heap_size tm).
  { unfold heap_size. destruct (heap_ tm); [contradiction | simpl; lia]. }
  destruct (Z.eqb_spec (heap_size tm) 0) as [? | _]; [lia |].
  rewrite bool_decide_eq_true_2 by (rewrite Hlook; eauto). mstep.
  rewrite Hlook.
  destruct (at_ (heap_ tm) i) as [old | e] eqn:Hat;
    [| mstep; eapply at_fault; exact Hat].
  apply at_inv in Hat as [Hi Hold]. mstep.
  set (node := mkNode (id old) (now + MS timeout) (cb old)).
  destruct (overwrite_spec tm i old node ltac:(lia) Hold eq_refl)
    as (Hsz1 & Href1 & Hnew & Hother).
  set (tm1 := mkTimer _ _) in *. specialize (Href1 Href).
  destruct (siftdown_spec tm1 i (heap_size tm1) Href1)
    as (moved & tm2 & -> & Hsz2 & Href2 & Hord2 & _);
    [unfold heap_size in *; lia | lia | lia |].
  mstep. apply timer_inv_intro; [| exact Href2].
  rewrite Hsz2. apply Hord2.
  - rewrite Hsz1. apply (hole_ext _ (heap_ tm));
      [apply ordered_hole; [exact Hord | lia] | lia |].
    intros k Hk Hki. apply Hother; lia.
  - intros Hipos. rewrite Hnew, Hother by zlia. simpl.
    apply Hlater; assumption.
Qed.

(** *** clear *)

Lemma clear_inv tm : timer_inv (clear tm).
Proof.
  apply timer_inv_intro.
  - intros k Hk. unfold heap_size in Hk; simpl in Hk. lia.
  - intros k node Hk. simpl in Hk. rewrite lookup_nil in Hk. discriminate.
Qed.

(** *** GetNextTick *)

Lemma GetNextTick_empty (clk : nat -> Z) tm :
  heap_ tm = [] -> GetNextTick clk tm = Ok (-1, tm, []).
Proof.
  intros Hheap. unfold GetNextTick, tick. rewrite Hheap.
  cbn [length tick_loop]. rewrite Hheap. mstep. rewrite Hheap. reflexivity.
Qed.

(** With nothing expired at the reading of [tick], the value returned
    is the distance to the front deadline at the second reading,
    reinterpreted through [size_t] and [int]: the test [res < 0] on a
    [size_t] never fires. *)
Lemma GetNextTick_pending (clk : nat -> Z) tm front rest :
  heap_ tm = front :: rest ->
  0 < duration_cast_MS (expires front - clk 0%nat) ->
  GetNextTick clk tm
  = Ok (to_int (size_t (duration_cast_MS (expires front - clk 1%nat))), tm, []).
Proof.
  intros Hheap Hlive. unfold GetNextTick, tick. rewrite Hheap.
  cbn [length tick_loop]. rewrite Hheap.
  destruct (Z.ltb_spec 0 (duration_cast_MS (expires front - clk 0%nat)))
    as [_ | ?]; [| lia].
  mstep. rewrite Hheap.
  set (res := size_t _).
  assert (Hres : 0 <= res) by (apply Z.mod_pos_bound; reflexivity).
  destruct (Z.ltb_spec res 0) as [? | _]; [lia | reflexivity].
Qed.

(** *** The invariant under the public operations *)

(** C1, amended.  From a state that satisfies the invariant (a binary
    min-heap on [expires], [ref_[heap_[k].id] == k] for every valid [k],
    no id twice) and whose vector leaves room for one more node, each of
    [add], [adjust], [doWork], [pop] and [tick], called with its
    [assert]s satisfied and, for [adjust], with a deadline that is not
    below the deadline of the parent of the adjusted node, ends in one
    of two ways: it returns, and the state satisfies the invariant; or
    it stops at an out-of-bounds element access.  No other fault
    occurs and the loops terminate. *)
Theorem C1_timer_inv_preserved (clk : nat -> Z) (o : op TimeoutCallBack) tm :
  timer_inv tm -> fits tm -> op_pre clk o tm ->
  match run_op clk o tm with
  | Ok tm' => timer_inv tm'
  | Err e => e = OutOfBounds
  end.
Proof.
  intros Hinv Hfits Hpre.
  destruct o as [tid timeout f | tid timeout | tid | |]; simpl in Hpre |- *.
  - apply add_spec; assumption.
  - destruct Hpre as (Hne & Hsome & Hlater). apply adjust_spec; assumption.
  - pose proof (timer_inv_ordered tm Hinv) as Hord.
    destruct Hinv as (_ & Href & _). unfold fits in Hfits.
    pose proof (doWork_spec tm tid Href Hord ltac:(lia)) as Hwork.
    destruct (doWork tm tid) as [[tm' fired] | e]; [| exact Hwork]. mstep.
    destruct Hwork as [Href' Hord']. apply timer_inv_intro; assumption.
  - pose proof (timer_inv_ordered tm Hinv) as Hord.
    destruct Hinv as (_ & Href & _). unfold fits in Hfits.
    pose proof (pop_spec tm Href Hord Hpre ltac:(lia)) as Hpop.
    destruct (pop tm) as [tm' | e]; [| exact Hpop].
    destruct Hpop as (_ & Href' & Hord'). apply timer_inv_intro; assumption.
  - pose proof (timer_inv_ordered tm Hinv) as Hord.
    destruct Hinv as (_ & Href & _). unfold fits in Hfits.
    pose proof (tick_loop_spec (S (length (heap_ tm))) clk 0%nat tm [] Href Hord
                  ltac:(lia) ltac:(lia)) as Htick.
    unfold tick.
    destruct (tick_loop _ _ _ _ _) as [[[tm' fired] k] | e]; [| exact Htick].
    mstep. destruct Htick as [Href' Hord']. apply timer_inv_intro; assumption.
Qed.

(** [adjust] on an id whose node is in the heap never faults when the
    deadline is not moved earlier. *)
Lemma adjust_later_ok (now : Z) tm (tid timeout i : Z) :
  timer_inv tm -> fits tm ->
  ref_ tm !! tid = Some i -> 0 <= i < heap_size tm ->
  exp_at (heap_ tm) i <= now + MS timeout ->
  exists tm', adjust now tm tid timeout = Ok tm' /\ timer_inv tm'.
Proof.
  intros Hinv Hfits Hlook Hi Hlater.
  pose proof (timer_inv_ordered tm Hinv) as Hord.
  assert (Hne : heap_ tm <> []).
  { intros Hnil. unfold heap_size in Hi. rewrite Hnil in Hi. simpl in Hi. lia. }
  pose proof (adjust_spec now tm tid timeout Hinv Hfits Hne
                ltac:(rewrite Hlook; eauto)) as Hspec.
  assert (Hpar : forall i0 : Z, ref_ tm !! tid = Some i0 -> 0 < i0 ->
            exp_at (heap_ tm) ((i0 - 1) / 2) <= now + MS timeout).
  { intros i0 Hi0 Hpos. rewrite Hlook in Hi0. injection Hi0 as <-.
    specialize (Hord i ltac:(lia)). lia. }
  specialize (Hspec Hpar).
  destruct (adjust now tm tid timeout) as [tm' | e] eqn:Hrun; [eauto |].
  exfalso. subst e. revert Hrun. unfold adjust, fits in *.
  destruct (Z.eqb_spec (heap_size tm) 0) as [? | _]; [lia |].
  rewrite bool_decide_eq_true_2 by (rewrite Hlook; eauto). mstep.
  rewrite Hlook. unfold heap_size in Hi.
  destruct (at_in_range (heap_ tm) i Hi) as (old & -> & Hold). mstep.
  set (node := mkNode _ _ _).
  destruct (overwrite_spec tm i old node ltac:(lia) Hold eq_refl)
    as (Hsz1 & Href1 & _).
  set (tm1 := mkTimer _ _) in *. destruct Hinv as (_ & Href & _).
  destruct (siftdown_spec tm1 i (heap_size tm1) (Href1 Href))
    as (moved & tm2 & -> & _); [unfold heap_size in *; lia | lia | lia |].
  discriminate.
Qed.

End WithCallBack.

(** *** Concrete runs *)

(** C1, as stated, fails for [adjust]: two timers due at 60 s and 61 s;
    at clock 1 s the second one is adjusted with a timeout of 10 ms.
    The id exists, [adjust] returns, and the node due at 1.01 s stays
    below the root due at 60 s, since [adjust] only sifts down. *)
Lemma C1_counterexample :
  let tm := mkTimer [mkNode 1 60000000000 tt; mkNode 2 61000000000 tt]
                    (<[2 := 1]> {[1 := 0]}) in
  timer_inv tm /\ fits tm /\ heap_ tm <> [] /\ is_Some (ref_ tm !! 2) /\
  exists tm', adjust 1000000000 tm 2 10 = Ok tm' /\
              heap_ tm' = [mkNode 1 60000000000 tt; mkNode 2 1010000000 tt] /\
              ~ timer_inv tm'.
Proof.
  intros tm. split; [| split; [| split; [| split]]].
  - apply timer_inv_intro.
    + intros k Hk. unfold heap_size, tm in Hk; simpl in Hk.
      assert (k = 1) as -> by lia. vm_compute. discriminate.
    + intros k node Hk. unfold tm in *; simpl in *.
      destruct k as [| [| k]]; simpl in Hk; [| | discriminate];
        injection Hk as <-; reflexivity.
  - reflexivity.
  - discriminate.
  - eexists. reflexivity.
  - eexists. split; [vm_compute; reflexivity |]. split; [reflexivity |].
    intros (Hheap & _). destruct (Hheap 0 ltac:(lia)) as [Hleft _].
    simpl in Hleft. specialize (Hleft ltac:(lia)). vm_compute in Hleft.
    apply Hleft. reflexivity.
Qed.

(** A run of the theorem: a third timer is added to two pending ones. *)
Lemma C1_witness :
  let tm := mkTimer [mkNode 1 60000000000 tt; mkNode 2 61000000000 tt]
                    (<[2 := 1]> {[1 := 0]}) in
  let clk := fun _ : nat => 2000000000 in
  exists tm', run_op clk (OpAdd 3 60000 tt) tm = Ok tm' /\
              heap_ tm' = [mkNode 1 60000000000 tt; mkNode 2 61000000000 tt;
                           mkNode 3 62000000000 tt] /\
              timer_inv tm'.
Proof.
  intros tm clk.
  assert (Hinv : timer_inv tm).
  { apply timer_inv_intro.
    - intros k Hk. unfold heap_size, tm in Hk; simpl in Hk.
      assert (k = 1) as -> by lia. vm_compute. discriminate.
    - intros k node Hk. unfold tm in *; simpl in *.
      destruct k as [| [| k]]; simpl in Hk; [| | discriminate];
        injection Hk as <-; reflexivity. }
  assert (Hfits : fits tm) by reflexivity.
  assert (Hpre : op_pre clk (OpAdd 3 60000 tt) tm) by (simpl; lia).
  pose proof (C1_timer_inv_preserved clk (OpAdd 3 60000 tt) tm Hinv Hfits Hpre)
    as Hrun.
  destruct (run_op clk (OpAdd 3 60000 tt) tm) as [tm' | e] eqn:Heval.
  - exists tm'. split; [reflexivity |]. split; [| exact Hrun].
    vm_compute in Heval. injection Heval as <-. reflexivity.
  - vm_compute in Heval. discriminate.
Defined.

(** The other operations return on suitable states. *)
Example pop_returns :
  let tm := mkTimer [mkNode 1 1000 tt; mkNode 2 2000 tt; mkNode 3 3000 tt]
                    (<[3 := 2]> (<[2 := 1]> {[1 := 0]})) in
  exists tm', pop tm = Ok tm' /\
              heap_ tm' = [mkNode 2 2000 tt; mkNode 3 3000 tt].
Proof. eexists. split; vm_compute; reflexivity. Qed.

Example tick_returns :
  let tm := mkTimer [mkNode 1 1000 tt] {[1 := 0]} in
  exists tm', tick (fun _ => 5000) tm = Ok (tm', [tt], 1%nat) /\ heap_ tm' = [].
Proof. eexists. split; vm_compute; reflexivity. Qed.

Example doWork_returns :
  let tm := mkTimer [mkNode 1 1000 tt; mkNode 2 2000 tt; mkNode 3 3000 tt]
                    (<[3 := 2]> (<[2 := 1]> {[1 := 0]})) in
  exists tm', doWork tm 2 = Ok (tm', [tt]) /\
              heap_ tm' = [mkNode 1 1000 tt; mkNode 3 3000 tt].
Proof. eexists. split; vm_compute; reflexivity. Qed.

(** C2, on the code.  [siftup_] does not stop at the root.  On a heap
    with a single timer, [siftup_(0)] computes the parent index
    [(0 - 1) / 2] in [size_t], which is [(2^64 - 1) / 2], and reads
    [heap_] there.  On a heap of two timers with equal deadlines,
    [siftup_(1)] swaps with the root (the comparison is strict) and
    then does the same.  Both states satisfy the invariant and both
    start indices are in range. *)
Theorem C2_siftup_reads_out_of_bounds :
  let one := mkTimer [mkNode 1 1000 tt] {[1 := 0]} in
  let two := mkTimer [mkNode 1 1000 tt; mkNode 2 1000 tt]
                     (<[2 := 1]> {[1 := 0]}) in
  (timer_inv one /\ in_range one 0 = true /\
   size_t (0 - 1) / 2 = 9223372036854775807 /\
   at_ (heap_ one) (size_t (0 - 1) / 2) = Err OutOfBounds /\
   siftup_ one 0 = Err OutOfBounds) /\
  (timer_inv two /\ in_range two 1 = true /\
   siftup_ two 1 = Err OutOfBounds).
Proof.
  intros one two. split.
  - split; [| repeat split].
    apply timer_inv_intro.
    + intros k Hk. unfold heap_size, one in Hk; simpl in Hk. lia.
    + intros k node Hk. unfold one in *; simpl in *.
      destruct k as [| k]; simpl in Hk; [| discriminate].
      injection Hk as <-. reflexivity.
  - split; [| repeat split].
    apply timer_inv_intro.
    + intros k Hk. unfold heap_size, two in Hk; simpl in Hk.
      assert (k = 1) as -> by lia. vm_compute. discriminate.
    + intros k node Hk. unfold two in *; simpl in *.
      destruct k as [| [| k]]; simpl in Hk; [| | discriminate];
        injection Hk as <-; reflexivity.
Qed.

(** C4, on the code.  One timer is due at 5 ms.  [tick] reads the clock
    at 0 ms and leaves the timer alone; the second reading, in
    [GetNextTick] itself, is 8 ms.  The difference, -3 ms, is stored in
    a [size_t], the clamp [res < 0] does not fire, and the call returns
    -3 where the claim has [max(0, ...) = 0]. *)
Theorem C4_GetNextTick_negative :
  let tm := mkTimer [mkNode 1 5000000 tt] {[1 := 0]} in
  let clk := fun k : nat => match k with O => 0 | S _ => 8000000 end in
  timer_inv tm /\
  tick clk tm = Ok (tm, [], 1%nat) /\
  GetNextTick clk tm = Ok (-3, tm, []).
Proof.
  intros tm clk. split; [| split].
  - apply timer_inv_intro.
    + intros k Hk. unfold heap_size, tm in Hk; simpl in Hk. lia.
    + intros k node Hk. unfold tm in *; simpl in *.
      destruct k as [| k]; simpl in Hk; [| discriminate].
      injection Hk as <-. reflexivity.
  - reflexivity.
  - rewrite (GetNextTick_pending clk tm (mkNode 1 5000000 tt) []);
      [reflexivity | reflexivity | reflexivity].
Qed.

(** *** What the operations do to the nodes *)

Section Frames.

Context {TimeoutCallBack : Type}.

Implicit Types (tm : t TimeoutCallBack) (h : list (TimerNode TimeoutCallBack)).
Implicit Types (x y node : TimerNode TimeoutCallBack).

Lemma in_range_inv tm (i : Z) : in_range tm i = true -> 0 <= i < heap_size tm.
Proof. unfold in_range. intros [H1 H2]%andb_true_iff. lia. Qed.

(** [SwapNode_] exchanges two nodes and nothing else, and keeps [ref_]
    pointing at them. *)
Lemma SwapNode_frame tm (i j : Z) tm' :
  SwapNode_ tm i j = Ok tm' ->
  (0 <= i < heap_size tm /\ 0 <= j < heap_size tm) /\
  heap_size tm' = heap_size tm /\
  heap_ tm' ≡ₚ heap_ tm /\
  (forall k : nat, k <> Z.to_nat i -> k <> Z.to_nat j ->
     heap_ tm' !! k = heap_ tm !! k) /\
  (ref_exact tm -> ref_exact tm') /\
  heap_ tm' !! Z.to_nat j = heap_ tm !! Z.to_nat i.
Proof.
  unfold SwapNode_. intros Hrun.
  apply bind_Ok_inv in Hrun as (_ & Hi%cassert_Ok_inv%in_range_inv & Hrun).
  apply bind_Ok_inv in Hrun as (_ & Hj%cassert_Ok_inv%in_range_inv & Hrun).
  apply bind_Ok_inv in Hrun as (ni & [_ Hni]%at_inv & Hrun).
  apply bind_Ok_inv in Hrun as (nj & [_ Hnj]%at_inv & Hrun).
  injection Hrun as <-. simpl.
  split; [auto |]. split; [| split; [| split; [| split]]].
  5:{ rewrite Hni. apply list_lookup_insert_eq. rewrite length_insert.
      eapply lookup_lt_Some; exact Hnj. }
  - unfold heap_size; simpl. rewrite !length_insert. reflexivity.
  - apply Permutation_insert_swap; assumption.
  - intros k Hki Hkj. rewrite !list_lookup_insert_ne by congruence. reflexivity.
  - intros Hex tid v Hlook. simpl in *.
    assert (Hli : (Z.to_nat i < length (heap_ tm))%nat)
      by (eapply lookup_lt_Some; exact Hni).
    assert (Hlj : (Z.to_nat j < length (heap_ tm))%nat)
      by (eapply lookup_lt_Some; exact Hnj).
    destruct (decide (id ni = tid)) as [<- | Hne1].
    + rewrite lookup_insert_eq in Hlook. injection Hlook as <-.
      split; [lia |]. exists ni. split; [| reflexivity].
      apply list_lookup_insert_eq. rewrite length_insert. exact Hlj.
    + rewrite lookup_insert_ne in Hlook by exact Hne1.
      destruct (decide (id nj = tid)) as [<- | Hne2].
      * rewrite lookup_insert_eq in Hlook. injection Hlook as <-.
        split; [lia |]. exists nj. split; [| reflexivity].
        rewrite list_lookup_insert_ne
          by (intros Heq; apply Hne1; rewrite <- Heq in Hni; congruence).
        apply list_lookup_insert_eq. exact Hli.
      * rewrite lookup_insert_ne in Hlook by exact Hne2.
        destruct (Hex tid v Hlook) as (Hv & node & Hnode & Hid).
        split; [exact Hv |]. exists node. split; [| exact Hid].
        rewrite !list_lookup_insert_ne; [exact Hnode | |].
        -- intros Heq. rewrite Heq in Hni. congruence.
        -- intros Heq. rewrite Heq in Hnj. congruence.
Qed.

(** [siftdown_] permutes the nodes below [n] and touches nothing from
    [n] on. *)
Lemma siftdown_loop_frame (fuel : nat) (n : Z) tm (i j i' : Z) tm' :
  0 <= i < n ->
  siftdown_loop fuel n tm i j = Ok (i', tm') ->
  heap_size tm' = heap_size tm /\
  heap_ tm' ≡ₚ heap_ tm /\
  (forall k : nat, (Z.to_nat n <= k)%nat -> heap_ tm' !! k = heap_ tm !! k) /\
  (ref_exact tm -> ref_exact tm').
Proof.
  revert tm i j. induction fuel as [| fuel IH]; intros tm i j Hi Hrun;
    [discriminate |].
  cbn [siftdown_loop] in Hrun.
  destruct (Z.ltb_spec j n) as [Hj | Hj]; [| injection Hrun as <- <-; auto].
  apply bind_Ok_inv in Hrun as (c & Hc & Hrun).
  assert (Hcn : c < n).
  { destruct (Z.ltb_spec (size_t (j + 1)) n) as [Hr | Hr].
    - apply bind_Ok_inv in Hc as (a & _ & Hc).
      apply bind_Ok_inv in Hc as (b & _ & Hc).
      injection Hc as <-. destruct (node_lt a b); lia.
    - injection Hc as <-. lia. }
  apply bind_Ok_inv in Hrun as (hi & _ & Hrun).
  apply bind_Ok_inv in Hrun as (hc & _ & Hrun).
  destruct (node_lt hi hc); [injection Hrun as <- <-; auto |].
  apply bind_Ok_inv in Hrun as (tm1 & Hswap & Hrun).
  apply SwapNode_frame in Hswap as ((_ & Hc0) & Hsz1 & Hperm1 & Hsame1 & Hex1 & _).
  apply IH in Hrun as (Hsz & Hperm & Hsame & Hex); [| lia].
  split; [lia |]. split; [etransitivity; eassumption |]. split.
  - intros k Hk. rewrite Hsame by exact Hk. apply Hsame1; lia.
  - auto.
Qed.

Lemma siftdown_frame tm (index n : Z) (moved : bool) tm' :
  siftdown_ tm index n = Ok (moved, tm') ->
  index < n ->
  0 <= index /\
  heap_size tm' = heap_size tm /\
  heap_ tm' ≡ₚ heap_ tm /\
  (forall k : nat, (Z.to_nat n <= k)%nat -> heap_ tm' !! k = heap_ tm !! k) /\
  (ref_exact tm -> ref_exact tm').
Proof.
  unfold siftdown_. intros Hrun Hn.
  apply bind_Ok_inv in Hrun as (_ & Hi%cassert_Ok_inv%in_range_inv & Hrun).
  apply bind_Ok_inv in Hrun as (_ & _ & Hrun).
  apply bind_Ok_inv in Hrun as ([i' tm1] & Hloop & Hrun).
  injection Hrun as _ <-. split; [lia |].
  eapply siftdown_loop_frame; [| exact Hloop]. lia.
Qed.

(** [siftup_] from [i] permutes the nodes up to [i] and touches nothing
    above [i]. *)
Lemma siftup_loop_frame (fuel : nat) tm (i : Z) tm' :
  heap_size tm <= PTRDIFF_MAX -> 0 <= i < heap_size tm ->
  siftup_loop fuel tm i (size_t (i - 1) / 2) = Ok tm' ->
  heap_size tm' = heap_size tm /\
  heap_ tm' ≡ₚ heap_ tm /\
  (forall k : nat, (Z.to_nat i < k)%nat -> heap_ tm' !! k = heap_ tm !! k) /\
  (ref_exact tm -> ref_exact tm').
Proof.
  pose proof PTRDIFF_MAX_lt as H64.
  revert tm i. induction fuel as [| fuel IH]; intros tm i Hmax Hi Hrun;
    [discriminate |].
  cbn [siftup_loop] in Hrun.
  destruct (decide (i = 0)) as [-> | Hroot].
  - rewrite siftup_parent_of_root in Hrun.
    rewrite (at_out_of_range (heap_ tm) PTRDIFF_MAX) in Hrun
      by (unfold heap_size in *; lia).
    change (0 <=? PTRDIFF_MAX) with true in Hrun. discriminate.
  - rewrite (size_t_small (i - 1)) in Hrun by lia.
    assert (Hj : 0 <= (i - 1) / 2 < i) by zlia.
    set (j := (i - 1) / 2) in *.
    destruct (Z.leb_spec 0 j) as [_ | ?]; [| lia].
    apply bind_Ok_inv in Hrun as (hj & _ & Hrun).
    apply bind_Ok_inv in Hrun as (hi & _ & Hrun).
    destruct (node_lt hj hi); [injection Hrun as <-; auto |].
    apply bind_Ok_inv in Hrun as (tm1 & Hswap & Hrun).
    apply SwapNode_frame in Hswap as (_ & Hsz1 & Hperm1 & Hsame1 & Hex1 & _).
    apply IH in Hrun as (Hsz & Hperm & Hsame & Hex); [| lia | lia].
    split; [lia |]. split; [etransitivity; eassumption |]. split.
    + intros k Hk. rewrite Hsame by lia. apply Hsame1; lia.
    + auto.
Qed.

Lemma siftup_frame tm (i : Z) tm' :
  heap_size tm <= PTRDIFF_MAX ->
  siftup_ tm i = Ok tm' ->
  heap_size tm' = heap_size tm /\
  heap_ tm' ≡ₚ heap_ tm /\
  (forall k : nat, (Z.to_nat i < k)%nat -> heap_ tm' !! k = heap_ tm !! k) /\
  (ref_exact tm -> ref_exact tm').
Proof.
  unfold siftup_. intros Hmax Hrun.
  apply bind_Ok_inv in Hrun as (_ & Hi%cassert_Ok_inv%in_range_inv & Hrun).
  eapply siftup_loop_frame; eassumption.
Qed.

(** The pattern shared by [add] and [del_]. *)
Lemma sift_both_frame (n : Z) tm (i : Z) tm' :
  heap_size tm <= PTRDIFF_MAX -> i < n ->
  ('(moved, tm2) ← siftdown_ tm i n;
   if moved : bool then Ok tm2 else siftup_ tm2 i) = Ok tm' ->
  heap_size tm' = heap_size tm /\
  heap_ tm' ≡ₚ heap_ tm /\
  (forall k : nat, (Z.to_nat n <= k)%nat -> heap_ tm' !! k = heap_ tm !! k) /\
  (ref_exact tm -> ref_exact tm').
Proof.
  intros Hmax Hn Hrun.
  apply bind_Ok_inv in Hrun as ([moved tm2] & Hdown & Hrun).
  apply siftdown_frame in Hdown as (Hi & Hsz2 & Hperm2 & Hsame2 & Hex2);
    [| exact Hn].
  destruct moved; [injection Hrun as <-; auto |].
  apply siftup_frame in Hrun as (Hsz & Hperm & Hsame & Hex); [| lia].
  split; [lia |]. split; [etransitivity; eassumption |]. split.
  - intros k Hk. rewrite Hsame by lia. apply Hsame2. exact Hk.
  - auto.
Qed.

(** The front node of an ordered heap has the earliest deadline. *)
Lemma root_min (n : Z) h (k : Z) :
  ordered_upto n h -> 0 <= k < n -> exp_at h 0 <= exp_at h k.
Proof.
  intros Hord. remember (Z.to_nat k) as m eqn:Hm. revert k Hm.
  induction m as [m IH] using lt_wf_ind. intros k Hm Hk.
  destruct (decide (k = 0)) as [-> | Hpos]; [lia |].
  transitivity (exp_at h ((k - 1) / 2)).
  - apply (IH (Z.to_nat ((k - 1) / 2))); [zlia | reflexivity | zlia].
  - apply Hord. lia.
Qed.

Lemma front_earliest tm front rest node :
  timer_inv tm -> heap_ tm = front :: rest -> node ∈ heap_ tm ->
  expires front <= expires node.
Proof.
  intros Hinv Hheap [k Hk]%list_elem_of_lookup.
  pose proof (timer_inv_ordered tm Hinv) as Hord.
  pose proof (lookup_lt_Some _ _ _ Hk) as Hlt.
  pose proof (root_min _ _ (Z.of_nat k) Hord ltac:(unfold heap_size; lia)) as Hmin.
  unfold exp_at in Hmin. rewrite Nat2Z.id, Hk in Hmin.
  rewrite Hheap in Hmin. exact Hmin.
Qed.

(** *** add, node by node *)

Lemma add_frame (now : Z) tm (tid timeout : Z) (f : TimeoutCallBack) tm' :
  fits tm -> add now tm tid timeout f = Ok tm' ->
  0 <= tid /\
  (ref_exact tm -> ref_exact tm') /\
  match ref_ tm !! tid with
  | None =>
    heap_size tm' = heap_size tm + 1 /\
    heap_ tm' ≡ₚ heap_ tm ++ [mkNode tid (now + MS timeout) f]
  | Some i =>
    heap_size tm' = heap_size tm /\
    exists old, heap_ tm !! Z.to_nat i = Some old /\ 0 <= i /\
      heap_ tm' ≡ₚ <[Z.to_nat i := mkNode (id old) (now + MS timeout) f]> (heap_ tm)
  end.
Proof.
  unfold fits, add. intros Hfits Hrun.
  apply bind_Ok_inv in Hrun as (_ & Htid%cassert_Ok_inv & Hrun).
  split; [lia |].
  destruct (ref_ tm !! tid) as [i |] eqn:Hlook.
  - apply bind_Ok_inv in Hrun as (old & [Hi Hold]%at_inv & Hrun).
    set (node := mkNode (id old) (now + MS timeout) f) in *.
    destruct (overwrite_spec tm i old node ltac:(lia) Hold eq_refl)
      as (Hsz1 & _).
    set (tm1 := mkTimer _ _) in *.
    apply sift_both_frame in Hrun as (Hsz & Hperm & _ & Hex);
      [| lia | unfold heap_size in *; lia].
    split; [| split; [lia |]].
    + intros Hexact. apply Hex. intros key v Hv. simpl.
      destruct (Hexact key v Hv) as (Hv0 & nd & Hnd & Hid).
      split; [exact Hv0 |].
      destruct (decide (Z.to_nat v = Z.to_nat i)) as [Heq | Hne].
      * exists node. split.
        -- rewrite Heq. apply list_lookup_insert_eq.
           eapply lookup_lt_Some; exact Hold.
        -- simpl. rewrite Heq in Hnd. congruence.
      * exists nd. split; [| exact Hid].
        rewrite list_lookup_insert_ne by congruence. exact Hnd.
    + exists old. split; [exact Hold |]. split; [lia | exact Hperm].
  - set (node := mkNode tid (now + MS timeout) f) in *.
    set (tm1 := mkTimer _ _) in *.
    assert (Hsz1 : heap_size tm1 = heap_size tm + 1).
    { unfold heap_size, tm1; simpl. rewrite length_app; simpl. lia. }
    apply siftup_frame in Hrun as (Hsz & Hperm & _ & Hex); [| lia].
    split; [| split; [lia | exact Hperm]].
    intros Hexact. apply Hex. intros key v Hv. unfold tm1 in *; simpl in *.
    destruct (decide (tid = key)) as [<- | Hne].
    + rewrite lookup_insert_eq in Hv. injection Hv as <-.
      split; [unfold heap_size; lia |]. exists node. split; [| reflexivity].
      unfold heap_size. rewrite Nat2Z.id. apply list_lookup_middle. reflexivity.
    + rewrite lookup_insert_ne in Hv by exact Hne.
      destruct (Hexact key v Hv) as (Hv0 & nd & Hnd & Hid).
      split; [exact Hv0 |]. exists nd. split; [| exact Hid].
      apply lookup_app_l_Some. exact Hnd.
Qed.

(** *** del_, node by node *)

Lemma del_frame tm (index : Z) tm' :
  heap_size tm <= PTRDIFF_MAX -> del_ tm index = Ok tm' ->
  0 <= index /\
  heap_size tm' = heap_size tm - 1 /\
  (ref_exact tm -> ref_exact tm') /\
  exists removed, heap_ tm !! Z.to_nat index = Some removed /\
    heap_ tm ≡ₚ heap_ tm' ++ [removed] /\
    ref_ tm' !! id removed = None.
Proof.
  pose proof PTRDIFF_MAX_lt as H64. unfold del_. intros Hmax Hrun.
  apply bind_Ok_inv in Hrun as (_ & Hpre%cassert_Ok_inv & Hrun).
  apply andb_true_iff in Hpre as [_ Hi%in_range_inv].
  apply bind_Ok_inv in Hrun as (_ & _ & Hrun).
  rewrite (size_t_small (heap_size tm - 1)) in Hrun by lia.
  set (n := heap_size tm - 1) in *.
  apply bind_Ok_inv in Hrun as (tm1 & Hsift & Hrun).
  destruct (lookup_lt_is_Some_2 (heap_ tm) (Z.to_nat index)) as [removed Hrem];
    [unfold heap_size in *; lia |].
  assert (Htm1 : heap_size tm1 = heap_size tm /\ heap_ tm1 ≡ₚ heap_ tm /\
                 heap_ tm1 !! Z.to_nat n = Some removed /\
                 (ref_exact tm -> ref_exact tm1)).
  { destruct (Z.ltb_spec index n) as [Hlt | Hge].
    - apply bind_Ok_inv in Hsift as (tmA & Hswap & Hsift).
      apply SwapNode_frame in Hswap as (_ & HszA & HpermA & _ & HexA & HlastA).
      apply sift_both_frame in Hsift as (Hsz & Hperm & Hsame & Hex);
        [| lia | exact Hlt].
      split; [lia |]. split; [etransitivity; eassumption |]. split; [| auto].
      rewrite Hsame by lia. rewrite HlastA. exact Hrem.
    - injection Hsift as <-. split; [reflexivity |]. split; [reflexivity |].
      split; [| auto]. replace n with index by lia. exact Hrem. }
  destruct Htm1 as (Hsz1 & Hperm1 & Hlast1 & Hex1).
  assert (Hlast : last (heap_ tm1) = Some removed).
  { rewrite last_lookup, <- Hlast1. f_equal. unfold heap_size in *. lia. }
  rewrite Hlast in Hrun. injection Hrun as <-.
  apply last_Some in Hlast as [front Hfront].
  simpl. rewrite Hfront, removelast_last.
  split; [lia |]. split; [| split].
  - unfold heap_size in *; simpl. rewrite Hfront, length_app in Hsz1.
    simpl in Hsz1. lia.
  - intros Hexact key v Hv. simpl in *.
    apply lookup_delete_Some in Hv as [Hkey Hv].
    destruct (Hex1 Hexact key v Hv) as (Hv0 & nd & Hnd & Hid).
    split; [exact Hv0 |]. exists nd. split; [| exact Hid].
    rewrite Hfront in Hnd. apply lookup_app_Some in Hnd as [Hnd | [_ Hnd]];
      [exact Hnd |].
    apply list_lookup_singleton_Some in Hnd as [_ <-]. congruence.
  - exists removed. split; [exact Hrem |]. split.
    + rewrite <- Hfront. symmetry. exact Hperm1.
    + simpl. apply lookup_delete_eq.
Qed.

(** X1.  After [add] returns, the timer maps the id to a node
    carrying the new deadline and callback, every node of another id is
    kept, and the size grows by one exactly for a new id. *)
Theorem add_registers (now : Z) tm (tid timeout : Z) (f : TimeoutCallBack) tm' :
  timer_inv tm -> ref_exact tm -> fits tm ->
  add now tm tid timeout f = Ok tm' ->
  timer_inv tm' /\ ref_exact tm' /\
  (exists i, ref_ tm' !! tid = Some i /\
     heap_ tm' !! Z.to_nat i = Some (mkNode tid (now + MS timeout) f)) /\
  (forall node, id node <> tid -> node ∈ heap_ tm' <-> node ∈ heap_ tm) /\
  heap_size tm' =
    (if ref_ tm !! tid is Some _ then heap_size tm else heap_size tm + 1).
Proof.
  intros Hinv Hexact Hfits Hrun.
  destruct (add_frame now tm tid timeout f tm' Hfits Hrun) as (Htid & Hex & Hnodes).
  pose proof (add_spec now tm tid timeout f Hinv Hfits Htid) as Hspec.
  rewrite Hrun in Hspec. split; [exact Hspec |]. split; [auto |].
  assert (Hreg : forall node, node ∈ heap_ tm' -> id node = tid ->
            exists i, ref_ tm' !! tid = Some i /\
                      heap_ tm' !! Z.to_nat i = Some node).
  { intros node [k Hk]%list_elem_of_lookup Hid. destruct Hspec as (_ & Href' & _).
    exists (Z.of_nat k). rewrite Nat2Z.id. split; [| exact Hk].
    rewrite <- Hid. apply Href'. exact Hk. }
  destruct (ref_ tm !! tid) as [i |] eqn:Hlook.
  - destruct Hnodes as (Hsz & old & Hold & Hi & Hperm).
    destruct (Hexact tid i Hlook) as (_ & old' & Hold' & Hid).
    assert (old' = old) as -> by congruence.
    pose proof (lookup_lt_Some _ _ _ Hold) as Hlt.
    split; [| split; [| exact Hsz]].
    + apply Hreg; [| reflexivity]. rewrite Hperm, <- Hid.
      apply list_elem_of_lookup. exists (Z.to_nat i).
      apply list_lookup_insert_eq. exact Hlt.
    + intros node Hne. rewrite Hperm. rewrite !list_elem_of_lookup.
      split; intros [k Hk]; exists k.
      * destruct (decide (k = Z.to_nat i)) as [-> | Hki].
        -- rewrite list_lookup_insert_eq in Hk by exact Hlt.
           injection Hk as <-. simpl in Hne. congruence.
        -- rewrite list_lookup_insert_ne in Hk by congruence. exact Hk.
      * destruct (decide (k = Z.to_nat i)) as [-> | Hki].
        -- congruence.
        -- rewrite list_lookup_insert_ne by congruence. exact Hk.
  - destruct Hnodes as (Hsz & Hperm).
    split; [| split; [| exact Hsz]].
    + apply Hreg; [| reflexivity]. rewrite Hperm. set_solver.
    + intros node Hne. rewrite Hperm. rewrite elem_of_app, list_elem_of_singleton.
      split; [intros [H | ->]; [exact H | simpl in Hne; congruence] | auto].
Qed.

Lemma pop_frame tm tm' :
  timer_inv tm -> heap_size tm <= PTRDIFF_MAX -> pop tm = Ok tm' ->
  exists root, head (heap_ tm) = Some root /\
    heap_ tm ≡ₚ heap_ tm' ++ [root] /\
    (forall node, node ∈ heap_ tm -> expires root <= expires node) /\
    ref_ tm' !! id root = None /\
    timer_inv tm' /\ (ref_exact tm -> ref_exact tm').
Proof.
  intros Hinv Hfits Hrun.
  pose proof (timer_inv_ordered tm Hinv) as Hord.
  assert (Href : ref_ok tm) by (destruct Hinv as (_ & H & _); exact H).
  unfold pop in Hrun.
  apply bind_Ok_inv in Hrun as (_ & Hne%cassert_Ok_inv & Hrun).
  apply negb_true_iff, Z.eqb_neq in Hne.
  pose proof (del_spec tm 0 Href Hord ltac:(unfold heap_size in *; lia) ltac:(lia))
    as Hspec.
  rewrite Hrun in Hspec. destruct Hspec as (_ & Href' & Hord').
  apply del_frame in Hrun as (_ & _ & Hex & root & Hroot & Hperm & Hgone);
    [| lia].
  exists root. change (Z.to_nat 0) with 0%nat in Hroot.
  destruct (heap_ tm) as [| front rest] eqn:Hheap; [discriminate |].
  injection Hroot as ->. split; [reflexivity |]. split; [exact Hperm |].
  split; [| split; [exact Hgone |]].
  - intros node Hin. eapply (front_earliest tm); eauto. rewrite Hheap. exact Hin.
  - split; [apply timer_inv_intro; assumption | auto].
Qed.

(** X2.  After [pop] returns, exactly the front node is gone: it
    had the earliest deadline of all nodes, its id is no longer a key of
    [ref_], and the other nodes are all kept. *)
Theorem pop_removes_earliest tm tm' :
  timer_inv tm -> heap_size tm <= PTRDIFF_MAX -> pop tm = Ok tm' ->
  exists root, head (heap_ tm) = Some root /\
    heap_ tm ≡ₚ heap_ tm' ++ [root] /\
    (forall node, node ∈ heap_ tm -> expires root <= expires node) /\
    ref_ tm' !! id root = None /\
    timer_inv tm' /\ (ref_exact tm -> ref_exact tm').
Proof. apply pop_frame. Qed.

(** X3.  [doWork] on an id that is not in the timer changes
    nothing and runs nothing; on an id that is, it runs the callback of
    that node once and removes exactly that node. *)
Theorem doWork_effect tm (tid : Z) tm' (fired : list TimeoutCallBack) :
  timer_inv tm -> ref_exact tm -> fits tm ->
  doWork tm tid = Ok (tm', fired) ->
  timer_inv tm' /\ ref_exact tm' /\
  match ref_ tm !! tid with
  | None => tm' = tm /\ fired = []
  | Some i =>
    exists node, heap_ tm !! Z.to_nat i = Some node /\ id node = tid /\
      fired = [cb node] /\
      heap_ tm ≡ₚ heap_ tm' ++ [node] /\
      ref_ tm' !! tid = None
  end.
Proof.
  intros Hinv Hexact Hfits Hrun. unfold fits in Hfits.
  pose proof (timer_inv_ordered tm Hinv) as Hord.
  assert (Href : ref_ok tm) by (destruct Hinv as (_ & H & _); exact H).
  unfold doWork in Hrun.
  destruct (ref_ tm !! tid) as [i |] eqn:Hlook.
  - destruct (Hexact tid i Hlook) as (Hi & node & Hnode & Hid).
    destruct (heap_ tm) as [| front rest] eqn:Hheap;
      [rewrite lookup_nil in Hnode; discriminate |].
    rewrite <- Hheap in *.
    apply bind_Ok_inv in Hrun as (node' & [Hir Hnode']%at_inv & Hrun).
    assert (node' = node) as -> by congruence.
    apply bind_Ok_inv in Hrun as (tm1 & Hdel & Hrun).
    injection Hrun as <- <-.
    pose proof (del_spec tm i Href Hord ltac:(unfold heap_size; lia) ltac:(lia))
      as Hspec.
    rewrite Hdel in Hspec. destruct Hspec as (_ & Href' & Hord').
    apply del_frame in Hdel as (_ & _ & Hex & removed & Hrem & Hperm & Hgone);
      [| lia].
    assert (removed = node) as -> by congruence.
    split; [apply timer_inv_intro; assumption |]. split; [auto |].
    exists node. rewrite Hid in Hgone. auto.
  - destruct (heap_ tm) as [| front rest] eqn:Hheap;
      injection Hrun as <- <-; auto.
Qed.

(** *** tick and GetNextTick *)

Lemma duration_cast_MS_mono (a b : Z) :
  a <= b -> duration_cast_MS a <= duration_cast_MS b.
Proof. intros Hab. unfold duration_cast_MS. apply Z.quot_le_mono; lia. Qed.

Lemma tick_loop_frame (fuel : nat) (clk : nat -> Z) (k : nat) tm
    (fired : list TimeoutCallBack) tm' fired' (k' : nat) :
  timer_inv tm -> heap_size tm <= PTRDIFF_MAX ->
  tick_loop fuel clk k tm fired = Ok (tm', fired', k') ->
  timer_inv tm' /\ (ref_exact tm -> ref_exact tm') /\
  exists removed,
    heap_ tm ≡ₚ removed ++ heap_ tm' /\
    fired' = fired ++ (cb <$> removed) /\
    k' = (k + length removed + (if heap_ tm' is [] then 0 else 1))%nat /\
    Forall (fun r => exists j : nat,
              (k <= j < k')%nat /\ duration_cast_MS (expires r - clk j) <= 0)
           removed /\
    Forall (fun nd => 0 < duration_cast_MS (expires nd - clk (pred k')))
           (heap_ tm').
Proof.
  revert k tm fired.
  induction fuel as [| fuel IH]; intros k tm fired Hinv Hmax Hrun;
    [discriminate |].
  cbn [tick_loop] in Hrun.
  destruct (heap_ tm) as [| node rest] eqn:Hheap.
  - injection Hrun as <- <- <-. split; [exact Hinv |]. split; [auto |].
    exists []. rewrite Hheap. simpl. rewrite app_nil_r.
    split; [reflexivity |]. split; [reflexivity |]. split; [lia |].
    split; constructor.
  - destruct (Z.ltb_spec 0 (duration_cast_MS (expires node - clk k)))
      as [Hlive | Hdue].
    + injection Hrun as <- <- <-. split; [exact Hinv |]. split; [auto |].
      exists []. rewrite Hheap. simpl. rewrite app_nil_r.
      split; [reflexivity |]. split; [reflexivity |]. split; [lia |].
      split; [constructor |].
      rewrite <- Hheap. apply Forall_forall. intros nd Hnd.
      pose proof (front_earliest tm node rest nd Hinv Hheap Hnd) as Hle.
      pose proof (duration_cast_MS_mono (expires node - clk k)
                    (expires nd - clk k) ltac:(lia)). lia.
    + apply bind_Ok_inv in Hrun as (tm1 & Hpop & Hrun).
      apply pop_frame in Hpop
        as (root & Hroot & Hperm & _ & _ & Hinv1 & Hex1);
        [| exact Hinv | exact Hmax].
      rewrite Hheap in Hroot. injection Hroot as <-.
      assert (Hsz1 : heap_size tm1 <= PTRDIFF_MAX).
      { apply Permutation_length in Hperm. rewrite Hheap in Hperm.
        unfold heap_size in *. rewrite Hheap in Hmax.
        rewrite length_app in Hperm. simpl in *. lia. }
      apply IH in Hrun as (Hinv' & Hex' & removed & Hperm' & Hfired & Hk & Hdue' & Hlive');
        [| exact Hinv1 | exact Hsz1].
      split; [exact Hinv' |]. split; [auto |].
      exists (node :: removed). split; [| split; [| split; [| split]]].
      * rewrite <- Hheap, Hperm, Hperm'.
        rewrite Permutation_app_comm. reflexivity.
      * rewrite Hfired. simpl. rewrite <- app_assoc. reflexivity.
      * simpl. lia.
      * constructor.
        -- exists k. split; [lia | lia].
        -- eapply Forall_impl; [exact Hdue' |]. simpl.
           intros r (j & Hj & Hr). exists j. split; [lia | exact Hr].
      * exact Hlive'.
Qed.

(** X4.  When [tick] returns: the callbacks it ran are those of
    the nodes it removed, in order; each removed node was due at one of
    the clock readings of the call; every node that stays had more than
    0 ms left at the last reading; and the clock was read once per
    removed node, plus once when a node stays. *)
Theorem tick_fires_expired (clk : nat -> Z) tm tm'
    (fired : list TimeoutCallBack) (k' : nat) :
  timer_inv tm -> fits tm ->
  tick clk tm = Ok (tm', fired, k') ->
  timer_inv tm' /\ (ref_exact tm -> ref_exact tm') /\
  exists removed,
    heap_ tm ≡ₚ removed ++ heap_ tm' /\
    fired = cb <$> removed /\
    k' = (length removed + (if heap_ tm' is [] then 0 else 1))%nat /\
    Forall (fun r => exists j : nat,
              (j < k')%nat /\ duration_cast_MS (expires r - clk j) <= 0)
           removed /\
    Forall (fun nd => 0 < duration_cast_MS (expires nd - clk (pred k')))
           (heap_ tm').
Proof.
  intros Hinv Hfits Hrun. unfold tick, fits in *.
  apply tick_loop_frame in Hrun
    as (Hinv' & Hex & removed & Hperm & Hfired & Hk & Hdue & Hlive);
    [| exact Hinv | lia].
  split; [exact Hinv' |]. split; [exact Hex |]. exists removed.
  split; [exact Hperm |]. split; [exact Hfired |]. split; [exact Hk |].
  split; [| exact Hlive].
  eapply Forall_impl; [exact Hdue |]. simpl.
  intros r (j & Hj & Hr). exists j. split; [lia | exact Hr].
Qed.

Lemma to_int_small (z : Z) : 0 <= z < 2 ^ 31 -> to_int (size_t z) = z.
Proof.
  intros Hz. rewrite size_t_small by lia. unfold to_int.
  rewrite Z.mod_small by lia. lia.
Qed.

(** X5.  With a clock that stands still during the call,
    [GetNextTick] returns -1 when no timer is left after [tick], and
    otherwise the whole milliseconds up to the earliest deadline, a
    strictly positive number (as long as it fits an [int]). *)
Theorem GetNextTick_frozen_clock (now : Z) tm (r : Z) tm'
    (fired : list TimeoutCallBack) :
  timer_inv tm -> fits tm ->
  GetNextTick (fun _ => now) tm = Ok (r, tm', fired) ->
  timer_inv tm' /\
  match heap_ tm' with
  | [] => r = -1
  | front :: _ =>
    0 < duration_cast_MS (expires front - now) /\
    (forall node, node ∈ heap_ tm' -> expires front <= expires node) /\
    (duration_cast_MS (expires front - now) < 2 ^ 31 ->
     r = duration_cast_MS (expires front - now))
  end.
Proof.
  intros Hinv Hfits Hrun. unfold GetNextTick in Hrun.
  apply bind_Ok_inv in Hrun as ([[tm1 fired1] k] & Htick & Hrun).
  unfold tick, fits in *.
  apply tick_loop_frame in Htick
    as (Hinv1 & _ & removed & _ & _ & _ & _ & Hlive); [| exact Hinv | lia].
  injection Hrun as <- <- <-. split; [exact Hinv1 |].
  destruct (heap_ tm1) as [| front rest] eqn:Hheap; [reflexivity |].
  apply Forall_cons in Hlive as [Hfront _].
  split; [exact Hfront |]. split.
  - intros node Hin. eapply (front_earliest tm1); eauto. rewrite Hheap. exact Hin.
  - intros Hint. set (d := duration_cast_MS _) in *.
    assert (Hres : 0 <= size_t d) by (apply Z.mod_pos_bound; reflexivity).
    destruct (Z.ltb_spec (size_t d) 0) as [? | _]; [lia |].
    apply to_int_small. lia.
Qed.

(** *** adjust, node by node *)

Lemma adjust_frame (now : Z) tm (tid timeout : Z) tm' :
  fits tm -> adjust now tm tid timeout = Ok tm' ->
  heap_size tm' = heap_size tm /\
  (ref_exact tm -> ref_exact tm') /\
  exists i old, ref_ tm !! tid = Some i /\ 0 <= i /\
    heap_ tm !! Z.to_nat i = Some old /\
    heap_ tm' ≡ₚ <[Z.to_nat i := mkNode (id old) (now + MS timeout) (cb old)]>
                   (heap_ tm).
Proof.
  unfold fits, adjust. intros Hfits Hrun.
  apply bind_Ok_inv in Hrun as (_ & _ & Hrun).
  destruct (ref_ tm !! tid) as [i |] eqn:Hlook; [| discriminate].
  apply bind_Ok_inv in Hrun as (old & [Hi Hold]%at_inv & Hrun).
  set (node := mkNode (id old) (now + MS timeout) (cb old)) in *.
  destruct (overwrite_spec tm i old node ltac:(lia) Hold eq_refl) as (Hsz1 & _).
  set (tm1 := mkTimer _ _) in *.
  apply bind_Ok_inv in Hrun as ([moved tm2] & Hdown & Hrun).
  injection Hrun as <-.
  apply siftdown_frame in Hdown as (_ & Hsz & Hperm & _ & Hex);
    [| unfold heap_size in *; lia].
  split; [lia |]. split.
  - intros Hexact. apply Hex. intros key v Hv. simpl.
    destruct (Hexact key v Hv) as (Hv0 & nd & Hnd & Hid).
    split; [exact Hv0 |].
    destruct (decide (Z.to_nat v = Z.to_nat i)) as [Heq | Hne].
    + exists node. split.
      * rewrite Heq. apply list_lookup_insert_eq.
        eapply lookup_lt_Some; exact Hold.
      * simpl. rewrite Heq in Hnd. congruence.
    + exists nd. split; [| exact Hid].
      rewrite list_lookup_insert_ne by congruence. exact Hnd.
  - exists i, old. split; [reflexivity |]. split; [lia |].
    split; [exact Hold | exact Hperm].
Qed.

(** [adjust] with a deadline that is not earlier, node by node. *)
Lemma adjust_later_frame (now : Z) tm (tid timeout i : Z) :
  timer_inv tm -> ref_exact tm -> fits tm ->
  ref_ tm !! tid = Some i ->
  exp_at (heap_ tm) i <= now + MS timeout ->
  exists tm' i' old,
    adjust now tm tid timeout = Ok tm' /\
    timer_inv tm' /\ ref_exact tm' /\
    heap_ tm !! Z.to_nat i = Some old /\
    ref_ tm' !! tid = Some i' /\
    heap_ tm' !! Z.to_nat i' = Some (mkNode tid (now + MS timeout) (cb old)) /\
    (forall node, id node <> tid -> node ∈ heap_ tm' <-> node ∈ heap_ tm) /\
    heap_size tm' = heap_size tm.
Proof.
  intros Hinv Hexact Hfits Hlook Hlater.
  destruct (Hexact tid i Hlook) as (Hi0 & old & Hold & Hid).
  pose proof (lookup_lt_Some _ _ _ Hold) as Hlt.
  destruct (adjust_later_ok now tm tid timeout i Hinv Hfits Hlook
              ltac:(unfold heap_size; lia) Hlater) as (tm' & Hrun & Hinv').
  destruct (adjust_frame now tm tid timeout tm' Hfits Hrun)
    as (Hsz & Hex & i0 & old0 & Hlook0 & _ & Hold0 & Hperm).
  assert (i0 = i) as -> by congruence.
  assert (old0 = old) as -> by congruence.
  set (node := mkNode tid (now + MS timeout) (cb old)).
  rewrite Hid in Hperm. fold node in Hperm.
  assert (Hin : node ∈ heap_ tm').
  { rewrite Hperm. apply list_elem_of_lookup. exists (Z.to_nat i).
    apply list_lookup_insert_eq. exact Hlt. }
  apply list_elem_of_lookup in Hin as [k Hk].
  exists tm', (Z.of_nat k), old. rewrite Nat2Z.id.
  split; [exact Hrun |]. split; [exact Hinv' |]. split; [auto |].
  split; [exact Hold |]. split; [| split; [exact Hk |]].
  - destruct Hinv' as (_ & Href' & _). apply (Href' k node Hk).
  - split; [| exact Hsz].
    intros nd Hne. rewrite Hperm, !list_elem_of_lookup.
    split; intros [m Hm]; exists m.
    + destruct (decide (m = Z.to_nat i)) as [-> | Hmi].
      * rewrite list_lookup_insert_eq in Hm by exact Hlt.
        injection Hm as <-. simpl in Hne. congruence.
      * rewrite list_lookup_insert_ne in Hm by congruence. exact Hm.
    + destruct (decide (m = Z.to_nat i)) as [-> | Hmi].
      * congruence.
      * rewrite list_lookup_insert_ne by congruence. exact Hm.
Qed.

(** X6.  [adjust] on an id of the timer with a deadline that is
    not earlier than the current one always returns; afterwards the id
    maps to a node with the new deadline and the old callback, nodes of
    other ids are kept, and the invariant holds. *)
Theorem adjust_extends (now : Z) tm (tid timeout i : Z) :
  timer_inv tm -> ref_exact tm -> fits tm ->
  ref_ tm !! tid = Some i ->
  exp_at (heap_ tm) i <= now + MS timeout ->
  exists tm' i' old,
    adjust now tm tid timeout = Ok tm' /\
    timer_inv tm' /\ ref_exact tm' /\
    heap_ tm !! Z.to_nat i = Some old /\
    ref_ tm' !! tid = Some i' /\
    heap_ tm' !! Z.to_nat i' = Some (mkNode tid (now + MS timeout) (cb old)) /\
    (forall node, id node <> tid -> node ∈ heap_ tm' <-> node ∈ heap_ tm) /\
    heap_size tm' = heap_size tm.
Proof. apply adjust_later_frame. Qed.

(** X7.  Whatever public operation returns keeps [ref_] free of
    ids that are not in the heap. *)
Theorem ref_exact_preserved (clk : nat -> Z) (o : op TimeoutCallBack) tm tm' :
  timer_inv tm -> ref_exact tm -> fits tm ->
  run_op clk o tm = Ok tm' ->
  ref_exact tm'.
Proof.
  intros Hinv Hexact Hfits Hrun.
  destruct o as [tid timeout f | tid timeout | tid | |]; simpl in Hrun.
  - apply add_frame in Hrun as (_ & Hex & _); auto.
  - apply adjust_frame in Hrun as (_ & Hex & _); auto.
  - apply bind_Ok_inv in Hrun as ([tm1 fired] & Hwork & Hrun).
    injection Hrun as <-. unfold doWork in Hwork.
    destruct (heap_ tm) as [| front rest] eqn:Hheap;
      [injection Hwork as <- _; exact Hexact |].
    destruct (ref_ tm !! tid) as [i |]; [| injection Hwork as <- _; exact Hexact].
    apply bind_Ok_inv in Hwork as (node & _ & Hwork).
    apply bind_Ok_inv in Hwork as (tm2 & Hdel & Hwork).
    injection Hwork as <- _.
    apply del_frame in Hdel as (_ & _ & Hex & _); [auto | unfold fits in *; lia].
  - unfold pop in Hrun. apply bind_Ok_inv in Hrun as (_ & _ & Hdel).
    apply del_frame in Hdel as (_ & _ & Hex & _); [auto | unfold fits in *; lia].
  - apply bind_Ok_inv in Hrun as ([[tm1 fired] k] & Htick & Hrun).
    injection Hrun as <-.
    unfold tick, fits in *.
    apply tick_loop_frame in Htick as (_ & Hex & _); [auto | exact Hinv | lia].
Qed.

(** X8.  Unlike [siftup_], [siftdown_] stays inside the
    vector: for an index below [n <= heap_.size()] it always returns,
    permuting the nodes, keeping [ref_] in step, and keeping an ordered
    prefix ordered. *)
Theorem siftdown_in_bounds tm (index n : Z) :
  ref_ok tm ->
  0 <= index < n -> n <= heap_size tm -> heap_size tm <= PTRDIFF_MAX ->
  exists moved tm',
    siftdown_ tm index n = Ok (moved, tm') /\
    heap_ tm' ≡ₚ heap_ tm /\
    ref_ok tm' /\
    (ordered_upto n (heap_ tm) -> ordered_upto n (heap_ tm')).
Proof.
  intros Href Hi Hn Hmax.
  destruct (siftdown_spec tm index n Href Hi Hn Hmax)
    as (moved & tm' & Hrun & _ & Href' & Hord & _).
  exists moved, tm'. split; [exact Hrun |].
  apply siftdown_frame in Hrun as (_ & _ & Hperm & _); [| lia].
  split; [exact Hperm |]. split; [exact Href' |].
  intros Hordered. apply Hord.
  - apply ordered_hole; [exact Hordered | lia].
  - intros Hpos. apply Hordered. lia.
Qed.

End Frames.

(** *** Runs on three pending timers *)

Lemma three_timers_inv : timer_inv three_timers.
Proof.
  apply timer_inv_intro.
  - intros k Hk. unfold heap_size, three_timers in Hk; simpl in Hk.
    assert (k = 1 \/ k = 2) as [-> | ->] by lia; vm_compute; discriminate.
  - intros k node Hk. unfold three_timers in *; simpl in *.
    destruct k as [| [| [| k]]]; simpl in Hk; [| | | discriminate];
      injection Hk as <-; reflexivity.
Qed.

Lemma three_timers_exact : ref_exact three_timers.
Proof.
  intros tid i Hlook. unfold three_timers in *; simpl in *.
  apply lookup_insert_Some in Hlook as [[<- <-] | [_ Hlook]];
    [split; [lia | eexists; split; reflexivity] |].
  apply lookup_insert_Some in Hlook as [[<- <-] | [_ Hlook]];
    [split; [lia | eexists; split; reflexivity] |].
  apply lookup_singleton_Some in Hlook as [<- <-].
  split; [lia | eexists; split; reflexivity].
Qed.

Lemma three_timers_fits : fits three_timers.
Proof. reflexivity. Qed.

Lemma add_registers_witness :
  exists tm', add 2000000000 three_timers 4 60000 tt = Ok tm' /\
    timer_inv tm' /\ ref_exact tm' /\
    (exists i, ref_ tm' !! 4 = Some i /\
       heap_ tm' !! Z.to_nat i = Some (mkNode 4 (2000000000 + MS 60000) tt)).
Proof.
  destruct (add 2000000000 three_timers 4 60000 tt) as [tm' | e] eqn:Hrun;
    [| vm_compute in Hrun; discriminate].
  exists tm'. split; [reflexivity |].
  destruct (add_registers 2000000000 three_timers 4 60000 tt tm'
              three_timers_inv three_timers_exact three_timers_fits Hrun)
    as (Hinv & Hex & Hreg & _).
  auto.
Defined.

Lemma pop_removes_earliest_witness :
  exists tm' root, pop three_timers = Ok tm' /\
    head (heap_ three_timers) = Some root /\
    heap_ three_timers ≡ₚ heap_ tm' ++ [root] /\
    ref_ tm' !! id root = None.
Proof.
  destruct (pop three_timers) as [tm' | e] eqn:Hrun;
    [| vm_compute in Hrun; discriminate].
  destruct (pop_removes_earliest three_timers tm' three_timers_inv
              ltac:(vm_compute; discriminate) Hrun)
    as (root & Hroot & Hperm & _ & Hgone & _).
  exists tm', root. auto.
Defined.

Lemma doWork_effect_witness :
  exists tm', doWork three_timers 2 = Ok (tm', [tt]) /\
    timer_inv tm' /\ ref_exact tm' /\ ref_ tm' !! 2 = None.
Proof.
  destruct (doWork three_timers 2) as [[tm' fired] | e] eqn:Hrun;
    [| vm_compute in Hrun; discriminate].
  pose proof (doWork_effect three_timers 2 tm' fired three_timers_inv
                three_timers_exact three_timers_fits Hrun)
    as (Hinv & Hex & Hnode).
  change (ref_ three_timers !! 2) with (Some 1) in Hnode.
  destruct Hnode as (node & Hlook & _ & Hfired & _ & Hgone).
  injection Hlook as <-. subst fired. exists tm'. auto.
Defined.

Lemma tick_fires_expired_witness :
  exists tm' removed, tick (fun _ => 60500000000) three_timers = Ok (tm', [tt], 2%nat) /\
    heap_ three_timers ≡ₚ removed ++ heap_ tm' /\
    Forall (fun nd => 0 < duration_cast_MS (expires nd - 60500000000))
           (heap_ tm').
Proof.
  destruct (tick (fun _ => 60500000000) three_timers)
    as [[[tm' fired] k] | e] eqn:Hrun; [| vm_compute in Hrun; discriminate].
  destruct (tick_fires_expired (fun _ => 60500000000) three_timers tm' fired k
              three_timers_inv three_timers_fits Hrun)
    as (_ & _ & removed & Hperm & _ & _ & _ & Hlive).
  exists tm', removed. split; [| auto].
  vm_compute in Hrun. injection Hrun as <- <- <-. reflexivity.
Defined.

Lemma GetNextTick_frozen_clock_witness :
  exists tm' fired, GetNextTick (fun _ => 60500000000) three_timers
                    = Ok (500, tm', fired) /\ timer_inv tm'.
Proof.
  destruct (GetNextTick (fun _ => 60500000000) three_timers)
    as [[[r tm'] fired] | e] eqn:Hrun; [| vm_compute in Hrun; discriminate].
  destruct (GetNextTick_frozen_clock 60500000000 three_timers r tm' fired
              three_timers_inv three_timers_fits Hrun) as (Hinv & _).
  exists tm', fired. split; [| exact Hinv].
  vm_compute in Hrun. injection Hrun as <- <- <-. reflexivity.
Defined.

Lemma adjust_extends_witness :
  exists tm' i', adjust 2000000000 three_timers 1 60000 = Ok tm' /\
    timer_inv tm' /\ ref_ tm' !! 1 = Some i' /\
    heap_ tm' !! Z.to_nat i' = Some (mkNode 1 (2000000000 + MS 60000) tt).
Proof.
  destruct (adjust_extends 2000000000 three_timers 1 60000 0
              three_timers_inv three_timers_exact three_timers_fits
              ltac:(reflexivity) ltac:(vm_compute; discriminate))
    as (tm' & i' & old & Hrun & Hinv & _ & Hold & Hlook & Hnode & _).
  injection Hold as <-. exists tm', i'. auto.
Defined.

Lemma ref_exact_preserved_witness :
  exists tm', run_op (fun _ => 0) OpPop three_timers = Ok tm' /\ ref_exact tm'.
Proof.
  destruct (run_op (fun _ => 0) OpPop three_timers) as [tm' | e] eqn:Hrun;
    [| vm_compute in Hrun; discriminate].
  exists tm'. split; [reflexivity |].
  apply (ref_exact_preserved (fun _ => 0) OpPop three_timers tm'
           three_timers_inv three_timers_exact three_timers_fits Hrun).
Defined.

Lemma siftdown_in_bounds_witness :
  exists moved tm', siftdown_ three_timers 0 3 = Ok (moved, tm') /\
    heap_ tm' ≡ₚ heap_ three_timers /\ ref_ok tm'.
Proof.
  destruct (siftdown_in_bounds three_timers 0 3)
    as (moved & tm' & Hrun & Hperm & Href & _).
  - destruct three_timers_inv as (_ & Href & _). exact Href.
  - lia.
  - vm_compute. discriminate.
  - vm_compute. discriminate.
  - exists moved, tm'. auto.
Defined.

End HeapTimerFacts.

(* ---------------------------------------------------------------------- *)
(** ** Epoller *)
(* ---------------------------------------------------------------------- *)

Module EpollerFacts.

Import Epoller.

(** A call on a valid descriptor does reach the kernel: the log of
    control calls grows by exactly that call. *)
Lemma do_ctl_logged (e : t) (o : ctl_op) (fd events : Z) :
  ctl_calls (do_ctl e o fd events).2
  = ctl_calls e ++ [mkCall (epollFd_ e) o fd events].
Proof.
  unfold do_ctl. destruct (epoll_ctl (registered e) o fd events); reflexivity.
Qed.

Lemma AddFd_issues_ctl (e : t) (fd events : Z) :
  0 <= fd ->
  ctl_calls (AddFd e fd events).2
  = ctl_calls e ++ [mkCall (epollFd_ e) EPOLL_CTL_ADD fd events].
Proof.
  intros Hfd. unfold AddFd.
  destruct (Z.ltb_spec fd 0) as [Hneg | _]; [lia |]. apply do_ctl_logged.
Qed.

(** C10.  For every negative descriptor, [AddFd], [ModFd] and [DelFd]
    return [false] and hand back the epoller as it was: no [epoll_ctl]
    call is added to the log of control calls and the set of registered
    descriptors is the same. *)
Theorem C10_negative_fd_rejected (e : t) (fd events : Z) :
  fd < 0 ->
  (AddFd e fd events = (false, e) /\
   ModFd e fd events = (false, e) /\
   DelFd e fd = (false, e)) /\
  (ctl_calls (AddFd e fd events).2 = ctl_calls e /\
   ctl_calls (ModFd e fd events).2 = ctl_calls e /\
   ctl_calls (DelFd e fd).2 = ctl_calls e) /\
  (registered (AddFd e fd events).2 = registered e /\
   registered (ModFd e fd events).2 = registered e /\
   registered (DelFd e fd).2 = registered e).
Proof.
  intros Hneg. unfold AddFd, ModFd, DelFd.
  destruct (Z.ltb_spec fd 0) as [_ | Hge]; [| lia].
  repeat split.
Qed.

Lemma C10_witness :
  let e := mkEpoller 3 {[ 5 := 1 ]} [mkCall 3 EPOLL_CTL_ADD 5 1] in
  (AddFd e (-1) 1 = (false, e) /\
   ModFd e (-1) 1 = (false, e) /\
   DelFd e (-1) = (false, e)) /\
  (ctl_calls (AddFd e (-1) 1).2 = ctl_calls e /\
   ctl_calls (ModFd e (-1) 1).2 = ctl_calls e /\
   ctl_calls (DelFd e (-1)).2 = ctl_calls e) /\
  (registered (AddFd e (-1) 1).2 = registered e /\
   registered (ModFd e (-1) 1).2 = registered e /\
   registered (DelFd e (-1)).2 = registered e).
Proof.
  intros e. apply (C10_negative_fd_rejected e (-1) 1). lia.
Defined.

End EpollerFacts.

(* ---------------------------------------------------------------------- *)
(** ** SqlConnPool *)
(* ---------------------------------------------------------------------- *)

Module SqlConnPoolFacts.

Import SqlConnPool.

(** A handle given back to an exhausted pool is the one the next
    [GetConn] returns, and the pool is exhausted again. *)
Lemma FreeConn_then_GetConn (p : t) (sql : MYSQL_ptr) :
  connQue_ p = [] -> semId_ p = 0 -> sql <> nullptr ->
  exists p1, FreeConn p sql = Ok p1 /\
             GetConn p1 = Returns sql (mkPool (MAX_CONN_ p) [] 0).
Proof.
  intros Hq Hsem Hsql. unfold FreeConn.
  destruct (Z.eqb_spec sql nullptr) as [? | _]; [contradiction |]. simpl.
  eexists. split; [reflexivity |]. unfold GetConn. simpl.
  rewrite Hq, Hsem. reflexivity.
Qed.

(** C3, as stated, asks [GetConn] to block in [sem_wait] whenever all
    handles are in use.  On the exhausted pool the call returns
    [nullptr] at once instead: the guard on [connQue_.empty()] comes
    before [sem_wait]. *)
Lemma C3_counterexample :
  all_in_use exhausted_pool /\
  GetConn exhausted_pool = Returns nullptr exhausted_pool /\
  GetConn exhausted_pool <> BlocksInSemWait.
Proof.
  split; [| split].
  - unfold all_in_use, exhausted_pool; simpl. split; [lia | split; reflexivity].
  - reflexivity.
  - discriminate.
Qed.

(** C3, amended.  [GetConn] returns [nullptr] without waiting and
    without touching the pool whenever the queue is empty at the call;
    it waits in [sem_wait] only when the queue is not empty and no
    permit is left; and whatever it returns in any other case is the
    front of the queue, popped, with one permit taken. *)
Theorem C3_GetConn_guarded (p : t) :
  (connQue_ p = [] -> GetConn p = Returns nullptr p) /\
  (GetConn p = BlocksInSemWait -> connQue_ p <> [] /\ semId_ p <= 0) /\
  (forall sql p', GetConn p = Returns sql p' ->
     (connQue_ p = [] /\ sql = nullptr /\ p' = p) \/
     (0 < semId_ p /\ connQue_ p = sql :: connQue_ p' /\
      semId_ p' = semId_ p - 1 /\ MAX_CONN_ p' = MAX_CONN_ p)).
Proof.
  unfold GetConn. destruct (connQue_ p) as [| front rest] eqn:Hq.
  - split; [reflexivity |]. split; [discriminate |].
    intros sql p' [= <- <-]. left. auto.
  - destruct (Z.ltb_spec 0 (semId_ p)) as [Hpos | Hnone].
    + split; [discriminate |]. split; [discriminate |].
      intros sql p' [= <- <-]. right. simpl. auto.
    + split; [discriminate |]. split; [| discriminate].
      intros _. split; [discriminate | lia].
Qed.

Lemma C3_witness :
  GetConn exhausted_pool = Returns nullptr exhausted_pool /\
  GetConn (mkPool 2 [7; 9] 2) = Returns 7 (mkPool 2 [9] 1).
Proof.
  split.
  - apply (C3_GetConn_guarded exhausted_pool). reflexivity.
  - reflexivity.
Defined.

(** *** Filling, borrowing and closing the pool *)

Lemma Init_loop_connects (handles que : list MYSQL_ptr) :
  Init_loop (Connects <$> handles) que = Ok (que ++ handles).
Proof.
  revert que. induction handles as [| sql rest IH]; intros que; simpl.
  - rewrite app_nil_r. reflexivity.
  - rewrite IH, <- app_assoc. reflexivity.
Qed.

Lemma Init_loop_fails (before : list MYSQL_ptr) (after : list connect_outcome)
    (que : list MYSQL_ptr) :
  Init_loop ((Connects <$> before) ++ InitFails :: after) que = Err AssertFailed.
Proof.
  revert que. induction before as [| sql rest IH]; intros que; simpl;
    [reflexivity | apply IH].
Qed.

(** X9.  On the pool the constructor leaves, [Init] with
    [connSize > 0] queues one entry per iteration, a failed connect as
    [nullptr], and sets the semaphore to the same count; a failing
    [mysql_init] stops it at the [assert]. *)
Theorem Init_fills_pool (connSize : Z) (handles : list MYSQL_ptr)
    (more : list connect_outcome) :
  0 < connSize -> Z.of_nat (length handles) = connSize ->
  Init fresh connSize ((Connects <$> handles) ++ more)
  = Ok (mkPool connSize handles connSize) /\
  GetFreeConnCount (mkPool connSize handles connSize) = connSize /\
  balanced (mkPool connSize handles connSize) /\
  (forall before after, handles = before ++ after ->
     Init fresh connSize ((Connects <$> before) ++ InitFails :: more)
     = (if decide (after = []) then Ok (mkPool connSize handles connSize)
        else Err AssertFailed)).
Proof.
  intros Hpos Hlen. unfold Init, fresh.
  destruct (Z.ltb_spec 0 connSize) as [_ | ?]; [| lia]. simpl.
  split; [| split; [| split]].
  - rewrite take_app_length' by (rewrite length_fmap; lia).
    rewrite Init_loop_connects. reflexivity.
  - unfold GetFreeConnCount; simpl. exact Hlen.
  - unfold balanced, GetFreeConnCount; simpl. lia.
  - intros before after ->. rewrite length_app in Hlen.
    destruct (decide (after = [])) as [-> | Hne].
    + rewrite app_nil_r.
      rewrite take_app_length' by (rewrite length_fmap; simpl in Hlen; lia).
      rewrite Init_loop_connects. reflexivity.
    + assert (Htake : take (Z.to_nat connSize) ((Connects <$> before) ++ InitFails :: more)
                      = (Connects <$> before) ++ InitFails :: take (Z.to_nat connSize - S (length before)) more).
      { rewrite take_app, length_fmap.
        rewrite take_ge by (rewrite length_fmap; lia). f_equal.
        destruct after as [| a after]; [contradiction |]. simpl in Hlen.
        replace (Z.to_nat connSize - length before)%nat
          with (S (Z.to_nat connSize - S (length before))) by lia.
        reflexivity. }
      rewrite Htake, Init_loop_fails. reflexivity.
Qed.

(** X10.  While the semaphore holds one permit per
    queued handle, [GetConn] never waits in [sem_wait]; [GetConn] and
    [FreeConn] keep that balance; and giving back the handle that
    [GetConn] returned restores the free count, the handle going to the
    back of the queue. *)
Theorem balanced_pool_never_blocks (p : t) :
  balanced p ->
  GetConn p <> BlocksInSemWait /\
  (forall sql p', GetConn p = Returns sql p' -> balanced p') /\
  (forall sql p', FreeConn p sql = Ok p' -> balanced p') /\
  (forall sql rest, connQue_ p = sql :: rest -> sql <> nullptr ->
     exists p1 p2, GetConn p = Returns sql p1 /\ FreeConn p1 sql = Ok p2 /\
       connQue_ p2 = rest ++ [sql] /\
       GetFreeConnCount p2 = GetFreeConnCount p /\ semId_ p2 = semId_ p).
Proof.
  unfold balanced, GetFreeConnCount. intros Hbal.
  split; [| split; [| split]].
  - unfold GetConn. destruct (connQue_ p) as [| front rest] eqn:Hq;
      [discriminate |].
    simpl in Hbal. destruct (Z.ltb_spec 0 (semId_ p)) as [_ | ?]; [| lia].
    discriminate.
  - intros sql p'. unfold GetConn.
    destruct (connQue_ p) as [| front rest] eqn:Hq.
    + intros [= <- <-]. rewrite Hq. exact Hbal.
    + destruct (0 <? semId_ p); [| discriminate].
      intros [= <- <-]. simpl in *. lia.
  - intros sql p'. unfold FreeConn.
    destruct (negb (sql =? nullptr)); [| discriminate]. simpl.
    intros [= <-]. simpl. rewrite length_app. simpl. lia.
  - intros sql rest Hq Hsql. unfold GetConn, FreeConn. rewrite Hq in *.
    simpl in Hbal. destruct (Z.ltb_spec 0 (semId_ p)) as [_ | ?]; [| lia].
    destruct (Z.eqb_spec sql nullptr) as [? | _]; [contradiction |]. simpl.
    eexists. eexists. split; [reflexivity |]. split; [reflexivity |]. simpl.
    rewrite length_app. simpl. repeat split; lia.
Qed.

Lemma Init_loop_Ok_inv (outcomes : list connect_outcome)
    (que que' : list MYSQL_ptr) :
  Init_loop outcomes que = Ok que' ->
  exists handles, outcomes = Connects <$> handles /\ que' = que ++ handles.
Proof.
  revert que. induction outcomes as [| o rest IH]; intros que; simpl.
  - intros [= <-]. exists []. rewrite app_nil_r. auto.
  - destruct o as [| sql]; [discriminate |]. intros H.
    destruct (IH _ H) as (handles & -> & ->).
    exists (sql :: handles). rewrite <- app_assoc. auto.
Qed.

(** X11.  After an [Init] that returned, [ClosePool] passes
    to [mysql_close] what the queue held before and then every handle
    [mysql_real_connect] gave, [nullptr] included, once each and in that
    order; the queue is then empty and the semaphore still holds
    [connSize], so that [GetConn] returns [nullptr] without waiting. *)
Theorem ClosePool_closes_queued (p p1 : t) (connSize : Z)
    (outcomes : list connect_outcome) :
  Init p connSize outcomes = Ok p1 ->
  exists handles,
    take (Z.to_nat connSize) outcomes = Connects <$> handles /\
    (ClosePool p1).2 = connQue_ p ++ handles /\
    GetFreeConnCount (ClosePool p1).1 = 0 /\
    semId_ (ClosePool p1).1 = connSize /\ 0 < connSize /\
    GetConn (ClosePool p1).1 = Returns nullptr (ClosePool p1).1.
Proof.
  unfold Init. intros H.
  apply bind_Ok_inv in H as ([] & Hpos & H).
  apply cassert_Ok_inv in Hpos.
  apply bind_Ok_inv in H as (que & Hloop & [= <-]).
  apply Init_loop_Ok_inv in Hloop as (handles & Htake & ->).
  exists handles. repeat split; try assumption. lia.
Qed.

Lemma Init_fills_pool_witness :
  Init fresh 2 [Connects 7; Connects nullptr]
  = Ok (mkPool 2 [7; nullptr] 2) /\
  Init fresh 2 [Connects 7; InitFails] = Err AssertFailed.
Proof.
  destruct (Init_fills_pool 2 [7; nullptr] []) as (Hok & _ & _ & Hfail);
    [lia | reflexivity |].
  split; [exact Hok |]. apply (Hfail [7] [nullptr]). reflexivity.
Defined.

Lemma balanced_pool_never_blocks_witness :
  GetConn (mkPool 2 [7; 9] 2) <> BlocksInSemWait /\
  exists p1 p2, GetConn (mkPool 2 [7; 9] 2) = Returns 7 p1 /\
    FreeConn p1 7 = Ok p2 /\ connQue_ p2 = [9; 7].
Proof.
  destruct (balanced_pool_never_blocks (mkPool 2 [7; 9] 2)) as (Hnb & _ & _ & Hrt);
    [reflexivity |].
  split; [exact Hnb |].
  destruct (Hrt 7 [9]) as (p1 & p2 & Hget & Hfree & Hq & _);
    [reflexivity | discriminate |].
  exists p1, p2. auto.
Defined.

Lemma ClosePool_closes_queued_witness :
  exists handles,
    take (Z.to_nat 2) [Connects 7; Connects nullptr; InitFails]
    = Connects <$> handles /\
    (ClosePool (mkPool 2 [7; nullptr] 2)).2 = connQue_ fresh ++ handles.
Proof.
  destruct (ClosePool_closes_queued fresh (mkPool 2 [7; nullptr] 2) 2
              [Connects 7; Connects nullptr; InitFails])
    as (handles & Htake & Hclosed & _); [reflexivity |].
  exists handles. split; assumption.
Defined.

End SqlConnPoolFacts.

(* ---------------------------------------------------------------------- *)
(** ** BlockDeque *)
(* ---------------------------------------------------------------------- *)

Module BlockDequeFacts.

Import BlockDeque.

Section WithItem.

Context {T : Type}.

Implicit Types (q : t T) (pc : pop_pc T).

(** A thread that waits and is never woken stays where it is. *)
Lemma pop_run_waiting (n : nat) q :
  pop_run n never_woken q InWait = (q, InWait).
Proof.
  induction n as [| n IH]; simpl; [reflexivity |]. exact IH.
Qed.

(** [pop] on an empty deque goes to [condConsumer_.wait] first, whether
    or not the deque is closed. *)
Lemma pop_empty_waits q :
  deq_ q = [] -> pop_step false q AtLoopTest = (q, InWait).
Proof. intros Hq. unfold pop_step. rewrite Hq. reflexivity. Qed.

(** The part of C5 that holds: while the deque is empty and not closed,
    [pop] blocks, also across wake-ups. *)
Lemma pop_blocks_while_empty_open (n : nat) (wakes : nat -> bool) q :
  deq_ q = [] -> isClose_ q = false ->
  exists pc', pop_run n wakes q AtLoopTest = (q, pc') /\
              (pc' = AtLoopTest \/ pc' = InWait).
Proof.
  intros Hq Hopen.
  assert (Hboth : forall n wakes pc, pc = AtLoopTest \/ pc = InWait ->
            exists pc', pop_run n wakes q pc = (q, pc') /\
                        (pc' = AtLoopTest \/ pc' = InWait)).
  { clear n wakes. induction n as [| n IH]; intros wakes pc Hpc.
    - exists pc. split; [reflexivity | exact Hpc].
    - simpl. destruct Hpc as [-> | ->]; simpl.
      + rewrite Hq. apply IH. right; reflexivity.
      + rewrite Hopen. destruct (wakes 0%nat); apply IH; auto. }
  apply Hboth. left; reflexivity.
Qed.

(** A thread that was already waiting when the deque got closed returns
    [false] once it is woken. *)
Lemma pop_waiter_released q :
  isClose_ q = true -> pop_step true q InWait = (q, Returned false None).
Proof. intros Hc. unfold pop_step. rewrite Hc. reflexivity. Qed.

(** C5, on the code.  A call of [pop] that starts on a closed and empty
    deque does not return [false]: its first step is
    [condConsumer_.wait], and as long as no notification arrives (the
    one of [Close] is already past) it stays blocked. *)
Theorem C5_pop_on_closed_blocks (n : nat) q :
  deq_ q = [] -> isClose_ q = true ->
  pop_run (S n) never_woken q AtLoopTest = (q, InWait).
Proof.
  intros Hq _. change (pop_run (S n) never_woken q AtLoopTest)
    with (let '(q', pc') := pop_step false q AtLoopTest in
          pop_run n never_woken q' pc').
  rewrite (pop_empty_waits q Hq). apply pop_run_waiting.
Qed.

End WithItem.

(** The failing input: the deque right after [Close()]. *)
Lemma C5_witness :
  pop_run 3 never_woken (Close (mkDeque [1; 2] 1000 false)) AtLoopTest
  = (mkDeque [] 1000 true, InWait).
Proof.
  apply (C5_pop_on_closed_blocks 2 (Close (mkDeque [1; 2] 1000 false)));
    reflexivity.
Defined.

(** *** Pushing, popping and the capacity *)

Section MoreWithItem.

Context {T : Type}.

Implicit Types (q : t T) (item : T) (items : list T).

Lemma push_back_now_room q item :
  size q < capacity_ q ->
  push_back_now q item = Some (mkDeque (deq_ q ++ [item]) (capacity_ q) (isClose_ q)).
Proof.
  intros Hroom. unfold push_back_now, push_step.
  destruct (Z.leb_spec (capacity_ q) (size q)) as [? | _]; [lia | reflexivity].
Qed.

Lemma push_all_room q items :
  Z.of_nat (length (deq_ q) + length items) <= capacity_ q ->
  push_all q items = Some (mkDeque (deq_ q ++ items) (capacity_ q) (isClose_ q)).
Proof.
  revert q. induction items as [| item rest IH]; intros q Hroom; simpl.
  - rewrite app_nil_r. destruct q; reflexivity.
  - simpl in Hroom. rewrite push_back_now_room by (unfold size; lia).
    rewrite IH; simpl.
    + rewrite <- app_assoc. reflexivity.
    + rewrite length_app. simpl. lia.
Qed.

Lemma pop_n_all items (cap : Z) (closed : bool) :
  pop_n (length items) (mkDeque items cap closed)
  = Some (items, mkDeque [] cap closed).
Proof.
  induction items as [| item rest IH]; simpl; [reflexivity |].
  unfold pop_now. simpl. rewrite IH. reflexivity.
Qed.

(** X12.  Items pushed with [push_back] while there is room go in
    without waiting, and as many calls of [pop] return them, after the
    items that were already queued, in the order they were pushed. *)
Theorem push_back_pop_fifo q items :
  Z.of_nat (length (deq_ q) + length items) <= capacity_ q ->
  exists q1, push_all q items = Some q1 /\
    deq_ q1 = deq_ q ++ items /\
    pop_n (length (deq_ q ++ items)) q1 = Some (deq_ q ++ items, clear q).
Proof.
  intros Hroom. rewrite (push_all_room q items Hroom).
  eexists. split; [reflexivity |]. split; [reflexivity |].
  apply pop_n_all.
Qed.

(** X13.  No step of [push_back], [push_front] or [pop] takes
    the deque above its capacity or changes [isClose_]; a push that
    finds the deque full waits and leaves it as it is, and a push that
    finds room stores the item whether or not the deque is closed. *)
Theorem steps_respect_capacity q item :
  size q <= capacity_ q ->
  (forall at_front woken pc,
     let '(q', pc') := push_step at_front item woken q pc in
     size q' <= capacity_ q' /\ capacity_ q' = capacity_ q /\
     isClose_ q' = isClose_ q /\
     (pc = PushAtLoopTest -> capacity_ q <= size q ->
      q' = q /\ pc' = PushInWait) /\
     (pc = PushAtLoopTest -> size q < capacity_ q ->
      pc' = Pushed /\ size q' = size q + 1 /\
      deq_ q' = if at_front then item :: deq_ q else deq_ q ++ [item])) /\
  (forall woken pc,
     let '(q', _) := pop_step woken q pc in
     size q' <= size q /\ capacity_ q' = capacity_ q /\
     isClose_ q' = isClose_ q).
Proof.
  intros Hcap. split.
  - intros at_front woken pc. unfold push_step.
    destruct pc; [| destruct woken; repeat split; (assumption || discriminate) |
                  repeat split; (assumption || discriminate)].
    destruct (Z.leb_spec (capacity_ q) (size q)) as [Hfull | Hroom].
    + repeat split; try assumption; (reflexivity || lia).
    + assert (Hsz : size (mkDeque (if at_front then item :: deq_ q
                                   else deq_ q ++ [item])
                                  (capacity_ q) (isClose_ q)) = size q + 1).
      { unfold size; simpl. destruct at_front; simpl;
          [| rewrite length_app; simpl]; lia. }
      rewrite Hsz. simpl. repeat split; (reflexivity || lia).
  - intros woken pc. unfold pop_step.
    destruct pc as [| | ret it].
    + destruct (deq_ q) as [| front rest] eqn:Hq;
        [repeat split; (reflexivity || lia) |].
      unfold size; simpl. rewrite Hq. simpl. repeat split; (reflexivity || lia).
    + destruct woken; [destruct (isClose_ q) eqn:Hc |];
        repeat split; (reflexivity || lia || exact Hc).
    + repeat split; (reflexivity || lia).
Qed.

(** A step of [pop(item, timeout)] that
    returns does so in one of two ways: with [true], from the loop test,
    handing out the front of the deque and removing exactly it; or with
    [false], out of the wait, leaving the deque as it is, and only
    because the wait timed out or because the deque was closed when the
    thread was notified. *)
Lemma pop_timed_returns (ev : wait_event) (q q' : t T) (pc : pop_pc T)
    (ret : bool) (item : option T) :
  pc <> Returned ret item ->
  pop_timed_step ev q pc = (q', Returned ret item) ->
  (ret = true /\ pc = AtLoopTest /\
   exists front, item = Some front /\ deq_ q = front :: deq_ q' /\
     capacity_ q' = capacity_ q /\ isClose_ q' = isClose_ q) \/
  (ret = false /\ pc = InWait /\ item = None /\ q' = q /\
   (ev = TimedOut \/ (ev = Notified /\ isClose_ q = true))).
Proof.
  intros Hpc. destruct pc as [| | ret0 item0]; simpl.
  - destruct (deq_ q) as [| front rest] eqn:Hq; [discriminate |].
    intros [= <- <- <-]. left. split; [reflexivity |]. split; [reflexivity |].
    exists front. auto.
  - destruct ev; [discriminate | |].
    + destruct (isClose_ q) eqn:Hc; [| discriminate].
      intros [= <- <- <-]. right. repeat split; auto.
    + intros [= <- <- <-]. right. repeat split; auto.
  - intros [= <- <- <-]. contradiction.
Qed.

End MoreWithItem.

Lemma push_back_pop_fifo_witness :
  exists q1, push_all (mkDeque [1] 3 false) [2; 3] = Some q1 /\
    pop_n 3 q1 = Some ([1; 2; 3], mkDeque [] 3 false).
Proof.
  destruct (push_back_pop_fifo (mkDeque [1] 3 false) [2; 3]) as (q1 & Hpush & _ & Hpop).
  - simpl. lia.
  - exists q1. auto.
Defined.

Lemma steps_respect_capacity_witness :
  push_step false 9 false (mkDeque [1; 2] 2 true) PushAtLoopTest
  = (mkDeque [1; 2] 2 true, PushInWait) /\
  push_step false 9 false (mkDeque [1] 2 true) PushAtLoopTest
  = (mkDeque [1; 9] 2 true, Pushed).
Proof.
  split.
  - destruct (steps_respect_capacity (mkDeque [1; 2] 2 true) 9) as [Hpush _];
      [vm_compute; discriminate |].
    specialize (Hpush false false PushAtLoopTest).
    destruct (push_step false 9 false (mkDeque [1; 2] 2 true) PushAtLoopTest)
      as [q' pc'].
    destruct Hpush as (_ & _ & _ & Hfull & _).
    destruct Hfull as [-> ->]; [reflexivity | vm_compute; discriminate |].
    reflexivity.
  - reflexivity.
Defined.

Lemma pop_timed_returns_witness :
  pop_timed_step TimedOut (mkDeque [5] 4 false) InWait
  = (mkDeque [5] 4 false, Returned false None) /\
  (TimedOut = TimedOut \/
   (TimedOut = Notified /\ isClose_ (mkDeque [5] 4 false) = true)).
Proof.
  split; [reflexivity |].
  destruct (pop_timed_returns TimedOut (mkDeque [5] 4 false)
              (mkDeque [5] 4 false) InWait false None)
    as [(Habs & _) | (_ & _ & _ & _ & Hwhy)];
    [discriminate | reflexivity | discriminate Habs | exact Hwhy].
Defined.

End BlockDequeFacts.

(* ---------------------------------------------------------------------- *)
(** ** ThreadPool *)
(* ---------------------------------------------------------------------- *)

Module ThreadPoolFacts.

Import ThreadPool.

Section WithTask.

Context {Task : Type}.

Implicit Types (p : Pool Task) (w : worker Task) (s : system Task).

(** A worker leaves its loop only from the loop head, and only when it
    finds the queue empty and the pool closed. *)
Lemma worker_exit_only_when_drained p w p' :
  w <> Exited ->
  worker_step p w = (p', Exited) ->
  w = AtLoopHead /\ tasks p = [] /\ isClosed p = true /\ p' = p.
Proof.
  intros Hlive Hstep. destruct w as [| task | |]; simpl in Hstep.
  - destruct (tasks p) as [| task rest] eqn:Hq.
    + destruct (isClosed p) eqn:Hc; [| discriminate].
      injection Hstep as <-. auto.
    + discriminate.
  - discriminate.
  - discriminate.
  - contradiction.
Qed.


(** Nothing reopens a pool. *)
Lemma step_keeps_closed s s' :
  step s s' -> isClosed (pool_ s) = true -> isClosed (pool_ s') = true.
Proof.
  intros Hstep Hc. destruct Hstep as [s i w w' p' Hw Hstep | s task | s]; simpl.
  - destruct w as [| task | |]; simpl in Hstep.
    + destruct (tasks (pool_ s)); [destruct (isClosed (pool_ s)) eqn:E |];
        injection Hstep as <- <-; simpl; congruence.
    + injection Hstep as <- <-; exact Hc.
    + injection Hstep as <- <-; exact Hc.
    + injection Hstep as <- <-; exact Hc.
  - exact Hc.
  - reflexivity.
Qed.


(** Consequently, along any execution, a worker that has left its loop
    implies a closed pool. *)
Lemma exited_implies_closed s s' :
  steps s s' ->
  (forall i, workers s !! i = Some Exited -> isClosed (pool_ s) = true) ->
  forall i, workers s' !! i = Some Exited -> isClosed (pool_ s') = true.
Proof.
  intros Hsteps Hinit. induction Hsteps as [s | s1 s2 s3 _ IH Hstep].
  - exact Hinit.
  - intros i Hexit. specialize (IH Hinit).
    destruct Hstep as [s j wj wj' p' Hwj Hstepj | s task | s]; simpl in *.
    + destruct (decide (j = i)) as [-> | Hne].
      * rewrite list_lookup_insert_eq in Hexit
          by (apply lookup_lt_Some in Hwj; exact Hwj).
        injection Hexit as ->. destruct wj as [| task | |].
        -- apply worker_exit_only_when_drained in Hstepj as (_ & _ & Hc & ->);
             [exact Hc | discriminate].
        -- discriminate.
        -- discriminate.
        -- injection Hstepj as <-. eapply IH. exact Hwj.
      * rewrite list_lookup_insert_ne in Hexit by exact Hne.
        apply (step_keeps_closed s (mkSystem p' (<[j := wj']> (workers s))));
          [| eapply IH; exact Hexit].
        eapply step_worker; eassumption.
    + eapply IH. exact Hexit.
    + reflexivity.
Qed.

(** From the state the constructor leaves, no worker is outside its loop
    while the pool is open. *)
Lemma initial_no_exit (threadCount : nat) (queued : list Task) s' :
  steps (initial threadCount queued) s' ->
  forall i, workers s' !! i = Some Exited -> isClosed (pool_ s') = true.
Proof.
  intros Hsteps. eapply exited_implies_closed; [exact Hsteps |].
  intros i Hi. simpl in Hi. apply lookup_replicate in Hi as [Hi _].
  discriminate.
Qed.

End WithTask.


(** *** A worker running alone *)

Section MoreWithTask.

Context {Task : Type}.

(** X14.  Left alone with a queue of tasks, a worker runs all
    of them, in the order of the queue, one after the other; it then
    leaves its loop when the pool is closed and waits on the condition
    variable when it is not. *)
Theorem worker_drains_in_order (closed : bool) (queued ran : list Task) :
  worker_run (2 * length queued + 1) (mkPool closed queued) AtLoopHead ran
  = (mkPool closed [], (if closed then Exited else InCondWait), ran ++ queued).
Proof.
  revert ran. induction queued as [| task rest IH]; intros ran.
  - simpl. rewrite app_nil_r. destruct closed; reflexivity.
  - replace (2 * length (task :: rest) + 1)%nat
      with (S (S (2 * length rest + 1))) by (simpl; lia).
    cbn [worker_run worker_step tasks isClosed].
    rewrite IH, <- app_assoc. reflexivity.
Qed.

End MoreWithTask.

End ThreadPoolFacts.

(* ---------------------------------------------------------------------- *)
(** ** Buffer *)
(* ---------------------------------------------------------------------- *)

Module BufferFacts.

Import Buffer.



Lemma readable_alt (b : t) :
  0 <= readPos_ b <= writePos_ b -> writePos_ b < 2 ^ 64 ->
  readable b = drop (Z.to_nat (readPos_ b)) (take (Z.to_nat (writePos_ b)) (buffer_ b)).
Proof.
  intros Hpos Hlt. unfold readable, ReadableBytes.
  rewrite size_t_small by lia. rewrite take_drop_commute.
  f_equal. f_equal. lia.
Qed.

Lemma EnsureWriteable_spec (b : t) (len : Z) :
  0 <= readPos_ b <= writePos_ b -> writePos_ b <= buffer_size b ->
  0 <= len -> buffer_size b + len + 1 < 2 ^ 64 ->
  exists b1, EnsureWriteable b len = Ok b1 /\ roomy b1 len /\
             readable b1 = readable b /\
             writePos_ b1 - readPos_ b1 = writePos_ b - readPos_ b.
Proof.
  intros Hpos Hwp Hlen Hbig. unfold EnsureWriteable.
  assert (Hw : WritableBytes b = buffer_size b - writePos_ b).
  { unfold WritableBytes. apply size_t_small. lia. }
  rewrite Hw. destruct (Z.ltb_spec (buffer_size b - writePos_ b) len) as [Hsmall | Hroom].
  - unfold MakeSpace_. rewrite Hw. unfold PrependableBytes.
    rewrite (size_t_small (buffer_size b - writePos_ b + readPos_ b)) by lia.
    destruct (Z.ltb_spec (buffer_size b - writePos_ b + readPos_ b) len) as [Hgrow | Hcompact].
    + (* grow *)
      rewrite (size_t_small (writePos_ b + len + 1)) by lia.
      set (b1 := mkBuffer _ _ _).
      assert (Hsz : buffer_size b1 = writePos_ b + len + 1).
      { unfold b1, buffer_size, resize; simpl. unfold buffer_size in *.
        rewrite length_app, length_take, length_replicate. lia. }
      assert (Hw1 : WritableBytes b1 = len + 1).
      { unfold WritableBytes. rewrite Hsz. simpl. rewrite size_t_small; lia. }
      simpl. unfold mbind, result_bind. rewrite Hw1.
      destruct (Z.leb_spec len (len + 1)) as [_ | ?]; [| lia]. simpl.
      exists b1. split; [reflexivity |]. split; [| split].
      * unfold roomy. rewrite Hsz. simpl. lia.
      * rewrite !readable_alt by (simpl; lia). simpl. f_equal.
        unfold resize. unfold buffer_size in *.
        rewrite (take_ge (buffer_ b) (Z.to_nat (writePos_ b + len + 1))) by lia.
        rewrite take_app_le by lia. reflexivity.
      * reflexivity.
    + (* compact *)
      set (moved := take _ (drop _ _)).
      assert (Hmoved : Z.of_nat (length moved) = writePos_ b - readPos_ b).
      { unfold moved, buffer_size in *. rewrite length_take, length_drop. lia. }
      assert (Hr : ReadableBytes b = writePos_ b - readPos_ b).
      { unfold ReadableBytes. apply size_t_small. lia. }
      rewrite !Hr.
      rewrite (size_t_small (0 + (writePos_ b - readPos_ b))) by lia.
      set (b1 := mkBuffer _ _ _).
      assert (Hsz : buffer_size b1 = buffer_size b).
      { unfold b1, buffer_size, copy_at; simpl. unfold buffer_size in *.
        rewrite length_app, length_drop. lia. }
      assert (Hr1 : ReadableBytes b1 = writePos_ b - readPos_ b).
      { unfold ReadableBytes; simpl. rewrite size_t_small; lia. }
      assert (Hw1 : WritableBytes b1 = buffer_size b - (writePos_ b - readPos_ b)).
      { unfold WritableBytes. rewrite Hsz. simpl. rewrite size_t_small; lia. }
      unfold mbind, result_bind. rewrite Hr1, Z.eqb_refl. simpl. rewrite Hw1.
      destruct (Z.leb_spec len (buffer_size b - (writePos_ b - readPos_ b)))
        as [_ | ?]; [| lia]. simpl.
      exists b1. split; [reflexivity |]. split; [| split].
      * unfold roomy. rewrite Hsz. simpl. lia.
      * unfold readable at 1. rewrite Hr1. simpl. unfold copy_at. simpl.
        change (Z.to_nat 0) with 0%nat. rewrite drop_0.
        rewrite take_app_length' by lia.
        unfold readable. rewrite Hr. reflexivity.
      * simpl. lia.
  - unfold mbind, result_bind. rewrite Hw.
    destruct (Z.leb_spec len (buffer_size b - writePos_ b)) as [_ | ?]; [| lia].
    simpl. exists b. split; [reflexivity |]. split; [| split; reflexivity].
    unfold roomy. lia.
Qed.

Lemma Append_spec (b : t) (str : list Byte.byte) (len : Z) :
  0 <= readPos_ b <= writePos_ b -> writePos_ b <= buffer_size b ->
  0 <= len <= Z.of_nat (length str) -> buffer_size b + len + 1 < 2 ^ 64 ->
  exists b', Append b str len = Ok b' /\
             readable b' = readable b ++ take (Z.to_nat len) str /\
             ReadableBytes b' = ReadableBytes b + len /\
             0 <= readPos_ b' <= writePos_ b' /\
             writePos_ b' <= buffer_size b'.
Proof.
  intros Hpos Hwp Hlen Hbig. unfold Append.
  destruct (EnsureWriteable_spec b len Hpos Hwp ltac:(lia) Hbig)
    as (b1 & -> & (Hpos1 & Hroom1 & Hsz1) & Hrd & Hdiff).
  unfold mbind, result_bind. eexists. split; [reflexivity |].
  set (src := take (Z.to_nat len) str).
  assert (Hsrc : Z.of_nat (length src) = len).
  { unfold src. rewrite length_take. lia. }
  assert (Hsz : buffer_size (HasWritten
            (mkBuffer (copy_at (buffer_ b1) (writePos_ b1) src)
                      (readPos_ b1) (writePos_ b1)) len) = buffer_size b1).
  { unfold buffer_size, copy_at; simpl. unfold buffer_size in *.
    rewrite !length_app, length_take, length_drop. lia. }
  assert (Hwp' : size_t (writePos_ b1 + len) = writePos_ b1 + len)
    by (apply size_t_small; lia).
  split; [| split; [| split]].
  - rewrite <- Hrd. rewrite (readable_alt b1) by lia.
    rewrite readable_alt by (simpl; lia). simpl. rewrite Hwp'.
    unfold copy_at. unfold buffer_size in *.
    rewrite app_assoc. rewrite take_app_length' by (rewrite length_app, length_take; lia).
    rewrite drop_app_le by (rewrite length_take; lia). reflexivity.
  - unfold ReadableBytes; simpl. rewrite Hwp'.
    rewrite !size_t_small by lia. lia.
  - simpl. lia.
  - rewrite Hsz. simpl. lia.
Qed.

(** With an empty writable tail the first segment of the scatter read is
    empty: whatever the kernel delivers goes through the staging area. *)
Lemma scatter_empty_tail (data : list Byte.byte) :
  Z.of_nat (length data) <= STAGE_SIZE ->
  scatter 0 STAGE_SIZE data = ([], data).
Proof.
  intros Hlen. unfold scatter. change (Z.to_nat 0) with 0%nat.
  rewrite drop_0, take_0. unfold STAGE_SIZE in *.
  rewrite take_ge by lia. reflexivity.
Qed.

(** C6.  When the writable tail is empty and [readv] delivers [len > 0]
    bytes (at most the 65535 bytes of the staging area), all of them
    are stored through the staging segment, [ReadFd] returns [len] and
    leaves [*saveErrno] alone, the readable content is the old content
    followed by the delivered bytes, and [ReadableBytes] grows by
    exactly [len]. *)
Theorem C6_ReadFd_empty_tail (b : t) (saveErrno : Z) (data : list Byte.byte) :
  wf b ->
  WritableBytes b = 0 ->
  0 < Z.of_nat (length data) <= STAGE_SIZE ->
  scatter (WritableBytes b) STAGE_SIZE data = ([], data) /\
  exists b',
    ReadFd b saveErrno (ReadvData data)
    = Ok (Z.of_nat (length data), saveErrno, b') /\
    readable b' = readable b ++ data /\
    ReadableBytes b' = ReadableBytes b + Z.of_nat (length data).
Proof.
  intros (Hpos & Hwp & Hmax) Hfull Hlen.
  assert (H64 : PTRDIFF_MAX < 2 ^ 64 - 65536 - 1) by reflexivity.
  unfold STAGE_SIZE in Hlen.
  assert (Hsz : buffer_size b = writePos_ b).
  { unfold WritableBytes in Hfull. rewrite size_t_small in Hfull; lia. }
  rewrite Hfull. rewrite scatter_empty_tail by (unfold STAGE_SIZE; lia).
  split; [reflexivity |].
  unfold ReadFd. rewrite Hfull.
  rewrite scatter_empty_tail by (unfold STAGE_SIZE; lia).
  change (length (@nil Byte.byte) + length data)%nat with (length data).
  rewrite (size_t_small (Z.of_nat (length data))) by lia.
  destruct (Z.leb_spec (Z.of_nat (length data)) 0) as [? | _]; [lia |].
  rewrite Z.sub_0_r. rewrite (size_t_small (Z.of_nat (length data))) by lia.
  (* the kernel stored nothing in the tail: the buffer is as before *)
  assert (Hcopy : copy_at (buffer_ b) (writePos_ b) [] = buffer_ b).
  { unfold copy_at; simpl. rewrite Nat.add_0_r. apply take_drop. }
  destruct b as [buf rp wp]; simpl in *. rewrite Hcopy.
  unfold buffer_size at 1; simpl.
  unfold buffer_size in Hsz, Hwp, Hmax; simpl in Hsz, Hwp, Hmax.
  rewrite Hsz.
  destruct (Append_spec (mkBuffer buf rp wp) data (Z.of_nat (length data)))
    as (b' & -> & Hrd & Hr & _); unfold buffer_size; simpl; try lia.
  exists b'. split; [reflexivity |]. split.
  - rewrite Hrd, Nat2Z.id, firstn_all. reflexivity.
  - exact Hr.
Qed.

Lemma C6_witness :
  let b := mkBuffer [Byte.x61; Byte.x62; Byte.x63] 1 3 in
  let data := [Byte.x64; Byte.x65] in
  scatter (WritableBytes b) STAGE_SIZE data = ([], data) /\
  exists b',
    ReadFd b 0 (ReadvData data) = Ok (Z.of_nat (length data), 0, b') /\
    readable b' = readable b ++ data /\
    ReadableBytes b' = ReadableBytes b + Z.of_nat (length data).
Proof.
  intros b data. apply (C6_ReadFd_empty_tail b 0 data).
  - unfold wf, b, buffer_size; simpl. unfold PTRDIFF_MAX. lia.
  - reflexivity.
  - unfold STAGE_SIZE, data; simpl. lia.
Defined.

(** C8.  When [readv] fails, [ReadFd] returns -1, stores the error code
    in [*saveErrno], and the buffer (contents, [readPos_], [writePos_])
    is what it was. *)
Theorem C8_ReadFd_failure_atomic (b : t) (saveErrno errno : Z) :
  exists b',
    ReadFd b saveErrno (ReadvError errno) = Ok (-1, errno, b') /\
    buffer_ b' = buffer_ b /\
    readPos_ b' = readPos_ b /\
    writePos_ b' = writePos_ b.
Proof. exists b. repeat split. Qed.

(** *** The other operations *)

Lemma wf_bounds (b : t) :
  wf b -> 0 <= readPos_ b <= writePos_ b /\ writePos_ b <= buffer_size b /\
          buffer_size b < 2 ^ 63.
Proof.
  intros (Hpos & Hwp & Hmax). pose proof PTRDIFF_MAX_lt. unfold PTRDIFF_MAX in *.
  lia.
Qed.

Lemma ReadableBytes_wf (b : t) :
  wf b -> ReadableBytes b = writePos_ b - readPos_ b.
Proof.
  intros (Hpos & Hwp & Hmax)%wf_bounds. unfold ReadableBytes.
  apply size_t_small. lia.
Qed.

Lemma WritableBytes_wf (b : t) :
  wf b -> WritableBytes b = buffer_size b - writePos_ b.
Proof.
  intros (Hpos & Hwp & Hmax)%wf_bounds. unfold WritableBytes.
  apply size_t_small. lia.
Qed.


(** Bytes stored by the kernel in the writable tail, followed by the
    advance of [writePos_]. *)
Lemma tail_write (b : t) (data : list Byte.byte) :
  wf b -> Z.of_nat (length data) <= WritableBytes b ->
  let b' := mkBuffer (copy_at (buffer_ b) (writePos_ b) data) (readPos_ b)
                     (writePos_ b + Z.of_nat (length data)) in
  buffer_size b' = buffer_size b /\ wf b' /\
  readable b' = readable b ++ data.
Proof.
  intros Hwf Hlen b'. pose proof (wf_bounds b Hwf) as (Hpos & Hwp & Hmax).
  rewrite (WritableBytes_wf b Hwf) in Hlen.
  assert (Hsz : buffer_size b' = buffer_size b).
  { unfold b', buffer_size, copy_at in *; simpl.
    rewrite !length_app, length_take, length_drop. lia. }
  split; [exact Hsz |]. split.
  - destruct Hwf as (_ & _ & Hptr). unfold wf. rewrite Hsz. simpl. lia.
  - rewrite (readable_alt b) by lia.
    rewrite readable_alt by (simpl; lia). simpl.
    unfold copy_at, buffer_size in *.
    rewrite app_assoc.
    rewrite take_app_length' by (rewrite length_app, length_take; lia).
    rewrite drop_app_le by (rewrite length_take; lia). reflexivity.
Qed.

(** X15.  On a well-formed buffer [Append] of [len] bytes always
    passes the [assert] of [EnsureWriteable]; the readable bytes are
    the old ones followed by the new ones, whether the buffer had room,
    was compacted or was grown. *)
Theorem Append_extends_readable (b : t) (str : list Byte.byte) (len : Z) :
  wf b -> 0 <= len <= Z.of_nat (length str) -> len <= PTRDIFF_MAX ->
  exists b', Append b str len = Ok b' /\
             readable b' = readable b ++ take (Z.to_nat len) str /\
             ReadableBytes b' = ReadableBytes b + len /\
             0 <= readPos_ b' <= writePos_ b' /\
             writePos_ b' <= buffer_size b'.
Proof.
  intros Hwf Hlen Hmax. pose proof (wf_bounds b Hwf) as (Hpos & Hwp & Hsz).
  pose proof PTRDIFF_MAX_lt as H64.
  apply Append_spec; try assumption. unfold PTRDIFF_MAX in *. lia.
Qed.

(** X16.  When the tail plus the consumed prefix can
    hold [len] bytes the vector is never resized: at most the readable
    bytes are moved to the front.  Otherwise it is resized to exactly
    [writePos_ + len + 1] bytes.  Either way the readable bytes are
    kept and at least [len] bytes are writable afterwards. *)
Theorem EnsureWriteable_compacts_or_grows (b : t) (len : Z) :
  wf b -> 0 <= len <= PTRDIFF_MAX ->
  exists b', EnsureWriteable b len = Ok b' /\
             readable b' = readable b /\
             len <= WritableBytes b' /\
             buffer_size b' =
               (if len <=? WritableBytes b + PrependableBytes b
                then buffer_size b else writePos_ b + len + 1).
Proof.
  intros Hwf Hlen. pose proof (wf_bounds b Hwf) as (Hpos & Hwp & Hsz).
  pose proof PTRDIFF_MAX_lt as H64.
  assert (Hbig : buffer_size b + len + 1 < 2 ^ 64)
    by (unfold PTRDIFF_MAX in *; lia).
  destruct (EnsureWriteable_spec b len Hpos Hwp ltac:(lia) Hbig)
    as (b' & Hrun & (Hpos' & Hroom' & Hsz') & Hrd & _).
  exists b'. split; [exact Hrun |]. split; [exact Hrd |]. split.
  { unfold WritableBytes. rewrite size_t_small by lia. lia. }
  rewrite (WritableBytes_wf b Hwf). unfold PrependableBytes.
  revert Hrun. unfold EnsureWriteable, MakeSpace_.
  rewrite (WritableBytes_wf b Hwf). unfold PrependableBytes.
  rewrite (size_t_small (buffer_size b - writePos_ b + readPos_ b)) by lia.
  destruct (Z.ltb_spec (buffer_size b - writePos_ b) len) as [Hsmall | Hroom].
  - destruct (Z.ltb_spec (buffer_size b - writePos_ b + readPos_ b) len)
      as [Hgrow | Hcompact].
    + destruct (Z.leb_spec len (buffer_size b - writePos_ b + readPos_ b))
        as [? | _]; [lia |].
      intros Hrun. apply bind_Ok_inv in Hrun as (b1 & Hb1 & Hrun).
      injection Hb1 as <-.
      apply bind_Ok_inv in Hrun as (_ & _ & Hrun). injection Hrun as <-.
      rewrite (size_t_small (writePos_ b + len + 1)) by lia.
      unfold buffer_size, resize in *; simpl.
      rewrite length_app, length_take, length_replicate. lia.
    + destruct (Z.leb_spec len (buffer_size b - writePos_ b + readPos_ b))
        as [_ | ?]; [| lia].
      intros Hrun. apply bind_Ok_inv in Hrun as (b1 & Hb1 & Hrun).
      apply bind_Ok_inv in Hb1 as (_ & _ & Hb1). injection Hb1 as <-.
      apply bind_Ok_inv in Hrun as (_ & _ & Hrun). injection Hrun as <-.
      unfold buffer_size, copy_at in *; simpl.
      rewrite length_app, length_take, length_drop, length_drop. lia.
  - destruct (Z.leb_spec len (buffer_size b - writePos_ b + readPos_ b))
      as [_ | ?]; [| lia].
    intros Hrun. apply bind_Ok_inv in Hrun as (b1 & Hb1 & Hrun).
    injection Hb1 as <-.
    apply bind_Ok_inv in Hrun as (_ & _ & Hrun). injection Hrun as <-.
    reflexivity.
Qed.

(** X17.  Whatever [readv] delivers, within the capacity of the
    two segments, ends up behind the readable bytes, in order: whether
    it fits the tail or spills into the staging area; [ReadFd] returns
    the number of bytes and keeps [*saveErrno]. *)
Theorem ReadFd_appends_delivered (b : t) (saveErrno : Z) (data : list Byte.byte) :
  wf b ->
  Z.of_nat (length data) <= WritableBytes b + STAGE_SIZE ->
  exists b',
    ReadFd b saveErrno (ReadvData data)
    = Ok (Z.of_nat (length data), saveErrno, b') /\
    readable b' = readable b ++ data /\
    ReadableBytes b' = ReadableBytes b + Z.of_nat (length data) /\
    0 <= readPos_ b' <= writePos_ b' /\ writePos_ b' <= buffer_size b'.
Proof.
  intros Hwf Hlen. pose proof (wf_bounds b Hwf) as (Hpos & Hwp & Hsz).
  pose proof (WritableBytes_wf b Hwf) as Hw. rewrite Hw in Hlen.
  unfold STAGE_SIZE in Hlen. unfold ReadFd, scatter. rewrite Hw.
  set (w := buffer_size b - writePos_ b) in *.
  set (seg0 := take (Z.to_nat w) data).
  set (buff := take (Z.to_nat STAGE_SIZE) (drop (Z.to_nat w) data)).
  assert (Hbuff : buff = drop (Z.to_nat w) data).
  { unfold buff, STAGE_SIZE. apply take_ge. rewrite length_drop. lia. }
  assert (Htotal : Z.of_nat (length seg0 + length buff) = Z.of_nat (length data)).
  { rewrite <- length_app. unfold seg0. rewrite Hbuff, take_drop. reflexivity. }
  rewrite Htotal. rewrite (size_t_small (Z.of_nat (length data))) by lia.
  destruct (Z.leb_spec (Z.of_nat (length data)) w) as [Hfits | Hspill].
  - assert (Hseg : seg0 = data) by (apply take_ge; lia).
    rewrite Hseg. cbn [buffer_ readPos_ writePos_].
    rewrite (size_t_small (writePos_ b + Z.of_nat (length data))) by lia.
    destruct (tail_write b data Hwf ltac:(lia)) as (Hsz' & Hwf' & Hrd).
    eexists. split; [reflexivity |]. split; [exact Hrd |].
    pose proof (wf_bounds _ Hwf') as (Hpos' & Hwp' & _).
    split; [| split; assumption].
    rewrite (ReadableBytes_wf _ Hwf'), (ReadableBytes_wf _ Hwf). simpl. lia.
  - assert (Hseg : Z.of_nat (length seg0) = w)
      by (unfold seg0; rewrite length_take; lia).
    destruct (tail_write b seg0 Hwf ltac:(lia)) as (Hsz' & Hwf' & Hrd).
    cbn [buffer_ readPos_ writePos_].
    assert (Hbs : buffer_size (mkBuffer (copy_at (buffer_ b) (writePos_ b) seg0)
                                        (readPos_ b) (writePos_ b))
                  = writePos_ b + Z.of_nat (length seg0)).
    { unfold buffer_size in *; simpl in *. lia. }
    rewrite Hbs. set (b1 := mkBuffer _ _ (_ + _)) in *.
    rewrite (size_t_small (Z.of_nat (length data) - w)) by lia.
    pose proof (wf_bounds _ Hwf') as (Hpos1 & Hwp1 & Hsz1).
    destruct (Append_spec b1 buff (Z.of_nat (length data) - w) Hpos1 Hwp1)
      as (b' & -> & Hrd' & Hr' & Hpos' & Hwp').
    + rewrite Hbuff, length_drop. lia.
    + lia.
    + exists b'. split; [reflexivity |]. split; [| split; [| auto]].
      * rewrite Hrd', Hrd, <- app_assoc. f_equal.
        rewrite take_ge by (rewrite Hbuff, length_drop; lia).
        rewrite Hbuff. apply take_drop.
      * rewrite Hr', (ReadableBytes_wf _ Hwf'), (ReadableBytes_wf _ Hwf).
        unfold b1; simpl. lia.
Qed.

(** [Retrieve] inside and outside the readable bytes. *)
Lemma Retrieve_spec (b : t) (len : Z) :
  wf b -> 0 <= len ->
  (len <= ReadableBytes b ->
   exists b', Retrieve b len = Ok b' /\ wf b' /\
     buffer_ b' = buffer_ b /\
     readable b' = drop (Z.to_nat len) (readable b) /\
     ReadableBytes b' = ReadableBytes b - len) /\
  (ReadableBytes b < len -> Retrieve b len = Err AssertFailed).
Proof.
  intros Hwf Hlen. pose proof (wf_bounds b Hwf) as (Hpos & Hwp & Hsz).
  pose proof (ReadableBytes_wf b Hwf) as Hr. unfold Retrieve. split.
  - intros Hle. destruct (Z.leb_spec len (ReadableBytes b)) as [_ | ?]; [| lia].
    simpl. rewrite (size_t_small (readPos_ b + len)) by lia.
    eexists. split; [reflexivity |].
    assert (Hwf' : wf (mkBuffer (buffer_ b) (readPos_ b + len) (writePos_ b))).
    { destruct Hwf as (_ & _ & Hptr). unfold wf, buffer_size in *; simpl. lia. }
    split; [exact Hwf' |]. split; [reflexivity |]. split.
    + rewrite !readable_alt by (simpl; lia). simpl.
      rewrite drop_drop. f_equal. lia.
    + rewrite (ReadableBytes_wf _ Hwf'). simpl. lia.
  - intros Hgt. destruct (Z.leb_spec len (ReadableBytes b)) as [? | _]; [lia |].
    reflexivity.
Qed.

(** X18.  [Retrieve(len)] with [len] at most the readable
    count drops exactly the first [len] readable bytes and leaves the
    vector alone; a larger [len] fails its [assert]. *)
Theorem Retrieve_consumes (b : t) (len : Z) :
  wf b -> 0 <= len ->
  (len <= ReadableBytes b ->
   exists b', Retrieve b len = Ok b' /\ wf b' /\
     buffer_ b' = buffer_ b /\
     readable b' = drop (Z.to_nat len) (readable b) /\
     ReadableBytes b' = ReadableBytes b - len) /\
  (ReadableBytes b < len -> Retrieve b len = Err AssertFailed).
Proof. apply Retrieve_spec. Qed.

(** X19.  Appending to a buffer and then calling
    [RetrieveAllToStr] hands back the readable bytes followed by the
    appended ones; what is left is a zero-filled vector of the same
    size with both cursors at 0 and nothing to read. *)
Theorem Append_RetrieveAllToStr (b : t) (str : list Byte.byte) :
  wf b -> Z.of_nat (length str) <= PTRDIFF_MAX ->
  exists b', Append b str (Z.of_nat (length str)) = Ok b' /\
    (RetrieveAllToStr b').1 = readable b ++ str /\
    readPos_ (RetrieveAllToStr b').2 = 0 /\
    writePos_ (RetrieveAllToStr b').2 = 0 /\
    readable (RetrieveAllToStr b').2 = [] /\
    ReadableBytes (RetrieveAllToStr b').2 = 0 /\
    buffer_size (RetrieveAllToStr b').2 = buffer_size b' /\
    Forall (fun c => c = Byte.x00) (buffer_ (RetrieveAllToStr b').2).
Proof.
  intros Hwf Hlen. pose proof (wf_bounds b Hwf) as (Hpos & Hwp & Hsz).
  destruct (Append_spec b str (Z.of_nat (length str)) Hpos Hwp)
    as (b' & Hrun & Hrd & _); [lia | unfold PTRDIFF_MAX in *; lia |].
  exists b'. split; [exact Hrun |]. unfold RetrieveAllToStr, RetrieveAll; simpl.
  split; [| split; [| split; [| split; [| split; [| split]]]]].
  - rewrite Hrd, Nat2Z.id, firstn_all. reflexivity.
  - reflexivity.
  - reflexivity.
  - reflexivity.
  - reflexivity.
  - unfold buffer_size; simpl. rewrite length_replicate. reflexivity.
  - apply Forall_replicate. reflexivity.
Qed.

(** X20.  When [write] takes [n] of the readable bytes,
    [WriteFd] returns [n] and consumes exactly those bytes; when [write]
    fails it returns -1 with the error code and the buffer as it was. *)
Theorem WriteFd_consumes_written (b : t) (saveErrno : Z) :
  wf b ->
  (forall n, 0 <= n <= ReadableBytes b ->
     exists b', WriteFd b saveErrno (Written n) = (n, saveErrno, b') /\ wf b' /\
       readable b = take (Z.to_nat n) (readable b) ++ readable b' /\
       ReadableBytes b' = ReadableBytes b - n) /\
  (forall errno, WriteFd b saveErrno (WriteError errno) = (-1, errno, b)).
Proof.
  intros Hwf. pose proof (wf_bounds b Hwf) as (Hpos & Hwp & Hsz).
  pose proof (ReadableBytes_wf b Hwf) as Hr. split; [| reflexivity].
  intros n Hn. unfold WriteFd.
  rewrite (size_t_small (readPos_ b + n)) by lia.
  eexists. split; [reflexivity |].
  assert (Hwf' : wf (mkBuffer (buffer_ b) (readPos_ b + n) (writePos_ b))).
  { destruct Hwf as (_ & _ & Hptr). unfold wf, buffer_size in *; simpl. lia. }
  split; [exact Hwf' |]. split.
  - rewrite (readable_alt (mkBuffer _ _ _)) by (simpl; lia). simpl.
    rewrite <- (take_drop (Z.to_nat n) (readable b)) at 1. f_equal.
    rewrite readable_alt by lia. rewrite drop_drop. f_equal. lia.
  - rewrite (ReadableBytes_wf _ Hwf'). simpl. lia.
Qed.

(** *** Runs on the sample buffer *)

Lemma sample_wf : wf sample.
Proof. unfold wf, sample, buffer_size, PTRDIFF_MAX; simpl. lia. Qed.

Lemma Append_extends_readable_witness :
  exists b', Append sample [Byte.x66; Byte.x67] 2 = Ok b' /\
    readable b' = readable sample ++ [Byte.x66; Byte.x67].
Proof.
  destruct (Append_extends_readable sample [Byte.x66; Byte.x67] 2 sample_wf)
    as (b' & Hrun & Hrd & _).
  - simpl. lia.
  - unfold PTRDIFF_MAX. lia.
  - exists b'. auto.
Defined.

Lemma EnsureWriteable_compacts_or_grows_witness :
  (exists b', EnsureWriteable sample 3 = Ok b' /\
     buffer_size b' = buffer_size sample) /\
  (exists b', EnsureWriteable sample 4 = Ok b' /\ buffer_size b' = 10).
Proof.
  split.
  - destruct (EnsureWriteable_compacts_or_grows sample 3 sample_wf)
      as (b' & Hrun & _ & _ & Hsz); [unfold PTRDIFF_MAX; lia |].
    exists b'. auto.
  - destruct (EnsureWriteable_compacts_or_grows sample 4 sample_wf)
      as (b' & Hrun & _ & _ & Hsz); [unfold PTRDIFF_MAX; lia |].
    exists b'. auto.
Defined.

Lemma ReadFd_appends_delivered_witness :
  exists b', ReadFd sample 0 (ReadvData [Byte.x66; Byte.x67; Byte.x68])
             = Ok (3, 0, b') /\
    readable b' = readable sample ++ [Byte.x66; Byte.x67; Byte.x68].
Proof.
  destruct (ReadFd_appends_delivered sample 0 [Byte.x66; Byte.x67; Byte.x68]
              sample_wf) as (b' & Hrun & Hrd & _).
  - vm_compute. discriminate.
  - exists b'. auto.
Defined.

Lemma Retrieve_consumes_witness :
  (exists b', Retrieve sample 2 = Ok b' /\ readable b' = [Byte.x65]) /\
  Retrieve sample 4 = Err AssertFailed.
Proof.
  destruct (Retrieve_consumes sample 2 sample_wf) as [Hok _]; [lia |].
  destruct (Retrieve_consumes sample 4 sample_wf) as [_ Hfail]; [lia |].
  split.
  - destruct Hok as (b' & Hrun & _ & _ & Hrd & _); [vm_compute; discriminate |].
    exists b'. auto.
  - apply Hfail. reflexivity.
Defined.

Lemma Append_RetrieveAllToStr_witness :
  exists b', Append sample [Byte.x66; Byte.x67] 2 = Ok b' /\
    (RetrieveAllToStr b').1 = [Byte.x63; Byte.x64; Byte.x65; Byte.x66; Byte.x67] /\
    readPos_ (RetrieveAllToStr b').2 = 0 /\
    writePos_ (RetrieveAllToStr b').2 = 0.
Proof.
  destruct (Append_RetrieveAllToStr sample [Byte.x66; Byte.x67] sample_wf)
    as (b' & Hrun & Hstr & Hrp & Hwp & _); [unfold PTRDIFF_MAX; simpl; lia |].
  exists b'. auto.
Defined.

Lemma WriteFd_consumes_written_witness :
  exists b', WriteFd sample 0 (Written 2) = (2, 0, b') /\
    readable sample = [Byte.x63; Byte.x64] ++ readable b'.
Proof.
  destruct (WriteFd_consumes_written sample 0 sample_wf) as [Hok _].
  destruct (Hok 2) as (b' & Hrun & _ & Hrd & _); [vm_compute; split; discriminate |].
  exists b'. auto.
Defined.

(** *** Moving the read cursor, appending a buffer *)

(** X21.  [RetrieveUntil(end)] with [end] between
    [Peek()] and [BeginWrite()] moves the read cursor to [end], dropping
    the readable bytes in front of it; an [end] before [Peek()] fails
    the [assert] of [RetrieveUntil], an [end] past [BeginWrite()] the
    one of [Retrieve]. *)
Theorem RetrieveUntil_moves_cursor (b : t) (end_ : Z) :
  wf b ->
  (readPos_ b <= end_ <= writePos_ b ->
   exists b', RetrieveUntil b end_ = Ok b' /\ wf b' /\
     readPos_ b' = end_ /\ writePos_ b' = writePos_ b /\
     buffer_ b' = buffer_ b /\
     readable b' = drop (Z.to_nat (end_ - readPos_ b)) (readable b)) /\
  (end_ < readPos_ b \/ writePos_ b < end_ < 2 ^ 64 ->
   RetrieveUntil b end_ = Err AssertFailed).
Proof.
  intros Hwf. pose proof (wf_bounds b Hwf) as (Hpos & Hwp & Hsz).
  pose proof (ReadableBytes_wf b Hwf) as Hr. unfold RetrieveUntil. split.
  - intros Hend. destruct (Z.leb_spec (readPos_ b) end_) as [_ | ?]; [| lia].
    cbn [mbind result_bind cassert].
    rewrite (size_t_small (end_ - readPos_ b)) by lia.
    destruct (Retrieve_spec b (end_ - readPos_ b) Hwf ltac:(lia)) as [Hin _].
    destruct Hin as (b' & Hrun & Hwf' & Hbuf & Hrd & Hcount); [lia |].
    exists b'. split; [exact Hrun |]. split; [exact Hwf' |].
    revert Hrun. unfold Retrieve.
    destruct (Z.leb_spec (end_ - readPos_ b) (ReadableBytes b)) as [_ | ?];
      [| lia].
    cbn [mbind result_bind cassert]. intros [= <-].
    split; [simpl; rewrite size_t_small by lia; lia |].
    split; [reflexivity |]. split; [reflexivity | exact Hrd].
  - intros [Hbefore | Hpast].
    + destruct (Z.leb_spec (readPos_ b) end_) as [? | _]; [lia |]. reflexivity.
    + destruct (Z.leb_spec (readPos_ b) end_) as [_ | ?]; [| lia].
      cbn [mbind result_bind cassert].
      rewrite (size_t_small (end_ - readPos_ b)) by lia.
      destruct (Retrieve_spec b (end_ - readPos_ b) Hwf ltac:(lia)) as [_ Hout].
      apply Hout. lia.
Qed.






Lemma RetrieveUntil_moves_cursor_witness :
  (exists b', RetrieveUntil sample 4 = Ok b' /\ readPos_ b' = 4) /\
  RetrieveUntil sample 1 = Err AssertFailed.
Proof.
  destruct (RetrieveUntil_moves_cursor sample 4 sample_wf) as [Hin _].
  destruct (RetrieveUntil_moves_cursor sample 1 sample_wf) as [_ Hout].
  split.
  - destruct Hin as (b' & Hrun & _ & Hpos & _); [simpl; lia |].
    exists b'. auto.
  - apply Hout. left. simpl. lia.
Defined.


End BufferFacts.

(* ---------------------------------------------------------------------- *)
(** ** Log *)
(* ---------------------------------------------------------------------- *)

Module LogFacts.

Import Buffer.
Import Log.

(** X23.  Whatever the level, the logger's buffer
    gains exactly 9 readable bytes, the title of the level; a level
    outside 0..3 is written as [info]. *)
Theorem AppendLogLevelTitle_nine_bytes (buff_ : Buffer.t) (level : Z) :
  wf buff_ ->
  exists b', AppendLogLevelTitle_ buff_ level = Ok b' /\
    readable b' = readable buff_ ++ String.list_byte_of_string (level_title level) /\
    ReadableBytes b' = ReadableBytes buff_ + 9 /\
    (level < 0 \/ 3 < level -> level_title level = level_title 1).
Proof.
  intros Hwf. unfold AppendLogLevelTitle_.
  assert (Hlen : length (String.list_byte_of_string (level_title level)) = 9%nat).
  { unfold level_title.
    destruct (level =? 0); [reflexivity |]. destruct (level =? 1); [reflexivity |].
    destruct (level =? 2); [reflexivity |]. destruct (level =? 3); reflexivity. }
  destruct (BufferFacts.Append_spec buff_
              (String.list_byte_of_string (level_title level)) 9)
    as (b' & Hrun & Hrd & Hr & _).
  - apply BufferFacts.wf_bounds in Hwf. lia.
  - apply BufferFacts.wf_bounds in Hwf. lia.
  - rewrite Hlen. lia.
  - apply BufferFacts.wf_bounds in Hwf. lia.
  - exists b'. split; [exact Hrun |]. split; [| split; [exact Hr |]].
    + rewrite Hrd. f_equal. apply take_ge. rewrite Hlen. lia.
    + intros Hout. unfold level_title.
      destruct (Z.eqb_spec level 0); [lia |]. destruct (Z.eqb_spec level 1); [lia |].
      destruct (Z.eqb_spec level 2); [lia |]. destruct (Z.eqb_spec level 3); [lia |].
      reflexivity.
Qed.

Lemma AppendLogLevelTitle_nine_bytes_witness :
  exists b', AppendLogLevelTitle_ Buffer.sample 7 = Ok b' /\
    ReadableBytes b' = ReadableBytes Buffer.sample + 9.
Proof.
  destruct (AppendLogLevelTitle_nine_bytes Buffer.sample 7 BufferFacts.sample_wf)
    as (b' & Hrun & _ & Hr & _).
  exists b'. auto.
Defined.

End LogFacts.

(* ---------------------------------------------------------------------- *)
(** ** WebServer: the accept path *)
(* ---------------------------------------------------------------------- *)

Module WebServerFacts.

Import WebServer.

Section WithMaxFd.

Variable MAX_FD : Z.

(** The listener is edge-triggered for every [trigMode] but 0 and 1. *)
Lemma InitEventMode_listen_ET (s : t) (trigMode : Z) :
  Z.land (listenEvent_ (InitEventMode_ s trigMode)) EPOLLET <> 0
  <-> trigMode <> 0 /\ trigMode <> 1.
Proof.
  unfold InitEventMode_.
  destruct (Z.eqb_spec trigMode 0) as [-> | H0]; simpl.
  - split; [intros H; contradiction H; reflexivity | intros [H _]; contradiction].
  - destruct (Z.eqb_spec trigMode 1) as [-> | H1]; simpl.
    + split; [intros H; contradiction H; reflexivity | intros [_ H]; contradiction].
    + destruct (trigMode =? 2); simpl; (split; [auto | intros _; discriminate]).
Qed.

(** What [AddClient_] leaves behind for an accepted descriptor. *)
Lemma AddClient_spec (s : t) (fd : Z) (addr : sockaddr_in) :
  0 < fd ->
  exists s', AddClient_ s fd addr = Ok s' /\
    installed s' fd addr /\
    userCount s' = userCount s + 1 /\
    listenEvent_ s' = listenEvent_ s /\
    effects s' =
      effects s ++
      (if 0 <? timeoutMS_ s then [TimerAdd fd (timeoutMS_ s)] else []) ++
      [EpollAddFd fd (Z.lor EPOLLIN (connEvent_ s)); SetNonblock fd;
       LogInfo "Client[%d] in!"].
Proof.
  intros Hfd. unfold AddClient_.
  destruct (Z.ltb_spec 0 fd) as [_ | ?]; [| lia]. simpl.
  eexists. split; [reflexivity |].
  destruct (0 <? timeoutMS_ s); simpl.
  - repeat split.
    + unfold installed; simpl. apply lookup_insert_eq.
    + rewrite <- app_assoc. reflexivity.
  - repeat split. unfold installed; simpl. apply lookup_insert_eq.
Qed.

(** What [SendError_] does with a rejected descriptor. *)
Lemma SendError_spec (s : t) (fd : Z) (info : string) (ret : Z) :
  0 < fd ->
  exists s', SendError_ s fd info ret = Ok s' /\
    users_ s' = users_ s /\
    userCount s' = userCount s /\
    effects s' =
      effects s ++ [Send fd info] ++
      (if ret <? 0 then [LogWarn "send error to client[%d] error!"] else []) ++
      [CloseFd fd].
Proof.
  intros Hfd. unfold SendError_.
  destruct (Z.ltb_spec 0 fd) as [_ | ?]; [| lia]. simpl.
  eexists. split; [reflexivity |].
  destruct (ret <? 0); simpl; repeat split; rewrite <- !app_assoc; reflexivity.
Qed.

(** C7.  For a client that [accept] hands over (a positive descriptor,
    the only pending one), [DealListen_] admits it exactly when
    [userCount < MAX_FD]: below the limit, hence at [MAX_FD - 1], the
    connection is installed in [users_], [userCount] is incremented
    and nothing is sent to or closed on the descriptor; at or above the
    limit the body ["Server busy!"] is sent to the descriptor, the
    descriptor is closed, and [users_] and [userCount] stay as they
    were. *)
Theorem C7_admission_at_MAX_FD (s : t) (fd : Z) (addr : sockaddr_in)
    (send_ret : Z) :
  0 < fd ->
  (userCount s < MAX_FD ->
   exists s', DealListen_ MAX_FD [(fd, addr)] send_ret s = Ok s' /\
     installed s' fd addr /\
     userCount s' = userCount s + 1 /\
     effects s' =
       effects s ++
       (if 0 <? timeoutMS_ s then [TimerAdd fd (timeoutMS_ s)] else []) ++
       [EpollAddFd fd (Z.lor EPOLLIN (connEvent_ s)); SetNonblock fd;
        LogInfo "Client[%d] in!"]) /\
  (MAX_FD <= userCount s ->
   exists s', DealListen_ MAX_FD [(fd, addr)] send_ret s = Ok s' /\
     users_ s' = users_ s /\
     userCount s' = userCount s /\
     effects s' =
       effects s ++ [Send fd "Server busy!"] ++
       (if send_ret <? 0 then [LogWarn "send error to client[%d] error!"]
        else []) ++
       [CloseFd fd; LogWarn "Clients is full!"]).
Proof.
  intros Hfd. split; intros Hcount; simpl.
  - destruct (Z.leb_spec fd 0) as [? | _]; [lia |].
    destruct (Z.leb_spec MAX_FD (userCount s)) as [? | _]; [lia |].
    destruct (AddClient_spec s fd addr Hfd) as (s' & -> & Hin & Hn & _ & Heff).
    simpl. exists s'. split; [| auto].
    destruct (negb _); reflexivity.
  - destruct (Z.leb_spec fd 0) as [? | _]; [lia |].
    destruct (Z.leb_spec MAX_FD (userCount s)) as [_ | ?]; [| lia].
    destruct (SendError_spec s fd "Server busy!" send_ret Hfd)
      as (s' & -> & Hu & Hn & Heff).
    simpl. eexists. split; [reflexivity |]. simpl.
    repeat split; try assumption.
    rewrite Heff, <- !app_assoc. reflexivity.
Qed.

(** The boundary scenario with an edge-triggered listener: two clients
    are pending when [userCount = MAX_FD - 1]; the first is installed,
    the second gets the busy body and is closed. *)
Lemma DealListen_boundary_ET (s : t) (fd1 fd2 : Z) (a1 a2 : sockaddr_in)
    (send_ret : Z) :
  0 < fd1 -> 0 < fd2 -> fd1 <> fd2 ->
  Z.land (listenEvent_ s) EPOLLET <> 0 ->
  userCount s = MAX_FD - 1 ->
  exists s', DealListen_ MAX_FD [(fd1, a1); (fd2, a2)] send_ret s = Ok s' /\
    installed s' fd1 a1 /\
    users_ s' !! fd2 = users_ s !! fd2 /\
    userCount s' = MAX_FD /\
    Send fd2 "Server busy!" ∈ effects s' /\
    CloseFd fd2 ∈ effects s'.
Proof.
  intros Hfd1 Hfd2 Hne Het Hcount. simpl.
  destruct (Z.leb_spec fd1 0) as [? | _]; [lia |].
  destruct (Z.leb_spec MAX_FD (userCount s)) as [? | _]; [lia |].
  destruct (AddClient_spec s fd1 a1 Hfd1) as (s1 & Hadd & Hin & Hn & Hl & Heff).
  rewrite Hadd. simpl. rewrite Hl.
  destruct (Z.eqb_spec (Z.land (listenEvent_ s) EPOLLET) 0) as [? | _];
    [contradiction |]. simpl.
  destruct (Z.leb_spec fd2 0) as [? | _]; [lia |].
  destruct (Z.leb_spec MAX_FD (userCount s1)) as [_ | ?]; [| lia].
  destruct (SendError_spec s1 fd2 "Server busy!" send_ret Hfd2)
    as (s2 & -> & Hu & Hn2 & Heff2).
  simpl. eexists. split; [reflexivity |]. simpl.
  split; [| split; [| split; [| split]]].
  - unfold installed. simpl. rewrite Hu. exact Hin.
  - rewrite Hu. unfold AddClient_ in Hadd.
    destruct (Z.ltb_spec 0 fd1) as [_ | ?]; [| lia]. simpl in Hadd.
    injection Hadd as <-. destruct (0 <? timeoutMS_ _); simpl;
      apply lookup_insert_ne; exact Hne.
  - lia.
  - rewrite Heff2. set_solver.
  - rewrite Heff2. set_solver.
Qed.

End WithMaxFd.

Lemma C7_witness :
  let s := InitEventMode_ (mkServer 60000 0 0 ∅ 65535 []) 3 in
  let full := InitEventMode_ (mkServer 60000 0 0 ∅ 65536 []) 3 in
  (exists s', DealListen_ 65536 [(7, mkAddr 0 0)] 12 s = Ok s' /\
     installed s' 7 (mkAddr 0 0) /\ userCount s' = 65536) /\
  (exists s', DealListen_ 65536 [(7, mkAddr 0 0)] 12 full = Ok s' /\
     users_ s' = ∅ /\
     effects s' = [Send 7 "Server busy!"; CloseFd 7;
                   LogWarn "Clients is full!"]).
Proof.
  intros s full. split.
  - destruct (C7_admission_at_MAX_FD 65536 s 7 (mkAddr 0 0) 12) as [Hadmit _];
      [lia |].
    destruct Hadmit as (s' & Hrun & Hin & Hn & _); [simpl; lia |].
    exists s'. auto.
  - destruct (C7_admission_at_MAX_FD 65536 full 7 (mkAddr 0 0) 12)
      as [_ Hbusy]; [lia |].
    destruct Hbusy as (s' & Hrun & Hu & _ & Heff); [simpl; lia |].
    exists s'. auto.
Defined.

(** *** The accept loop and the event modes *)

Lemma AddClient_users (s s' : t) (fd : Z) (addr : sockaddr_in) :
  AddClient_ s fd addr = Ok s' ->
  0 < fd /\
  users_ s' = <[fd := mkConn fd addr false]> (users_ s) /\
  userCount s' = userCount s + 1 /\
  listenEvent_ s' = listenEvent_ s /\
  connEvent_ s' = connEvent_ s /\
  timeoutMS_ s' = timeoutMS_ s.
Proof.
  unfold AddClient_. intros H.
  apply bind_Ok_inv in H as (_ & Hfd%cassert_Ok_inv & H).
  injection H as <-. split; [lia |].
  destruct (0 <? timeoutMS_ _); simpl; auto.
Qed.

Section AcceptLoop.

Variable MAX_FD : Z.

(** X24.  With a level-triggered
    listener one call of [DealListen_] handles one pending connection,
    however many are pending. *)
Theorem DealListen_level_triggered_one (s : t) (first : Z * sockaddr_in)
    (pending : list (Z * sockaddr_in)) (send_ret : Z) :
  Z.land (listenEvent_ s) EPOLLET = 0 ->
  DealListen_ MAX_FD (first :: pending) send_ret s
  = DealListen_ MAX_FD [first] send_ret s.
Proof.
  intros Hlt. destruct first as [fd addr]. simpl.
  destruct (fd <=? 0); [reflexivity |].
  destruct (MAX_FD <=? userCount s); [reflexivity |].
  destruct (AddClient_ s fd addr) as [s' | e] eqn:Hadd; [| reflexivity].
  simpl. apply AddClient_users in Hadd as (_ & _ & _ & Hl & _).
  rewrite Hl, Hlt. reflexivity.
Qed.

(** X25.  With an edge-triggered listener
    and room for all of them below [MAX_FD], one call of [DealListen_]
    installs every pending connection: [userCount] grows by their
    number, each descriptor maps to its connection, and the other
    entries of [users_] are kept. *)
Theorem DealListen_edge_triggered_all (s : t)
    (pending : list (Z * sockaddr_in)) (send_ret : Z) :
  Z.land (listenEvent_ s) EPOLLET <> 0 ->
  Forall (fun a => 0 < a.1) pending ->
  NoDup pending.*1 ->
  userCount s + Z.of_nat (length pending) <= MAX_FD ->
  exists s', DealListen_ MAX_FD pending send_ret s = Ok s' /\
    userCount s' = userCount s + Z.of_nat (length pending) /\
    (forall fd addr, (fd, addr) ∈ pending -> installed s' fd addr) /\
    (forall fd, fd ∉ pending.*1 -> users_ s' !! fd = users_ s !! fd).
Proof.
  revert s. induction pending as [| [fd addr] rest IH];
    intros s Het Hpos Hnd Hroom.
  - exists s. simpl. split; [reflexivity |]. split; [lia |].
    split; [intros fd addr Hin; inversion Hin | reflexivity].
  - apply Forall_cons in Hpos as [Hfd Hpos]. simpl in Hfd.
    rewrite fmap_cons in Hnd. apply NoDup_cons in Hnd as [Hnotin Hnd].
    simpl in Hnotin. rewrite length_cons in Hroom.
    cbn [DealListen_].
    destruct (Z.leb_spec fd 0) as [? | _]; [lia |].
    destruct (Z.leb_spec MAX_FD (userCount s)) as [? | _]; [lia |].
    destruct (AddClient_ s fd addr) as [s1 | e] eqn:Hadd.
    2:{ exfalso. revert Hadd. unfold AddClient_.
        destruct (Z.ltb_spec 0 fd) as [_ | ?]; [discriminate | lia]. }
    apply AddClient_users in Hadd as (_ & Hu1 & Hn1 & Hl1 & _).
    cbn [mbind result_bind]. rewrite Hl1.
    destruct (Z.eqb_spec (Z.land (listenEvent_ s) EPOLLET) 0) as [? | _];
      [contradiction |]. cbn [negb].
    destruct (IH s1) as (s' & Hrun & Hn & Hin & Hout);
      [rewrite Hl1; exact Het | exact Hpos | exact Hnd | lia |].
    exists s'. split; [exact Hrun |]. rewrite length_cons.
    split; [lia |]. split.
    + intros fd' addr' Hmem. apply elem_of_cons in Hmem as [[= -> ->] | Hmem].
      * unfold installed. rewrite (Hout fd Hnotin), Hu1.
        apply lookup_insert_eq.
      * apply Hin. exact Hmem.
    + intros fd' Hnot. rewrite fmap_cons in Hnot.
      apply not_elem_of_cons in Hnot as [Hne Hnot]. simpl in Hne.
      rewrite (Hout fd' Hnot), Hu1. apply lookup_insert_ne. congruence.
Qed.

End AcceptLoop.

(** Whatever [trigMode] is, [connEvent_] has
    [EPOLLONESHOT] and [EPOLLRDHUP] set and neither [EPOLLIN] nor
    [EPOLLOUT], [listenEvent_] has [EPOLLRDHUP] set and no
    [EPOLLONESHOT]; connections are edge-triggered for every [trigMode]
    but 0 and 2; what the fields held before plays no part; and the
    events with which [AddClient_] then registers a client are
    [EPOLLIN], one-shot. *)
Lemma InitEventMode_one_shot (s : t) (trigMode : Z) :
  let s' := InitEventMode_ s trigMode in
  Z.land (connEvent_ s') EPOLLONESHOT = EPOLLONESHOT /\
  Z.land (connEvent_ s') EPOLLRDHUP = EPOLLRDHUP /\
  Z.land (connEvent_ s') (Z.lor EPOLLIN EPOLLOUT) = 0 /\
  Z.land (listenEvent_ s') EPOLLRDHUP = EPOLLRDHUP /\
  Z.land (listenEvent_ s') EPOLLONESHOT = 0 /\
  (Z.land (connEvent_ s') EPOLLET <> 0 <-> trigMode <> 0 /\ trigMode <> 2) /\
  (forall before, InitEventMode_ (InitEventMode_ s before) trigMode = s') /\
  (forall fd addr s'', AddClient_ s' fd addr = Ok s'' ->
     exists events earlier,
       effects s'' = earlier ++ [EpollAddFd fd events; SetNonblock fd;
                                 LogInfo "Client[%d] in!"] /\
       Z.land events EPOLLIN = EPOLLIN /\
       Z.land events EPOLLONESHOT = EPOLLONESHOT /\
       Z.land events EPOLLOUT = 0).
Proof.
  intros s'. subst s'. unfold InitEventMode_.
  destruct (Z.eqb_spec trigMode 0) as [-> | H0];
    [| destruct (Z.eqb_spec trigMode 1) as [-> | H1];
       [| destruct (Z.eqb_spec trigMode 2) as [-> | H2]]].
  all: cbn [connEvent_ listenEvent_].
  all: split; [reflexivity |]; split; [reflexivity |]; split; [reflexivity |].
  all: split; [reflexivity |]; split; [reflexivity |].
  all: split; [split; [intros H; try (exfalso; apply H; reflexivity);
                       split; (assumption || discriminate)
                      | intros [Ha Hb]; try contradiction; discriminate] |].
  all: split; [intros before;
              destruct (before =? 0), (before =? 1), (before =? 2); reflexivity |].
  all: intros fd addr s'' Hadd; unfold AddClient_ in Hadd.
  all: apply bind_Ok_inv in Hadd as (_ & _ & Hadd); injection Hadd as <-.
  all: destruct (0 <? _); cbn [effects connEvent_ emit HttpConn_init].
  all: eexists; eexists; split; [reflexivity |]; repeat split; reflexivity.
Qed.

Lemma DealListen_level_triggered_one_witness :
  let s := InitEventMode_ (mkServer 60000 0 0 ∅ 0 []) 1 in
  DealListen_ 65536 [(7, mkAddr 1 80); (8, mkAddr 2 80)] 0 s
  = DealListen_ 65536 [(7, mkAddr 1 80)] 0 s.
Proof.
  intros s. apply (DealListen_level_triggered_one 65536 s). reflexivity.
Defined.

Lemma DealListen_edge_triggered_all_witness :
  let s := InitEventMode_ (mkServer 60000 0 0 ∅ 0 []) 3 in
  exists s', DealListen_ 65536 [(7, mkAddr 1 80); (8, mkAddr 2 80)] 0 s = Ok s' /\
    userCount s' = 2 /\
    installed s' 7 (mkAddr 1 80) /\ installed s' 8 (mkAddr 2 80).
Proof.
  intros s.
  destruct (DealListen_edge_triggered_all 65536 s
              [(7, mkAddr 1 80); (8, mkAddr 2 80)] 0)
    as (s' & Hrun & Hn & Hin & _).
  - vm_compute. discriminate.
  - repeat constructor; simpl; lia.
  - simpl. apply NoDup_cons. split; [| apply NoDup_singleton].
    rewrite list_elem_of_singleton. discriminate.
  - vm_compute. discriminate.
  - exists s'. split; [exact Hrun |]. split; [exact Hn |].
    split; apply Hin; set_solver.
Defined.

Lemma InitEventMode_one_shot_witness :
  let s' := InitEventMode_ (mkServer 60000 0 0 ∅ 0 []) 2 in
  Z.land (connEvent_ s') EPOLLONESHOT = EPOLLONESHOT /\
  ~ Z.land (connEvent_ s') EPOLLET <> 0.
Proof.
  intros s'.
  destruct (InitEventMode_one_shot (mkServer 60000 0 0 ∅ 0 []) 2)
    as (Hone & _ & _ & _ & _ & Het & _).
  split; [exact Hone |]. intros Hne. apply Het in Hne as [_ Hne].
  apply Hne. reflexivity.
Defined.

End WebServerFacts.

(* ---------------------------------------------------------------------- *)
(** ** WebServer: the events of a connection, the socket *)
(* ---------------------------------------------------------------------- *)

Module WebServerEventsFacts.

Import Epoller.
Import WebServerEvents.

Lemma ModFd_registered (e : Epoller.t) (fd events : Z) :
  0 <= fd -> is_Some (registered e !! fd) ->
  ModFd e fd events
  = (true, mkEpoller (epollFd_ e) (<[fd := events]> (registered e))
                     (ctl_calls e ++ [mkCall (epollFd_ e) EPOLL_CTL_MOD fd events])).
Proof.
  intros Hfd [old Hreg]. unfold ModFd, do_ctl, epoll_ctl.
  destruct (Z.ltb_spec fd 0) as [? | _]; [lia |]. rewrite Hreg. reflexivity.
Qed.

Lemma DelFd_registered (e : Epoller.t) (fd : Z) :
  0 <= fd -> is_Some (registered e !! fd) ->
  DelFd e fd
  = (true, mkEpoller (epollFd_ e) (delete fd (registered e))
                     (ctl_calls e ++ [mkCall (epollFd_ e) EPOLL_CTL_DEL fd 0])).
Proof.
  intros Hfd [old Hreg]. unfold DelFd, do_ctl, epoll_ctl.
  destruct (Z.ltb_spec fd 0) as [? | _]; [lia |]. rewrite Hreg. reflexivity.
Qed.

Section HandlerFacts.

Variable connEvent_ : Z.

Implicit Types (st : conn_state) (c : client).

(** What a handler may leave behind for the descriptor [fd]. *)
Lemma CloseConn_registered st c :
  0 <= GetFd c -> is_Some (registered (epoller_ st) !! GetFd c) ->
  registered (epoller_ (CloseConn_ st c))
  = delete (GetFd c) (registered (epoller_ st)) /\
  ctl_calls (epoller_ (CloseConn_ st c))
  = ctl_calls (epoller_ st)
    ++ [mkCall (epollFd_ (epoller_ st)) EPOLL_CTL_DEL (GetFd c) 0] /\
  closed_ (CloseConn_ st c) = closed_ st ++ [GetFd c].
Proof.
  intros Hfd Hreg. unfold CloseConn_.
  rewrite (DelFd_registered _ _ Hfd Hreg). simpl. auto.
Qed.

Lemma OnProcess_registered st c :
  0 <= GetFd c -> is_Some (registered (epoller_ st) !! GetFd c) ->
  let events := Z.lor connEvent_ (if process_ret c then WebServer.EPOLLOUT
                                  else WebServer.EPOLLIN) in
  registered (epoller_ (OnProcess connEvent_ st c))
  = <[GetFd c := events]> (registered (epoller_ st)) /\
  ctl_calls (epoller_ (OnProcess connEvent_ st c))
  = ctl_calls (epoller_ st)
    ++ [mkCall (epollFd_ (epoller_ st)) EPOLL_CTL_MOD (GetFd c) events] /\
  closed_ (OnProcess connEvent_ st c) = closed_ st.
Proof.
  intros Hfd Hreg. unfold OnProcess.
  destruct (process_ret c); rewrite (ModFd_registered _ _ _ Hfd Hreg);
    simpl; auto.
Qed.

(** X26.  For a client whose descriptor is registered,
    [OnRead_] issues exactly one [epoll_ctl] call, on that descriptor,
    and leaves the other registrations alone.  When [read] returned at
    most 0 with an error other than [EAGAIN] the descriptor is removed
    and the connection closed; in every other case the connection stays
    open and the descriptor is armed again with [connEvent_] and
    [EPOLLOUT] or [EPOLLIN], as [process] answered. *)
Theorem OnRead_rearms_or_closes st c :
  0 <= GetFd c -> is_Some (registered (epoller_ st) !! GetFd c) ->
  let st' := OnRead_ connEvent_ st c in
  (exists call, ctl_calls (epoller_ st') = ctl_calls (epoller_ st) ++ [call] /\
     call_fd call = GetFd c) /\
  (forall fd, fd <> GetFd c ->
     registered (epoller_ st') !! fd = registered (epoller_ st) !! fd) /\
  ((read_ret c <= 0 /\ readErrno c <> EAGAIN /\
    registered (epoller_ st') !! GetFd c = None /\
    closed_ st' = closed_ st ++ [GetFd c]) \/
   ((0 < read_ret c \/ readErrno c = EAGAIN) /\
    registered (epoller_ st') !! GetFd c
    = Some (Z.lor connEvent_ (if process_ret c then WebServer.EPOLLOUT
                              else WebServer.EPOLLIN)) /\
    closed_ st' = closed_ st)).
Proof.
  intros Hfd Hreg st'. subst st'. unfold OnRead_.
  destruct (CloseConn_registered st c Hfd Hreg) as (Hr1 & Hc1 & Hx1).
  destruct (OnProcess_registered st c Hfd Hreg) as (Hr2 & Hc2 & Hx2).
  destruct (Z.leb_spec (read_ret c) 0) as [Hret | Hret];
    [destruct (Z.eqb_spec (readErrno c) EAGAIN) as [Herr | Herr] |]; simpl.
  - rewrite Hr2, Hc2, Hx2. split; [eexists; split; reflexivity |].
    split; [intros fd Hne; apply lookup_insert_ne; congruence |].
    right. split; [auto |]. split; [apply lookup_insert_eq | reflexivity].
  - rewrite Hr1, Hc1, Hx1. split; [eexists; split; reflexivity |].
    split; [intros fd Hne; apply lookup_delete_ne; congruence |].
    left. split; [exact Hret |]. split; [exact Herr |].
    split; [apply lookup_delete_eq | reflexivity].
  - rewrite Hr2, Hc2, Hx2. split; [eexists; split; reflexivity |].
    split; [intros fd Hne; apply lookup_insert_ne; congruence |].
    right. split; [auto |]. split; [apply lookup_insert_eq | reflexivity].
Qed.

(** X27.  For a client whose descriptor is registered,
    [OnWrite_] issues exactly one [epoll_ctl] call, on that descriptor.
    With nothing left to write and keep-alive it arms the descriptor as
    [process] answers; with bytes left after a [write] that failed with
    [EAGAIN] it arms it for [EPOLLOUT]; in every other case, a [write]
    that returned 0 or more with bytes left among them, it removes the
    descriptor and closes the connection. *)
Theorem OnWrite_rearms_or_closes st c :
  0 <= GetFd c -> is_Some (registered (epoller_ st) !! GetFd c) ->
  let st' := OnWrite_ connEvent_ st c in
  (exists call, ctl_calls (epoller_ st') = ctl_calls (epoller_ st) ++ [call] /\
     call_fd call = GetFd c) /\
  (forall fd, fd <> GetFd c ->
     registered (epoller_ st') !! fd = registered (epoller_ st) !! fd) /\
  ((ToWriteBytes c = 0 /\ IsKeepAlive c = true /\
    registered (epoller_ st') !! GetFd c
    = Some (Z.lor connEvent_ (if process_ret c then WebServer.EPOLLOUT
                              else WebServer.EPOLLIN)) /\
    closed_ st' = closed_ st) \/
   (ToWriteBytes c <> 0 /\ write_ret c < 0 /\ writeErrno c = EAGAIN /\
    registered (epoller_ st') !! GetFd c
    = Some (Z.lor connEvent_ WebServer.EPOLLOUT) /\
    closed_ st' = closed_ st) \/
   (((ToWriteBytes c = 0 /\ IsKeepAlive c = false) \/
     (ToWriteBytes c <> 0 /\ (0 <= write_ret c \/ writeErrno c <> EAGAIN))) /\
    registered (epoller_ st') !! GetFd c = None /\
    closed_ st' = closed_ st ++ [GetFd c])).
Proof.
  intros Hfd Hreg st'. subst st'. unfold OnWrite_.
  destruct (CloseConn_registered st c Hfd Hreg) as (Hr1 & Hc1 & Hx1).
  destruct (OnProcess_registered st c Hfd Hreg) as (Hr2 & Hc2 & Hx2).
  destruct (Z.eqb_spec (ToWriteBytes c) 0) as [Hleft | Hleft].
  - destruct (IsKeepAlive c) eqn:Hka.
    + rewrite Hr2, Hc2, Hx2. split; [eexists; split; reflexivity |].
      split; [intros fd Hne; apply lookup_insert_ne; congruence |].
      left. split; [exact Hleft |]. split; [reflexivity |].
      split; [apply lookup_insert_eq | reflexivity].
    + rewrite Hr1, Hc1, Hx1. split; [eexists; split; reflexivity |].
      split; [intros fd Hne; apply lookup_delete_ne; congruence |].
      right. right. split; [left; auto |].
      split; [apply lookup_delete_eq | reflexivity].
  - destruct (Z.ltb_spec (write_ret c) 0) as [Hret | Hret];
      [destruct (Z.eqb_spec (writeErrno c) EAGAIN) as [Herr | Herr] |]; simpl.
    + rewrite (ModFd_registered _ _ _ Hfd Hreg). simpl.
      split; [eexists; split; reflexivity |].
      split; [intros fd Hne; apply lookup_insert_ne; congruence |].
      right. left. split; [exact Hleft |]. split; [exact Hret |].
      split; [exact Herr |]. split; [apply lookup_insert_eq | reflexivity].
    + rewrite Hr1, Hc1, Hx1. split; [eexists; split; reflexivity |].
      split; [intros fd Hne; apply lookup_delete_ne; congruence |].
      right. right. split; [right; auto |].
      split; [apply lookup_delete_eq | reflexivity].
    + rewrite Hr1, Hc1, Hx1. split; [eexists; split; reflexivity |].
      split; [intros fd Hne; apply lookup_delete_ne; congruence |].
      right. right. split; [right; split; [exact Hleft | left; lia] |].
      split; [apply lookup_delete_eq | reflexivity].
Qed.

End HandlerFacts.

Section LoopFacts.

Context {TimeoutCallBack : Type}.

Variable timeoutMS_ : Z.

Implicit Types (st : loop_state TimeoutCallBack) (c : client).

(** X28.  With a positive [timeoutMS_], for a
    client whose descriptor has a timer and whose deadline does not move
    back, [DealRead_] and [DealWrite_] return; both leave the same
    timer, in which the descriptor is due [timeoutMS_] after [now] with
    its callback kept and the invariant holds; and each appends exactly
    one task to the queue of the thread pool, the handler bound to the
    client. *)
Theorem DealRead_extends_and_queues (now : Z) st c (i : Z) :
  0 < timeoutMS_ ->
  HeapTimer.timer_inv (timer_ st) -> HeapTimer.ref_exact (timer_ st) ->
  HeapTimer.fits (timer_ st) ->
  HeapTimer.ref_ (timer_ st) !! GetFd c = Some i ->
  HeapTimer.exp_at (HeapTimer.heap_ (timer_ st)) i
  <= now + HeapTimer.MS timeoutMS_ ->
  exists tm' i' old,
    DealRead_ timeoutMS_ now st c
    = Ok (mkLoop tm' (ThreadPool.mkPool
                        (ThreadPool.isClosed (threadpool_ st))
                        (ThreadPool.tasks (threadpool_ st) ++ [RunOnRead c]))) /\
    DealWrite_ timeoutMS_ now st c
    = Ok (mkLoop tm' (ThreadPool.mkPool
                        (ThreadPool.isClosed (threadpool_ st))
                        (ThreadPool.tasks (threadpool_ st) ++ [RunOnWrite c]))) /\
    HeapTimer.timer_inv tm' /\
    HeapTimer.heap_ (timer_ st) !! Z.to_nat i = Some old /\
    HeapTimer.ref_ tm' !! GetFd c = Some i' /\
    HeapTimer.heap_ tm' !! Z.to_nat i'
    = Some (HeapTimer.mkNode (GetFd c) (now + HeapTimer.MS timeoutMS_)
                             (HeapTimer.cb old)) /\
    HeapTimer.heap_size tm' = HeapTimer.heap_size (timer_ st).
Proof.
  intros Hpos Hinv Hexact Hfits Hlook Hlater.
  destruct (HeapTimerFacts.adjust_later_frame now (timer_ st) (GetFd c)
              timeoutMS_ i Hinv Hexact Hfits Hlook Hlater)
    as (tm' & i' & old & Hrun & Hinv' & _ & Hold & Hlook' & Hnode & _ & Hsz).
  exists tm', i', old. unfold DealRead_, DealWrite_, ExtentTime_.
  destruct (Z.ltb_spec 0 timeoutMS_) as [_ | ?]; [| lia].
  rewrite Hrun. simpl. unfold ThreadPool.AddTask. auto 10.
Qed.

(** X29.  With a positive [timeoutMS_], an event of a
    client whose descriptor has no timer stops the server at the
    [assert] of [adjust], before any task is queued; with
    [timeoutMS_ <= 0] the timer is never touched. *)
Theorem ExtentTime_needs_timer (now : Z) st c :
  (0 < timeoutMS_ -> HeapTimer.ref_ (timer_ st) !! GetFd c = None ->
   DealRead_ timeoutMS_ now st c = Err AssertFailed /\
   DealWrite_ timeoutMS_ now st c = Err AssertFailed) /\
  (timeoutMS_ <= 0 ->
   ExtentTime_ timeoutMS_ now (timer_ st) c = Ok (timer_ st) /\
   DealRead_ timeoutMS_ now st c
   = Ok (mkLoop (timer_ st) (ThreadPool.AddTask (threadpool_ st) (RunOnRead c)))).
Proof.
  unfold DealRead_, DealWrite_, ExtentTime_. split.
  - intros Hpos Hnone.
    destruct (Z.ltb_spec 0 timeoutMS_) as [_ | ?]; [| lia].
    unfold HeapTimer.adjust. rewrite Hnone.
    rewrite bool_decide_eq_false_2 by (intros [? ?]; discriminate).
    rewrite andb_false_r. auto.
  - intros Hle. destruct (Z.ltb_spec 0 timeoutMS_) as [? | _]; [lia |].
    auto.
Qed.

End LoopFacts.

Lemma OnRead_rearms_or_closes_witness :
  let st := mkConnState (mkEpoller 3 {[ 7 := 1 ]} []) [] in
  let c := mkClient 7 0 0 true 0 0 0 false in
  registered (epoller_ (OnRead_ 8192 st c)) !! 7 = None /\
  closed_ (OnRead_ 8192 st c) = [7].
Proof.
  intros st c.
  destruct (OnRead_rearms_or_closes 8192 st c) as (_ & _ & [Hclose | Hopen]).
  - simpl. lia.
  - exists 1. reflexivity.
  - destruct Hclose as (_ & _ & Hreg & Hcl). split; assumption.
  - destruct Hopen as ([Habs | Habs] & _); simpl in Habs; [lia | discriminate].
Defined.

Lemma OnWrite_rearms_or_closes_witness :
  let st := mkConnState (mkEpoller 3 {[ 7 := 1 ]} []) [] in
  let c := mkClient 7 0 0 true 100 0 50 true in
  registered (epoller_ (OnWrite_ 8192 st c)) !! 7 = None /\
  closed_ (OnWrite_ 8192 st c) = [7].
Proof.
  intros st c.
  destruct (OnWrite_rearms_or_closes 8192 st c)
    as (_ & _ & [Hdone | [Hagain | Hclose]]).
  - simpl. lia.
  - exists 1. reflexivity.
  - destruct Hdone as (Habs & _). simpl in Habs. discriminate.
  - destruct Hagain as (_ & Habs & _). simpl in Habs. lia.
  - destruct Hclose as (_ & Hreg & Hcl). split; assumption.
Defined.

Lemma DealRead_extends_and_queues_witness :
  exists tm' i',
    DealRead_ 60000 5000000000
      (mkLoop HeapTimer.three_timers (ThreadPool.mkPool false []))
      (mkClient 2 0 0 true 0 0 0 false)
    = Ok (mkLoop tm' (ThreadPool.mkPool false
                        [RunOnRead (mkClient 2 0 0 true 0 0 0 false)])) /\
    HeapTimer.ref_ tm' !! 2 = Some i' /\
    HeapTimer.heap_ tm' !! Z.to_nat i'
    = Some (HeapTimer.mkNode 2 65000000000 tt).
Proof.
  destruct (DealRead_extends_and_queues 60000 5000000000
              (mkLoop HeapTimer.three_timers (ThreadPool.mkPool false []))
              (mkClient 2 0 0 true 0 0 0 false) 1)
    as (tm' & i' & old & Hread & _ & _ & Hold & Hlook & Hnode & _).
  - lia.
  - exact HeapTimerFacts.three_timers_inv.
  - exact HeapTimerFacts.three_timers_exact.
  - exact HeapTimerFacts.three_timers_fits.
  - reflexivity.
  - vm_compute. discriminate.
  - exists tm', i'. split; [exact Hread |]. split; [exact Hlook |].
    rewrite Hnode. injection Hold as <-. reflexivity.
Defined.

Lemma ExtentTime_needs_timer_witness :
  DealRead_ 60000 5000000000
    (mkLoop HeapTimer.three_timers (ThreadPool.mkPool false []))
    (mkClient 9 0 0 true 0 0 0 false)
  = Err AssertFailed.
Proof.
  destruct (ExtentTime_needs_timer 60000 5000000000
              (mkLoop HeapTimer.three_timers (ThreadPool.mkPool false []))
              (mkClient 9 0 0 true 0 0 0 false)) as [Habort _].
  destruct Habort as [Hread _]; [lia | reflexivity | exact Hread].
Defined.

(** X30.  [InitSocket_] returns [true] only for a port in
    1024..65535 when every call succeeded on a positive descriptor that
    was not registered; it then has registered the descriptor with
    [listenEvent_ | EPOLLIN] and never closes it.  When it returns
    [false] the registrations are as before, and either the port was
    out of range and no system call was made, or [socket] failed, or a
    later call failed and the last system call closes the descriptor,
    which is closed once.  It stops at the [assert] of [SetFdNonblock]
    when every call succeeded on descriptor 0, and only then. *)
Theorem InitSocket_closes_on_failure (port_ : Z) (openLinger_ : bool)
    (listenEvent_ : Z) (e : Epoller.t) (r : socket_rets) :
  match InitSocket_ port_ openLinger_ listenEvent_ e r with
  | Ok (true, e', calls) =>
    1024 <= port_ <= 65535 /\ 0 < socket_ret r /\
    0 <= linger_ret r /\ reuseaddr_ret r <> -1 /\ 0 <= bind_ret r /\
    0 <= listen_ret r /\
    registered e !! socket_ret r = None /\
    registered e'
    = <[socket_ret r := Z.lor listenEvent_ WebServer.EPOLLIN]> (registered e) /\
    List.filter (closes (socket_ret r)) calls = [] /\
    last calls = Some (sys_fcntl_NONBLOCK (socket_ret r))
  | Ok (false, e', calls) =>
    registered e' = registered e /\
    ((calls = [] /\ (port_ < 1024 \/ 65535 < port_)) \/
     (calls = [sys_socket] /\ socket_ret r < 0) \/
     (0 <= socket_ret r /\
      (linger_ret r < 0 \/ reuseaddr_ret r = -1 \/ bind_ret r < 0 \/
       listen_ret r < 0 \/ is_Some (registered e !! socket_ret r)) /\
      last calls = Some (sys_close (socket_ret r)) /\
      List.filter (closes (socket_ret r)) calls = [sys_close (socket_ret r)]))
  | Err f =>
    f = AssertFailed /\ socket_ret r = 0 /\ 1024 <= port_ <= 65535 /\
    0 <= linger_ret r /\ reuseaddr_ret r <> -1 /\ 0 <= bind_ret r /\
    0 <= listen_ret r /\ registered e !! 0 = None
  end.
Proof.
  unfold InitSocket_.
  destruct (Z.ltb_spec 65535 port_) as [Hhi | Hhi];
    [simpl; split; [reflexivity | left; split; [reflexivity | lia]] |].
  destruct (Z.ltb_spec port_ 1024) as [Hlo | Hlo];
    [simpl; split; [reflexivity | left; split; [reflexivity | lia]] |].
  cbn [orb]. destruct openLinger_.
  all: destruct (Z.ltb_spec (socket_ret r) 0) as [Hfd | Hfd];
    [split; [reflexivity | right; left; split; [reflexivity | lia]] |].
  all: destruct (Z.ltb_spec (linger_ret r) 0) as [Hl | Hl];
    [simpl; rewrite Z.eqb_refl; split; [reflexivity | right; right; auto 10] |].
  all: destruct (Z.eqb_spec (reuseaddr_ret r) (-1)) as [Hr | Hr];
    [simpl; rewrite Z.eqb_refl; split; [reflexivity | right; right; auto 10] |].
  all: destruct (Z.ltb_spec (bind_ret r) 0) as [Hb | Hb];
    [simpl; rewrite Z.eqb_refl; split; [reflexivity | right; right; auto 10] |].
  all: destruct (Z.ltb_spec (listen_ret r) 0) as [Hli | Hli];
    [simpl; rewrite Z.eqb_refl; split; [reflexivity | right; right; auto 10] |].
  all: unfold AddFd, do_ctl, epoll_ctl.
  all: destruct (Z.ltb_spec (socket_ret r) 0) as [? | _]; [lia |].
  all: destruct (registered e !! socket_ret r) as [old |] eqn:Hreg;
    [simpl; rewrite Z.eqb_refl; split; [reflexivity | right; right; eauto 10] |].
  all: cbn [negb Z.eqb]; unfold SetFdNonblock.
  all: destruct (Z.ltb_spec 0 (socket_ret r)) as [Hpos | Hpos]; simpl.
  all: try (repeat split; (lia || assumption || reflexivity)).
  all: assert (socket_ret r = 0) as H0 by lia; rewrite H0 in Hreg.
  all: repeat split; (lia || assumption || reflexivity).
Qed.

End WebServerEventsFacts.
